(** * The numeric core of the pixel-grid analyser

    A shallow embedding of the pipeline implemented in
    [src/components/ImageFFTAnalyzer/hooks/useImageAnalysis.ts]
    (line sampling, spectrum aggregation, Gaussian smoothing, peak
    detection, grid sampling) and in [src/components/ImageFFTAnalyzer.tsx]
    (pixel-art reconstruction, colour histogram, background matte).

    Conventions.
    - JavaScript numbers that hold pixel coordinates, indices and 8-bit
      channel values are integers ([Z] or [nat]); spectra, kernels and
      luminances are real numbers ([R]); the grid pitch and the draws of
      [Math.random] are rationals ([Q]).
    - The [Uint8ClampedArray] of an [ImageData] is the sequence of its
      RGBA quadruples: byte [4*p + c] is channel [c] of pixel [p].
    - React state setters are explicit state passing on [HookState]. *)

From Stdlib Require Import String Ascii.
From Stdlib Require Import ZArith QArith Qround Reals Lia Lra List.
From Stdlib Require Lqa.
From stdpp Require Import base list gmap.

Open Scope Z_scope.

(** ** Gaussian smoothing and peak detection (useImageAnalysis.ts) *)

Section SpectrumDefs.
Local Open Scope R_scope.

(** [const size = kernelSize % 2 === 0 ? kernelSize + 1 : kernelSize] *)
Definition oddSize (kernelSize : Z) : Z :=
  if (kernelSize mod 2 =? 0)%Z then (kernelSize + 1)%Z else kernelSize.

(** [Math.floor(size / 2)] *)
Definition kernelRadius (kernelSize : Z) : Z := (oddSize kernelSize / 2)%Z.

(** The integers [lo, lo+1, ..., hi] of a [for (i = lo; i <= hi; i++)]. *)
Definition zrange (lo hi : Z) : list Z :=
  map (fun k => (lo + Z.of_nat k)%Z) (seq 0 (Z.to_nat (hi - lo + 1))).

(** [Math.exp(-(i * i) / (2 * sigma * sigma))] *)
Definition gaussValue (sigma : R) (i : Z) : R :=
  exp (- (IZR i * IZR i) / (2 * sigma * sigma)).

Definition rsum (l : list R) : R := fold_left Rplus l 0.

(** The un-normalised kernel, pushed for [i = -radius .. radius]. *)
Definition rawKernel (sigma : R) (radius : Z) : list R :=
  map (gaussValue sigma) (zrange (- radius) radius).

(** [kernel[i] /= sum] *)
Definition gaussKernel (sigma : R) (radius : Z) : list R :=
  let raw := rawKernel sigma radius in
  map (fun v => v / rsum raw) raw.

(** Reading a JS array at an integer index: [None] is [undefined]. *)
Definition jsGet {A} (l : list A) (i : Z) : option A :=
  if (i <? 0)%Z then None else l !! Z.to_nat i.

(** One term of the inner convolution loop:
    [if (index >= 0 && index < data.length) value += data[index] * kernel[j + radius]];
    the kernel has an entry for every [j] of the loop. *)
Definition convTerm (data kernel : list R) (radius i : Z) (value : R) (j : Z) : R :=
  let index := (i + j)%Z in
  if ((0 <=? index) && (index <? Z.of_nat (length data)))%Z
  then match jsGet data index, jsGet kernel (j + radius) with
       | Some d, Some k => value + d * k
       | _, _ => value
       end
  else value.

Definition convAt (data kernel : list R) (radius i : Z) : R :=
  fold_left (convTerm data kernel radius i) (zrange (- radius) radius) 0.

Definition applyGaussianSmoothing (data : list R) (sigma : R) (kernelSize : Z) : list R :=
  let radius := kernelRadius kernelSize in
  let kernel := gaussKernel sigma radius in
  map (convAt data kernel radius) (zrange 0 (Z.of_nat (length data) - 1)).

(** The peak scan: [if (smoothedMagnitudes[i] > maxMagnitude) { ... }]
    with state [(maxMagnitude, peakFrequency)]. *)
Definition peakStep (smoothed : list R) (s : R * nat) (i : nat) : R * nat :=
  match smoothed !! i with
  | Some v => if Rlt_dec (fst s) v then (v, i) else s
  | None => s
  end.

Definition startIndex : nat := 5.

Definition findPeak (smoothed : list R) : nat :=
  snd (fold_left (peakStep smoothed)
         (seq startIndex (length smoothed - startIndex)) (0, 0%nat)).
End SpectrumDefs.

(** ** Images and hook state *)

Record RGBA := mkRGBA { red : Z; green : Z; blue : Z; alpha : Z }.

Record ImageData := mkImageData { width : Z; height : Z; data : list RGBA }.

(** What [getImageData] and the [ImageData] constructor guarantee:
    [data.length = 4 * width * height]. *)
Definition wfImage (img : ImageData) : Prop :=
  0 <= width img /\ 0 <= height img /\
  Z.of_nat (length (data img)) = width img * height img.

(** Every channel is a byte (the buffer is a [Uint8ClampedArray]). *)
Definition isByte (v : Z) : Prop := 0 <= v < 256.
Definition bytePixel (p : RGBA) : Prop :=
  isByte (red p) /\ isByte (green p) /\ isByte (blue p) /\ isByte (alpha p).

Definition transparentBlack : RGBA := mkRGBA 0 0 0 0.

(** The pixel whose bytes start at [(y * width + x) * 4]; a read past the
    buffer is [undefined] in JavaScript and does not occur for in-bounds
    coordinates of a well-formed image. *)
Definition pixelAt (data : list RGBA) (width x y : Z) : option RGBA :=
  jsGet data (y * width + x).

Record PixelSample := mkSample { sx : Z; sy : Z; scolor : RGBA }.

Record FFTResult := mkFFTResult {
  fx : Z;
  fft_out : list (R * R);
  magnitudes : list R
}.

Record HookState := mkHookState {
  imageData : option ImageData;
  fftResults : list FFTResult;
  combinedFFT : list R;
  smoothedFFT : list R;
  selectedLines : list Z;
  processing : bool;
  dominantFrequency : option Z;
  pixelSamples : list PixelSample
}.

(** ** Random line selection (performFFT, the [while] loop)

    [random n] is the value of the [n]-th call of [Math.random()].
    The loop has no iteration counter of its own; [fuel] bounds the
    number of iterations the model runs and [None] means the loop is
    still running when the fuel is used up. *)

Definition drawColumn (random : nat -> Q) (n : nat) (imgWidth : Z) : Z :=
  Qfloor (random n * inject_Z imgWidth).

Fixpoint selectLines (fuel : nat) (random : nat -> Q) (n : nat) (imgWidth : Z)
    (lines : list Z) (usedPositions : gset Z) : option (list Z) :=
  if (Z.of_nat (length lines) <? 30) && (Z.of_nat (length lines) <? imgWidth) then
    match fuel with
    | O => None
    | S fuel' =>
        let x := drawColumn random n imgWidth in
        if decide (x ∈ usedPositions)
        then selectLines fuel' random (S n) imgWidth lines usedPositions
        else selectLines fuel' random (S n) imgWidth (lines ++ [x]) ({[x]} ∪ usedPositions)
    end
  else Some lines.

(** ** Per-line analysis (performFFT, the [for (const x of lines)] loop) *)

Section LineDefs.
Local Open Scope R_scope.

(** [(data[index] + data[index + 1] + data[index + 2]) / 3]; the pixel of a
    column [x < width] and a row [y < height] of a well-formed image is
    always there. *)
Definition gray (img : ImageData) (x y : Z) : R :=
  match pixelAt (data img) (width img) x y with
  | Some p => (IZR (red p) + IZR (green p) + IZR (blue p)) / 3
  | None => 0
  end.

Definition lineData (img : ImageData) (x : Z) : list R :=
  map (gray img x) (zrange 0 (height img - 1)).

(** [derivatives.push(Math.abs(lineData[i] - lineData[i - 1]))] for [i >= 1]. *)
Fixpoint derivatives (l : list R) : list R :=
  match l with
  | a :: (b :: _) as t => Rabs (b - a) :: derivatives t
  | _ => []
  end.

(** [math.fft]: the discrete Fourier transform of a real sequence,
    bin [k] being the sum of [x_n * exp(-2 pi i k n / N)]. *)
Definition dftTerm (N k : nat) (acc : R * R) (nx : nat * R) : R * R :=
  let angle := 2 * PI * INR k * INR (fst nx) / INR N in
  (fst acc + snd nx * cos angle, snd acc - snd nx * sin angle).

Definition dftBin (xs : list R) (k : nat) : R * R :=
  fold_left (dftTerm (length xs) k) (combine (seq 0 (length xs)) xs) (0, 0).

Definition fft (xs : list R) : list (R * R) :=
  map (dftBin xs) (seq 0 (length xs)).

(** [Math.sqrt(Math.pow(complex.re, 2) + Math.pow(complex.im, 2))] *)
Definition magnitude (c : R * R) : R := sqrt (fst c ^ 2 + snd c ^ 2).

Definition analyseLine (img : ImageData) (x : Z) : FFTResult :=
  let out := fft (derivatives (lineData img x)) in
  mkFFTResult x out (map magnitude out).

(** [combinedMagnitudes[i]] after the inner loop over all lines. *)
Definition combineAt (allMagnitudes : list (list R)) (i : nat) : R :=
  fold_left (fun acc (m : list R) =>
               match m !! i with Some v => acc + v | None => acc end)
            allMagnitudes 0.
End LineDefs.

(** [Math.max(...magnitudeLengths)]; only evaluated on a non-empty list. *)
Definition maxLengthOf (allMagnitudes : list (list R)) : Z :=
  fold_right Z.max 0 (map (fun m : list R => Z.of_nat (length m)) allMagnitudes).

(** [Math.max(1, Math.min(maxLength, Math.floor(imgHeight / 2)))] *)
Definition maxFreqOf (maxLength imgHeight : Z) : Z :=
  Z.max 1 (Z.min maxLength (imgHeight / 2)).

(** [Math.min(maxFreq, 10000)] *)
Definition safeMaxFreqOf (maxLength imgHeight : Z) : Z :=
  Z.min (maxFreqOf maxLength imgHeight) 10000.

Definition combineMagnitudes (allMagnitudes : list (list R)) (safeMaxFreq : Z) : list R :=
  map (combineAt allMagnitudes) (seq 0 (Z.to_nat safeMaxFreq)).

(** ** Grid sampling (generatePixelSamples / generatePixelArt) *)

(** [Math.round(q)] is [Math.floor(q + 0.5)]. *)
Definition jsRound (q : Q) : Z := Qfloor (q + (1 # 2)).

(** [const pixelSpacing = imgHeight / frequency] *)
Definition pixelSpacingOf (imgHeight frequency : Z) : Q :=
  inject_Z imgHeight / inject_Z frequency.

(** [Math.round(dimension / pixelSpacing)] *)
Definition estimatedSize (dimension : Z) (pixelSpacing : Q) : Z :=
  jsRound (inject_Z dimension / pixelSpacing).

(** [Math.floor((grid + 0.5) * pixelSpacing)] *)
Definition cellCentre (grid : Z) (pixelSpacing : Q) : Z :=
  Qfloor ((inject_Z grid + (1 # 2)) * pixelSpacing).

(** The four bytes read at [(centerY * imgWidth + centerX) * 4]. *)
Definition colourAt (img : ImageData) (x y : Z) : RGBA :=
  default transparentBlack (pixelAt (data img) (width img) x y).

(** The body of the two nested sampling loops for one grid cell. *)
Definition sampleCell (img : ImageData) (pixelSpacing : Q) (gridY gridX : Z)
    : list PixelSample :=
  let centerX := cellCentre gridX pixelSpacing in
  let centerY := cellCentre gridY pixelSpacing in
  if (centerX <? width img) && (centerY <? height img)
  then [mkSample centerX centerY (colourAt img centerX centerY)]
  else [].

Definition sampleGrid (img : ImageData) (pixelSpacing : Q)
    (estimatedWidth estimatedHeight : Z) : list PixelSample :=
  flat_map (fun gridY =>
              flat_map (sampleCell img pixelSpacing gridY)
                       (zrange 0 (estimatedWidth - 1)))
           (zrange 0 (estimatedHeight - 1)).

Definition setPixelSamples (samples : list PixelSample) (st : HookState) : HookState :=
  mkHookState (imageData st) (fftResults st) (combinedFFT st) (smoothedFFT st)
              (selectedLines st) (processing st) (dominantFrequency st) samples.

(** [imgDataParam || imageData] *)
Definition orState (imgDataParam : option ImageData) (st : HookState) : option ImageData :=
  match imgDataParam with
  | Some img => Some img
  | None => imageData st
  end.

Definition generatePixelSamples (frequency : Z) (imgDataParam : option ImageData)
    (st : HookState) : HookState :=
  match orState imgDataParam st with
  | None => st
  | Some img =>
      if frequency <=? 0 then st
      else
        let pixelSpacing := pixelSpacingOf (height img) frequency in
        let estimatedWidth := estimatedSize (width img) pixelSpacing in
        let estimatedHeight := estimatedSize (height img) pixelSpacing in
        setPixelSamples (sampleGrid img pixelSpacing estimatedWidth estimatedHeight) st
  end.

(** ** performFFT (useImageAnalysis.ts) *)

Definition setProcessing (b : bool) (st : HookState) : HookState :=
  mkHookState (imageData st) (fftResults st) (combinedFFT st) (smoothedFFT st)
              (selectedLines st) b (dominantFrequency st) (pixelSamples st).

Definition setSelectedLines (lines : list Z) (st : HookState) : HookState :=
  mkHookState (imageData st) (fftResults st) (combinedFFT st) (smoothedFFT st)
              lines (processing st) (dominantFrequency st) (pixelSamples st).

(** [setDominantFrequency; setFftResults; setCombinedFFT; setSmoothedFFT;
    setProcessing(false)] *)
Definition setAnalysis (peak : Z) (results : list FFTResult) (combined smoothed : list R)
    (st : HookState) : HookState :=
  mkHookState (imageData st) results combined smoothed
              (selectedLines st) false (Some peak) (pixelSamples st).

(** [allMagnitudes]: the magnitude array of every sampled line. *)
Definition lineMagnitudes (img : ImageData) (lines : list Z) : list (list R) :=
  map (fun x => magnitudes (analyseLine img x)) lines.

(** The combined spectrum [performFFT] builds from the sampled [lines]. *)
Definition combinedOf (img : ImageData) (lines : list Z) : list R :=
  let allMagnitudes := lineMagnitudes img lines in
  combineMagnitudes allMagnitudes
    (safeMaxFreqOf (maxLengthOf allMagnitudes) (height img)).

(** Everything [performFFT] does once the lines are chosen. *)
Definition performFFTOn (lines : list Z) (img : ImageData) (st : HookState) : HookState :=
  let st1 := setSelectedLines lines (setProcessing true st) in
  let results := map (analyseLine img) lines in
  let allMagnitudes := map magnitudes results in
  if (length allMagnitudes =? 0)%nat then setProcessing false st1
  else if maxLengthOf allMagnitudes =? 0 then setProcessing false st1
  else
    let maxLength := maxLengthOf allMagnitudes in
    let safeMaxFreq := safeMaxFreqOf maxLength (height img) in
    let combinedMagnitudes := combineMagnitudes allMagnitudes safeMaxFreq in
    let smoothedMagnitudes := applyGaussianSmoothing combinedMagnitudes 2 7 in
    let peakFrequency := Z.of_nat (findPeak smoothedMagnitudes) in
    let st2 := setAnalysis peakFrequency results combinedMagnitudes smoothedMagnitudes st1 in
    if 0 <? peakFrequency
    then generatePixelSamples peakFrequency (Some img) st2
    else st2.

Definition performFFT (fuel : nat) (random : nat -> Q)
    (imgDataParam : option ImageData) (st : HookState) : option HookState :=
  match orState imgDataParam st with
  | None => Some st
  | Some img =>
      match selectLines fuel random 0 (width img) [] ∅ with
      | None => None
      | Some lines => Some (performFFTOn lines img st)
      end
  end.

(** ** Pixel-art reconstruction (ImageFFTAnalyzer.tsx, generatePixelArt)

    The off-screen canvas is an RGBA store: it is cleared to transparent
    black, [fillRect(gridX, gridY, 1, 1)] stores the fill colour of that
    cell, and [getImageData] reads the cells back in row-major order. *)

Definition canvasCell (samples : list PixelSample) (estimatedWidth gridY gridX : Z) : RGBA :=
  match jsGet samples (gridY * estimatedWidth + gridX) with
  | Some sample => scolor sample
  | None => transparentBlack
  end.

Definition drawSamples (samples : list PixelSample) (estimatedWidth estimatedHeight : Z)
    : list RGBA :=
  flat_map (fun gridY =>
              map (canvasCell samples estimatedWidth gridY)
                  (zrange 0 (estimatedWidth - 1)))
           (zrange 0 (estimatedHeight - 1)).

(** The [generatedData] of [generatePixelArt]; [None] is the early return. *)
Definition generatePixelArt (frequency : Z) (img : ImageData) : option ImageData :=
  if frequency <=? 0 then None
  else
    let pixelSpacing := pixelSpacingOf (height img) frequency in
    let estimatedWidth := estimatedSize (width img) pixelSpacing in
    let estimatedHeight := estimatedSize (height img) pixelSpacing in
    let samples := sampleGrid img pixelSpacing estimatedWidth estimatedHeight in
    Some (mkImageData estimatedWidth estimatedHeight
            (drawSamples samples estimatedWidth estimatedHeight)).

(** ** Colour histogram (generateColorHistogram) *)

Record ColorCount := mkColorCount { color : string; count : Z; rgba : RGBA }.

Definition hexDigit (d : Z) : ascii :=
  match String.get (Z.to_nat d) "0123456789abcdef" with
  | Some c => c
  | None => "0"%char
  end.

(** [n.toString(16)] for a non-negative integer. *)
Fixpoint toString16From (fuel : nat) (n : Z) (acc : string) : string :=
  let acc' := String (hexDigit (n mod 16)) acc in
  match fuel with
  | O => acc'
  | S fuel' => if n <? 16 then acc' else toString16From fuel' (n / 16) acc'
  end.

Definition toString16 (n : Z) : string := toString16From 64 n EmptyString.

(** [s.padStart(2, '0')] *)
Definition padStart2 (s : string) : string :=
  match s with
  | EmptyString => "00"%string
  | String c EmptyString => String "0"%char (String c EmptyString)
  | _ => s
  end.

Definition hex2 (v : Z) : string := padStart2 (toString16 v).

(** The template string [`#${r}${g}${b}`] of two-digit hex channels. *)
Definition colorKeyOf (p : RGBA) : string :=
  String "#"%char (String.append (hex2 (red p))
                     (String.append (hex2 (green p)) (hex2 (blue p)))).

(** [colorCounts[colorKey]] is truthy. *)
Definition hasKey (colorKey : string) (colorCounts : list ColorCount) : bool :=
  existsb (fun e => String.eqb (color e) colorKey) colorCounts.

(** [colorCounts[colorKey].count++] *)
Definition bump (colorKey : string) (e : ColorCount) : ColorCount :=
  if String.eqb (color e) colorKey
  then mkColorCount (color e) (count e + 1) (rgba e)
  else e.

(** One iteration of the counting loop; the object [colorCounts] is an
    association list in insertion order, as [Object.values] enumerates it. *)
Definition countPixel (colorCounts : list ColorCount) (p : RGBA) : list ColorCount :=
  if alpha p =? 0 then colorCounts
  else
    let colorKey := colorKeyOf p in
    if hasKey colorKey colorCounts
    then map (bump colorKey) colorCounts
    else colorCounts ++ [mkColorCount colorKey 1 p].

Definition countColors (data : list RGBA) : list ColorCount :=
  fold_left countPixel data [].

(** [sort((a, b) => b.count - a.count)]: descending by count, stable. *)
Fixpoint insertByCount (e : ColorCount) (l : list ColorCount) : list ColorCount :=
  match l with
  | [] => [e]
  | h :: t => if count h <=? count e then e :: h :: t else h :: insertByCount e t
  end.

Definition sortByCount (l : list ColorCount) : list ColorCount :=
  fold_right insertByCount [] l.

Definition generateColorHistogram (pixelArtData : ImageData) : list ColorCount :=
  sortByCount (countColors (data pixelArtData)).

(** ** Background matte (createTransparentVersion) *)

Definition tolerance : Z := 5.

(** Writing a JS array at an integer index.  The writes of the flood fill
    are guarded by a successful read of the same pixel, so they never fall
    outside the array. *)
Definition jsSet {A} (l : list A) (i : Z) (v : A) : list A :=
  if i <? 0 then l else <[Z.to_nat i := v]> l.

(** The helper [isTargetColor(x, y)]; it reads the buffer being written,
    and a read of [undefined] makes every comparison false. *)
Definition isTargetColor (data : list RGBA) (width : Z) (targetColor : RGBA)
    (x y : Z) : bool :=
  match pixelAt data width x y with
  | Some p =>
      (Z.abs (red p - red targetColor) <=? tolerance) &&
      (Z.abs (green p - green targetColor) <=? tolerance) &&
      (Z.abs (blue p - blue targetColor) <=? tolerance)
  | None => false
  end.

(** [visited[i]] as a condition. *)
Definition isVisited (visited : list bool) (i : Z) : bool :=
  match jsGet visited i with
  | Some b => b
  | None => false
  end.

(** [if (isTargetColor(x, y)) { queue.push([x, y]); visited[y * width + x] = true; }] *)
Definition seed (data : list RGBA) (width : Z) (targetColor : RGBA)
    (s : list (Z * Z) * list bool) (p : Z * Z) : list (Z * Z) * list bool :=
  if isTargetColor data width targetColor (fst p) (snd p)
  then (fst s ++ [p], jsSet (snd s) (snd p * width + fst p) true)
  else s.

(** The two seeding loops: top and bottom edges, then left and right edges. *)
Definition seedEdges (data : list RGBA) (width height : Z) (targetColor : RGBA)
    : list (Z * Z) * list bool :=
  let sd := seed data width targetColor in
  let s0 := ([], replicate (Z.to_nat (width * height)) false) in
  let s1 := fold_left (fun s x => sd (sd s (x, 0)) (x, height - 1))
                      (zrange 0 (width - 1)) s0 in
  fold_left (fun s y => sd (sd s (0, y)) (width - 1, y))
            (zrange 0 (height - 1)) s1.

(** [data[index + 3] = 0] *)
Definition clearAlpha (data : list RGBA) (i : Z) : list RGBA :=
  match jsGet data i with
  | Some p => jsSet data i (mkRGBA (red p) (green p) (blue p) 0)
  | None => data
  end.

Definition directions : list (Z * Z) := [(-1, 0); (1, 0); (0, -1); (0, 1)].

(** The body of [for (const [dx, dy] of directions)]. *)
Definition visitNeighbour (data : list RGBA) (width height : Z) (targetColor : RGBA)
    (x y : Z) (s : list (Z * Z) * list bool) (d : Z * Z) : list (Z * Z) * list bool :=
  let nx := x + fst d in
  let ny := y + snd d in
  if (0 <=? nx) && (nx <? width) && (0 <=? ny) && (ny <? height)
  then
    let newIndex := ny * width + nx in
    if negb (isVisited (snd s) newIndex) && isTargetColor data width targetColor nx ny
    then (fst s ++ [(nx, ny)], jsSet (snd s) newIndex true)
    else s
  else s.

(** [while (queue.length > 0)]; one unit of fuel per dequeued pixel. *)
Fixpoint floodLoop (fuel : nat) (width height : Z) (targetColor : RGBA)
    (queue : list (Z * Z)) (visited : list bool) (data : list RGBA)
    : option (list bool * list RGBA) :=
  match queue with
  | [] => Some (visited, data)
  | (x, y) :: rest =>
      match fuel with
      | O => None
      | S fuel' =>
          let data' := clearAlpha data (y * width + x) in
          let s := fold_left (visitNeighbour data' width height targetColor x y)
                             directions (rest, visited) in
          floodLoop fuel' width height targetColor (fst s) (snd s) data'
      end
  end.

(** Seeding followed by the fill, on the copied buffer; the result is the
    final [visited] array and the final contents of the buffer. *)
Definition floodFill (fuel : nat) (targetColor : RGBA) (width height : Z)
    (buffer : list RGBA) : option (list bool * list RGBA) :=
  let s := seedEdges buffer width height targetColor in
  floodLoop fuel width height targetColor (fst s) (snd s) buffer.

(** Pixel buffers live in a store and an [ImageData] refers to its buffer
    by address; [new Uint8ClampedArray(pixelArtData.data)] allocates a
    copy at a fresh address and every write of the fill goes to the copy. *)
Definition Store := list (list RGBA).

Definition createTransparentVersion (fuel : nat) (targetColor : RGBA)
    (pixelArtData : nat) (width height : Z) (st : Store) : option (Store * nat) :=
  match st !! pixelArtData with
  | None => None
  | Some source =>
      let newImgData := length st in
      let st1 := st ++ [source] in
      match floodFill fuel targetColor width height source with
      | None => None
      | Some (_, out) => Some (<[newImgData := out]> st1, newImgData)
      end
  end.

(** Enough fuel for any image: every seed push and every pixel once. *)
Definition fillFuel (width height : Z) : nat :=
  Z.to_nat (2 * (width + height) + width * height).

(** ** The matte as the specification describes it *)

Definition inBounds (width height x y : Z) : Prop :=
  0 <= x < width /\ 0 <= y < height.

Definition onBorder (width height x y : Z) : Prop :=
  x = 0 \/ x = width - 1 \/ y = 0 \/ y = height - 1.

Definition adjacent (x y x' y' : Z) : Prop :=
  (x' = x - 1 /\ y' = y) \/ (x' = x + 1 /\ y' = y) \/
  (x' = x /\ y' = y - 1) \/ (x' = x /\ y' = y + 1).

(** [matches]: R, G and B each within the tolerance of the target colour. *)
Definition withinTolerance (targetColor p : RGBA) : Prop :=
  Z.abs (red p - red targetColor) <= tolerance /\
  Z.abs (green p - green targetColor) <= tolerance /\
  Z.abs (blue p - blue targetColor) <= tolerance.

Definition matchesAt (img : ImageData) (targetColor : RGBA) (x y : Z) : Prop :=
  exists p, pixelAt (data img) (width img) x y = Some p /\ withinTolerance targetColor p.

(** The 4-connected closure, from the border, of the matching pixels. *)
Inductive borderConnected (img : ImageData) (targetColor : RGBA) : Z -> Z -> Prop :=
  | bc_border x y :
      inBounds (width img) (height img) x y ->
      onBorder (width img) (height img) x y ->
      matchesAt img targetColor x y ->
      borderConnected img targetColor x y
  | bc_step x y x' y' :
      borderConnected img targetColor x y ->
      adjacent x y x' y' ->
      inBounds (width img) (height img) x' y' ->
      matchesAt img targetColor x' y' ->
      borderConnected img targetColor x' y'.

Definition zeroAlpha (p : RGBA) : RGBA := mkRGBA (red p) (green p) (blue p) 0.

(** ** Specification-level notions for the smoother *)

Section SmoothingSpec.
Local Open Scope R_scope.

(** The kernel weight that offset [j] contributes at position [i] of an
    array of length [n]: nothing when [i + j] falls outside the array. *)
Definition weightAt (n : nat) (kernel : list R) (radius i j : Z) : R :=
  if ((0 <=? i + j) && (i + j <? Z.of_nat n))%Z
  then default 0 (jsGet kernel (j + radius))
  else 0.

(** The part of the normalised kernel (sigma 2, size 7) that lies inside
    an array of length [n] when it is centred at [i]. *)
Definition insideWeight (n : nat) (i : Z) : R :=
  rsum (map (weightAt n (gaussKernel 2 3) 3 i) (zrange (-3) 3)).
End SmoothingSpec.

(** ** Specification-level notions for the line selection *)

(** Every call of [Math.random()] returns a number in [[0, 1)]. *)
Definition unitSource (random : nat -> Q) : Prop :=
  forall n, (0 <= random n)%Q /\ (random n < 1)%Q.

(** A source that keeps drawing every column: after any number of calls
    each column index is drawn again. *)
Definition fairSource (random : nat -> Q) (imgWidth : Z) : Prop :=
  forall (n : nat) (c : Z), 0 <= c < imgWidth ->
    exists m, (n <= m)%nat /\ drawColumn random m imgWidth = c.

(** The number of lines the loop is meant to produce. *)
Definition lineTarget (imgWidth : Z) : Z := Z.min 30 imgWidth.

(** What holds of [lines] and [usedPositions] at every loop head. *)
Definition linesInvariant (imgWidth : Z) (lines : list Z) (used : gset Z) : Prop :=
  used = list_to_set lines /\ NoDup lines /\
  (forall x, x ∈ lines -> 0 <= x < imgWidth) /\
  Z.of_nat (length lines) <= lineTarget imgWidth.

(** ** Specification-level notions for the histogram *)

(** The pixels the histogram counts: those that are not fully transparent. *)
Definition visiblePixels (data : list RGBA) : list RGBA :=
  filter (fun p => alpha p <> 0) data.

(** How many counted pixels carry a given colour key. *)
Definition countByKey (data : list RGBA) (colorKey : string) : Z :=
  Z.of_nat (length (filter (fun p => colorKeyOf p = colorKey) (visiblePixels data))).

(** The sum of the counts of all entries. *)
Definition totalCount (colorCounts : list ColorCount) : Z :=
  fold_right (fun e acc => count e + acc) 0 colorCounts.

Definition sameRGB (p q : RGBA) : Prop :=
  red p = red q /\ green p = green q /\ blue p = blue q.

Definition byteValues : list Z := zrange 0 255.

(** What the counting loop maintains after the pixels [data]. *)
Definition histogramInvariant (data : list RGBA) (acc : list ColorCount) : Prop :=
  NoDup (map color acc) /\
  (forall e, e ∈ acc -> count e = countByKey data (color e) /\ 1 <= count e) /\
  (forall p, p ∈ data -> alpha p <> 0 -> exists e, e ∈ acc /\ color e = colorKeyOf p) /\
  totalCount acc = Z.of_nat (length (visiblePixels data)).

(** ** Specification-level notions for the flood fill *)

(** The linear index [y * width + x] of a pixel. *)
Definition linearIndex (width x y : Z) : Z := y * width + x.

(** Neighbour in direction [dir] of a visited pixel is visited whenever it
    is inside the image and matches the target colour. *)
Definition closedAt (img : ImageData) (targetColor : RGBA) (visited : list bool)
    (x y : Z) (dir : Z * Z) : Prop :=
  inBounds (width img) (height img) (x + fst dir) (y + snd dir) ->
  matchesAt img targetColor (x + fst dir) (y + snd dir) ->
  isVisited visited (linearIndex (width img) (x + fst dir) (y + snd dir)) = true.

(** The invariant of the fill.  [exempt p dir] marks the directions of the
    pixel being expanded that the inner loop has not looked at yet. *)
Definition fillInvariant (img : ImageData) (targetColor : RGBA)
    (exempt : Z * Z -> Z * Z -> Prop)
    (queue : list (Z * Z)) (visited : list bool) (buffer : list RGBA) : Prop :=
  Z.of_nat (length visited) = width img * height img /\
  Z.of_nat (length buffer) = width img * height img /\
  (forall x y, inBounds (width img) (height img) x y ->
     pixelAt buffer (width img) x y = pixelAt (data img) (width img) x y \/
     pixelAt buffer (width img) x y
       = option_map zeroAlpha (pixelAt (data img) (width img) x y)) /\
  (forall x y, (x, y) ∈ queue ->
     inBounds (width img) (height img) x y /\
     isVisited visited (linearIndex (width img) x y) = true) /\
  (forall x y, inBounds (width img) (height img) x y ->
     isVisited visited (linearIndex (width img) x y) = true ->
     borderConnected img targetColor x y) /\
  (forall x y, inBounds (width img) (height img) x y ->
     onBorder (width img) (height img) x y -> matchesAt img targetColor x y ->
     isVisited visited (linearIndex (width img) x y) = true) /\
  (forall x y, inBounds (width img) (height img) x y ->
     isVisited visited (linearIndex (width img) x y) = true ->
     (x, y) ∈ queue \/
     forall dir, dir ∈ directions ->
       exempt (x, y) dir \/ closedAt img targetColor visited x y dir) /\
  (forall x y, inBounds (width img) (height img) x y ->
     isVisited visited (linearIndex (width img) x y) = true ->
     (x, y) ∈ queue \/
     pixelAt buffer (width img) x y
       = option_map zeroAlpha (pixelAt (data img) (width img) x y)) /\
  (forall x y, inBounds (width img) (height img) x y ->
     isVisited visited (linearIndex (width img) x y) = false ->
     pixelAt buffer (width img) x y = pixelAt (data img) (width img) x y).

(** While the pixel [(x0, y0)] is expanded, its directions outside [done]
    are still to be looked at. *)
Definition exemptAfter (x0 y0 : Z) (done : list (Z * Z)) (p dir : Z * Z) : Prop :=
  p = (x0, y0) /\ dir ∉ done.

(** At the head of the outer loop nothing is exempt. *)
Definition noExempt (p dir : Z * Z) : Prop := False.

(** The invariant of the two seeding loops: the visited pixels are the
    queued ones, and they are matching border pixels. *)
Definition seedInvariant (img : ImageData) (targetColor : RGBA)
    (queue : list (Z * Z)) (visited : list bool) : Prop :=
  Z.of_nat (length visited) = width img * height img /\
  (forall x y, (x, y) ∈ queue ->
     inBounds (width img) (height img) x y /\
     isVisited visited (linearIndex (width img) x y) = true) /\
  (forall x y, inBounds (width img) (height img) x y ->
     isVisited visited (linearIndex (width img) x y) = true ->
     (x, y) ∈ queue /\ onBorder (width img) (height img) x y /\
     matchesAt img targetColor x y).

(** The number of pixels not yet visited. *)
Fixpoint unvisited (visited : list bool) : nat :=
  match visited with
  | [] => 0
  | b :: rest => ((if b then 0 else 1) + unvisited rest)%nat
  end.

(** What is left to do: the queued pixels and the unvisited ones. *)
Definition fillMeasure (queue : list (Z * Z)) (visited : list bool) : nat :=
  (length queue + unvisited visited)%nat.

(** The border coordinates the two seeding loops test, in their order. *)
Definition seedCandidates (width height : Z) : list (Z * Z) :=
  flat_map (fun x => [(x, 0); (x, height - 1)]) (zrange 0 (width - 1)) ++
  flat_map (fun y => [(0, y); (width - 1, y)]) (zrange 0 (height - 1)).

(** ** Sample images *)

Definition opaque (r g b : Z) : RGBA := mkRGBA r g b 255.
Definition grey : RGBA := opaque 10 10 10.
Definition crimson : RGBA := opaque 200 0 0.

(** A crimson frame around one grey pixel. *)
Definition framedDot : ImageData :=
  mkImageData 3 3 [crimson; crimson; crimson;
                   crimson; grey; crimson;
                   crimson; crimson; crimson].

(** A grey border, a crimson ring inside it and a grey centre. *)
Definition ringed : ImageData :=
  mkImageData 5 5 [grey; grey; grey; grey; grey;
                   grey; crimson; crimson; crimson; grey;
                   grey; crimson; grey; crimson; grey;
                   grey; crimson; crimson; crimson; grey;
                   grey; grey; grey; grey; grey].

(** An image of one grey pixel. *)
Definition singlePixel : ImageData := mkImageData 1 1 [grey].

(** The hook state after an image is loaded: nothing analysed yet. *)
Definition freshState (img : ImageData) : HookState :=
  mkHookState (Some img) [] [] [] [] false None [].

(** ** The pixel-art hook (usePixelArtGeneration) *)

(** The hook's [generatePixelArt] draws the samples it is handed on a grid
    whose pitch is the [stride] prop; [None] is the early return.  The
    guard is [!imageData || !dominantFrequency || dominantFrequency <= 0 ||
    pixelSamples.length === 0]; a stride of zero is outside the model
    (the division is the one of [Q]). *)
Module PixelArtHook.
Definition generatePixelArt (imageData : option ImageData) (imageWidth imageHeight : Z)
    (dominantFrequency : option Z) (pixelSamples : list PixelSample) (stride : Q)
    : option ImageData :=
  match imageData, dominantFrequency with
  | Some _, Some frequency =>
      if (frequency =? 0) || (frequency <=? 0) || (length pixelSamples =? 0)%nat
      then None
      else
        let pixelSpacing := stride in
        let estimatedWidth := estimatedSize imageWidth pixelSpacing in
        let estimatedHeight := estimatedSize imageHeight pixelSpacing in
        Some (mkImageData estimatedWidth estimatedHeight
                (drawSamples pixelSamples estimatedWidth estimatedHeight))
  | _, _ => None
  end.
End PixelArtHook.

(** ** Enlarged pictures *)

(** A picture drawn with square cells of [p] by [p] source pixels: pixel
    [(x, y)] of the enlargement shows pixel [(x / p, y / p)] of [art].
    This is the input family of the round-trip property below, not a
    function of the program. *)
Definition nearestNeighbourUpscale (p : Z) (art : ImageData) : ImageData :=
  mkImageData (p * width art) (p * height art)
    (flat_map (fun y => map (fun x => colourAt art (x / p) (y / p))
                            (zrange 0 (p * width art - 1)))
              (zrange 0 (p * height art - 1))).

(** ** The whole of generateColorHistogram *)

(** After the sorted histogram is stored and drawn the function ends with
    [if (sortedColors.length > 0) createTransparentVersion(sortedColors[0].rgba, ...)].
    The result is the histogram, the store and the address of the matte
    buffer when one was made; [None] is an unreadable buffer or a fill out
    of fuel. *)
Definition histogramAndMatte (fuel : nat) (pixelArtData : nat) (width height : Z)
    (st : Store) : option (list ColorCount * Store * option nat) :=
  match st !! pixelArtData with
  | None => None
  | Some buffer =>
      let sortedColors := generateColorHistogram (mkImageData width height buffer) in
      match sortedColors with
      | [] => Some (sortedColors, st, None)
      | top :: _ =>
          match createTransparentVersion fuel (rgba top) pixelArtData width height st with
          | None => None
          | Some (st', transparent) => Some (sortedColors, st', Some transparent)
          end
      end
  end.

(** ** Specification-level notions for the order of the histogram *)

(** No entry has a larger count than an entry before it. *)
Fixpoint descendingCounts (l : list ColorCount) : Prop :=
  match l with
  | [] => True
  | h :: t => Forall (fun e => count e <= count h) t /\ descendingCounts t
  end.

(** The entries of one count, in the order of the list. *)
Definition withCount (c : Z) (l : list ColorCount) : list ColorCount :=
  filter (fun e => count e = c) l.

(** [p] is the first counted pixel of [data] with its colour key. *)
Definition firstVisibleWithKey (data : list RGBA) (p : RGBA) : Prop :=
  exists pre post, data = pre ++ p :: post /\ alpha p <> 0 /\
    forall q, q ∈ pre -> alpha q <> 0 -> colorKeyOf q <> colorKeyOf p.

(** ** Saved pixel art (services/PixelArtStorage.ts) *)

(** The entry of [localStorage] under [STORAGE_KEY] is absent, or the JSON
    text of a list of saved items, or a text [JSON.parse] rejects.  The
    [id] of an item is the number whose decimal digits the string holds.
    [accepts items] tells whether [localStorage.setItem] takes the text of
    [items] or throws for lack of room; a refused write leaves the entry
    as it was.  A stored text that parses to something other than an array
    is outside the model. *)
Module PixelArtStorage.

Record SavedPixelArt := mkSavedPixelArt {
  id : Z;
  name : string;
  dataURL : string;
  transparentDataURL : option string;
  width : Z;
  height : Z;
  timestamp : Z;
  colorCount : Z
}.

Inductive Stored :=
  | Absent
  | Items (items : list SavedPixelArt)
  | Unparseable.

(** [stored ? JSON.parse(stored) : []], and [[]] when parsing throws. *)
Definition getAllSavedPixelArt (s : Stored) : list SavedPixelArt :=
  match s with
  | Items items => items
  | Absent | Unparseable => []
  end.

(** [localStorage.setItem(STORAGE_KEY, JSON.stringify(items))]; [None] is
    the exception. *)
Definition setItem (accepts : list SavedPixelArt -> bool) (items : list SavedPixelArt)
    : option Stored :=
  if accepts items then Some (Items items) else None.

(** [value || fallback] for an optional number. *)
Definition orNumber (value : option Z) (fallback : Z) : Z :=
  match value with
  | Some v => if v =? 0 then fallback else v
  | None => fallback
  end.

(** [name || fallback] for a string. *)
Definition orName (name fallback : string) : string :=
  match name with
  | EmptyString => fallback
  | _ => name
  end.

(** [savePixelArt]; [now1] and [now2] are the two readings of [Date.now()]
    and [defaultName] the name built from the current date.  The first
    component is the returned item, [None] when the function throws. *)
Definition savePixelArt (accepts : list SavedPixelArt -> bool)
    (now1 now2 : Z) (defaultName : string)
    (name dataURL : string) (transparentDataURL : option string)
    (width height colorCount : option Z) (s : Stored)
    : option SavedPixelArt * Stored :=
  let savedArt :=
    mkSavedPixelArt now1 (orName name defaultName) dataURL transparentDataURL
      (orNumber width 32) (orNumber height 32) now2 (orNumber colorCount 0) in
  let existing := getAllSavedPixelArt s in
  let updated := take 50 (savedArt :: existing) in
  match setItem accepts updated with
  | Some s' => (Some savedArt, s')
  | None =>
      if (0 <? length existing)%nat then
        let trimmed := savedArt :: take 20 existing in
        match setItem accepts trimmed with
        | Some s' => (Some savedArt, s')
        | None => (None, s)
        end
      else (None, s)
  end.

(** [deletePixelArt]; [None] is the exception of a refused write. *)
Definition deletePixelArt (accepts : list SavedPixelArt -> bool) (target : Z) (s : Stored)
    : option Stored :=
  let existing := getAllSavedPixelArt s in
  let filtered := filter (fun art => id art <> target) existing in
  setItem accepts filtered.

(** [localStorage.removeItem(STORAGE_KEY)] *)
Definition clearAll (s : Stored) : Stored := Absent.

End PixelArtStorage.

(** ** The spinners (OffsetStrideSpinner, TemperatureSpinner) *)

(** The values of the spinners are modelled as exact rationals, the
    decimal literals of the source as the fractions they denote;
    [parseFloat] gives [None] for [NaN]. *)

(** [Math.min(a, b)] and [Math.max(a, b)] *)
Definition mathMin (a b : Q) : Q := if Qle_bool a b then a else b.
Definition mathMax (a b : Q) : Q := if Qle_bool a b then b else a.

Module OffsetStrideSpinner.

(** [if (!isNaN(value) && value >= 0 && value <= 1) onOffsetChange(value)] *)
Definition handleOffsetChange (value : option Q) (offset : Q) : Q :=
  match value with
  | Some v => if Qle_bool 0 v && Qle_bool v 1 then v else offset
  | None => offset
  end.

(** [if (!isNaN(value) && value >= 0.1) onStrideChange(value)] *)
Definition handleStrideChange (value : option Q) (stride : Q) : Q :=
  match value with
  | Some v => if Qle_bool (1 # 10) v then v else stride
  | None => stride
  end.

(** [Math.min(1.0, Math.round((offset + 0.05) * 100) / 100)] *)
Definition incrementOffset (offset : Q) : Q :=
  mathMin 1 (inject_Z (jsRound ((offset + (5 # 100)) * 100)) / 100).

(** [Math.max(0.0, Math.round((offset - 0.05) * 100) / 100)] *)
Definition decrementOffset (offset : Q) : Q :=
  mathMax 0 (inject_Z (jsRound ((offset - (5 # 100)) * 100)) / 100).

(** [Math.round((stride + 0.1) * 10) / 10] *)
Definition incrementStride (stride : Q) : Q :=
  inject_Z (jsRound ((stride + (1 # 10)) * 10)) / 10.

(** [Math.max(0.1, Math.round((stride - 0.1) * 10) / 10)] *)
Definition decrementStride (stride : Q) : Q :=
  mathMax (1 # 10) (inject_Z (jsRound ((stride - (1 # 10)) * 10)) / 10).

(** What the user can do to the two controls. *)
Inductive Event :=
  | TypeOffset (value : option Q)
  | TypeStride (value : option Q)
  | OffsetPlus
  | OffsetMinus
  | StridePlus
  | StrideMinus.

(** The pair [(offset, stride)] after an event. *)
Definition step (e : Event) (s : Q * Q) : Q * Q :=
  match e with
  | TypeOffset value => (handleOffsetChange value (fst s), snd s)
  | TypeStride value => (fst s, handleStrideChange value (snd s))
  | OffsetPlus => (incrementOffset (fst s), snd s)
  | OffsetMinus => (decrementOffset (fst s), snd s)
  | StridePlus => (fst s, incrementStride (snd s))
  | StrideMinus => (fst s, decrementStride (snd s))
  end.

End OffsetStrideSpinner.

Module TemperatureSpinner.

(** [if (!isNaN(value) && value >= 0 && value <= 2) onTemperatureChange(value)] *)
Definition handleChange (value : option Q) (temperature : Q) : Q :=
  match value with
  | Some v => if Qle_bool 0 v && Qle_bool v 2 then v else temperature
  | None => temperature
  end.

(** [Math.min(2.0, Math.round((temperature + 0.1) * 10) / 10)] *)
Definition incrementTemperature (temperature : Q) : Q :=
  mathMin 2 (inject_Z (jsRound ((temperature + (1 # 10)) * 10)) / 10).

(** [Math.max(0.0, Math.round((temperature - 0.1) * 10) / 10)] *)
Definition decrementTemperature (temperature : Q) : Q :=
  mathMax 0 (inject_Z (jsRound ((temperature - (1 # 10)) * 10)) / 10).

End TemperatureSpinner.

(** ** Drawing the histogram (drawColorHistogram) *)

(** One bar of the chart: the rectangle handed to [fillRect] and
    [strokeRect], the colour and count written next to it, and whether
    the label [Most Common] is drawn under it. *)
Record Bar := mkBar {
  barX : Q;
  barY : Q;
  barWidth : Q;
  barHeight : Q;
  barColor : string;
  barCount : Z;
  mostCommon : bool
}.

(** [Math.max(...topColors.map(c => c.count))]; only evaluated on a
    non-empty list. *)
Definition maxCountOf (topColors : list ColorCount) : Z :=
  match topColors with
  | [] => 0
  | c :: rest => fold_left Z.max (map count rest) (count c)
  end.

(** The bars [drawColorHistogram] draws on its 800 by 300 canvas; a
    maximal count of zero does not occur for a histogram and is outside
    the model (the division is the one of [Q]). *)
Definition drawColorHistogram (colors : list ColorCount) : list Bar :=
  let canvasWidth := 800%Q in
  let canvasHeight := 300%Q in
  let topColors := take (Z.to_nat (Z.min 20 (Z.of_nat (length colors)))) colors in
  if (length topColors =? 0)%nat then []
  else
    let maxCount := maxCountOf topColors in
    let width := mathMin 30 ((canvasWidth - 40) / inject_Z (Z.of_nat (length topColors))) in
    let padding := 40%Q in
    let graphHeight := (canvasHeight - 60)%Q in
    imap (fun i c =>
            let x := (padding + inject_Z (Z.of_nat i) * (width + 5))%Q in
            let height := ((inject_Z (count c) / inject_Z maxCount) * graphHeight)%Q in
            let y := (canvasHeight - 30 - height)%Q in
            mkBar x y width height (color c) (count c) (i =? 0)%nat)
         topColors.

(** ** performFFT of the single-component analyzer (ImageFFTAnalyzer.tsx) *)

(** The older component finds the peak on the combined spectrum itself:
    it does not smooth, and it does not cap the number of bins at 10000.
    The result is the frequency, the per-line results, the combined
    spectrum and the picture [generatePixelArt] makes when the frequency
    is positive (with the uploaded image present, as it is whenever the
    function runs).  For no line at all [Math.max()] is minus infinity
    and [maxFreq] is 1, as here; lines of an image of height below two
    are outside the model. *)
Module Monolith.
Definition performFFTOn (lines : list Z) (img : ImageData)
    : Z * list FFTResult * list R * option ImageData :=
  let results := map (analyseLine img) lines in
  let allMagnitudes := map magnitudes results in
  let maxLength := maxLengthOf allMagnitudes in
  let maxFreq := maxFreqOf maxLength (height img) in
  let combinedMagnitudes := combineMagnitudes allMagnitudes maxFreq in
  let peakFrequency := Z.of_nat (findPeak combinedMagnitudes) in
  (peakFrequency, results, combinedMagnitudes,
   if 0 <? peakFrequency then generatePixelArt peakFrequency img else None).
End Monolith.

(** ** Batch generation (GeminiService.generatePixelArtBatch) *)

(** The loop of [generatePixelArtBatch] issues requests in batches of at
    most [concurrencyLimit], waits for each batch with
    [Promise.allSettled] and keeps the image of every fulfilled request
    that has one.  The network is an oracle: [request k] is how the
    [k]-th call of [generatePixelArt] settles; the calls all carry the
    same arguments, so the choice of the reference images before the loop
    plays no part.  Fuel bounds the iterations of the outer loop; [None]
    is a loop still running when it is used up. *)
Module GeminiService.

Inductive Settled :=
  | Fulfilled (imageData : option string)
  | Rejected.

(** [if (result.status === 'fulfilled' && result.value.imageData)
    results.push(result.value.imageData)]; the empty string is falsy. *)
Definition kept (result : Settled) : list string :=
  match result with
  | Fulfilled (Some EmptyString) => []
  | Fulfilled (Some imageData) => [imageData]
  | Fulfilled None => []
  | Rejected => []
  end.

(** The settled results of the batch issued after [issued] requests. *)
Definition settleBatch (request : nat -> Settled) (issued : nat) (batchSize : Z)
    : list Settled :=
  map request (seq issued (Z.to_nat batchSize)).

(** [for (let i = 0; i < count; i += concurrencyLimit)]; the state is
    [i], the number of requests issued so far and [results]. *)
Fixpoint batchLoop (fuel : nat) (request : nat -> Settled) (count concurrencyLimit : Z)
    (i : Z) (issued : nat) (results : list string) : option (list string * nat) :=
  if i <? count then
    match fuel with
    | O => None
    | S fuel' =>
        let batchSize := Z.min concurrencyLimit (count - i) in
        let batchResults := settleBatch request issued batchSize in
        batchLoop fuel' request count concurrencyLimit (i + concurrencyLimit)
          (issued + Z.to_nat batchSize) (results ++ flat_map kept batchResults)
    end
  else Some (results, issued).

(** The images of the response, and how many requests were issued. *)
Definition generatePixelArtBatch (fuel : nat) (request : nat -> Settled)
    (count concurrencyLimit : Z) : option (list string * nat) :=
  batchLoop fuel request count concurrencyLimit 0 0 [].

End GeminiService.

(** [Math.min(cap, Math.max(1, parseInt(e.target.value) || 1))]: what the
    concurrency inputs store; [parseInt] gives [None] for [NaN]. *)
Definition clampConcurrency (cap : Z) (parsed : option Z) : Z :=
  Z.min cap (Z.max 1 (match parsed with
                      | Some v => if v =? 0 then 1 else v
                      | None => 1
                      end)).

(** * Properties *)

(** ** Peak detection *)

Section PeakFacts.
Local Open Scope R_scope.
Variable smoothed : list R.

Lemma peakStep_take (a : nat) (m v : R) (p : nat) :
  smoothed !! a = Some v -> m < v -> peakStep smoothed (m, p) a = (v, a).
Proof.
  intros Ha Hlt. unfold peakStep. rewrite Ha. cbn.
  destruct (Rlt_dec m v); [reflexivity | contradiction].
Qed.

Lemma peakStep_keep (a : nat) (m v : R) (p : nat) :
  smoothed !! a = Some v -> ~ m < v -> peakStep smoothed (m, p) a = (m, p).
Proof.
  intros Ha Hge. unfold peakStep. rewrite Ha. cbn.
  destruct (Rlt_dec m v); [contradiction | reflexivity].
Qed.

Lemma peakStep_undefined (a : nat) (s : R * nat) :
  smoothed !! a = None -> peakStep smoothed s a = s.
Proof. intros Ha. unfold peakStep. now rewrite Ha. Qed.

(** The loop invariant of the scan over the indices [a, a + n). *)
Lemma peakScan_invariant (n a : nat) (m : R) (p : nat) :
  let r := fold_left (peakStep smoothed) (seq a n) (m, p) in
  (forall j v, (a <= j < a + n)%nat -> smoothed !! j = Some v -> v <= fst r) /\
  ((r = (m, p)) \/
   ((a <= snd r < a + n)%nat /\ smoothed !! snd r = Some (fst r) /\ m < fst r /\
    forall j v, (a <= j < snd r)%nat -> smoothed !! j = Some v -> v < fst r)).
Proof.
  revert a m p. induction n as [|n IH]; intros a m p; cbn zeta.
  - simpl. split; [intros; lia | now left].
  - cbn [seq fold_left].
    destruct (smoothed !! a) as [v|] eqn:Ha.
    + destruct (Rlt_dec m v) as [Hlt|Hge].
      * rewrite (peakStep_take a m v p Ha Hlt).
        specialize (IH (S a) v a). cbn zeta in IH.
        destruct IH as [Hall Hcase].
        remember (fold_left (peakStep smoothed) (seq (S a) n) (v, a)) as r eqn:Er.
        assert (Hv : v <= fst r).
        { destruct Hcase as [-> | (_ & _ & Hlt' & _)]; cbn; lra. }
        split.
        { intros j w Hj Hw. destruct (decide (j = a)) as [->|Hne].
          - rewrite Ha in Hw. injection Hw as <-. exact Hv.
          - apply (Hall j w); [lia | exact Hw]. }
        right. destruct Hcase as [Heq | (Hr & Hs & Hlt' & Hfirst)].
        { rewrite Heq. cbn. repeat split; try lia; try assumption. }
        repeat split; try lia; try assumption; try lra.
        intros j w Hj Hw. destruct (decide (j = a)) as [->|Hne].
        { rewrite Ha in Hw. injection Hw as <-. lra. }
        apply (Hfirst j w); [lia | exact Hw].
      * rewrite (peakStep_keep a m v p Ha Hge).
        specialize (IH (S a) m p). cbn zeta in IH.
        destruct IH as [Hall Hcase].
        remember (fold_left (peakStep smoothed) (seq (S a) n) (m, p)) as r eqn:Er.
        assert (Hm : m <= fst r).
        { destruct Hcase as [-> | (_ & _ & Hlt' & _)]; cbn; lra. }
        split.
        { intros j w Hj Hw. destruct (decide (j = a)) as [->|Hne].
          - rewrite Ha in Hw. injection Hw as <-. lra.
          - apply (Hall j w); [lia | exact Hw]. }
        destruct Hcase as [Heq | (Hr & Hs & Hlt' & Hfirst)]; [now left | right].
        repeat split; try lia; try assumption.
        intros j w Hj Hw. destruct (decide (j = a)) as [->|Hne].
        { rewrite Ha in Hw. injection Hw as <-. lra. }
        apply (Hfirst j w); [lia | exact Hw].
    + rewrite (peakStep_undefined a (m, p) Ha).
      specialize (IH (S a) m p). cbn zeta in IH.
      destruct IH as [Hall Hcase].
      remember (fold_left (peakStep smoothed) (seq (S a) n) (m, p)) as r eqn:Er.
      split.
      { intros j w Hj Hw. destruct (decide (j = a)) as [->|Hne].
        - rewrite Ha in Hw. discriminate.
        - apply (Hall j w); [lia | exact Hw]. }
      destruct Hcase as [Heq | (Hr & Hs & Hlt' & Hfirst)]; [now left | right].
      repeat split; try lia; try assumption.
      intros j w Hj Hw. destruct (decide (j = a)) as [->|Hne].
      { rewrite Ha in Hw. discriminate. }
      apply (Hfirst j w); [lia | exact Hw].
Qed.

(** A spectrum with no bin at index 5 or beyond is never scanned. *)
Lemma findPeak_short : (length smoothed <= 5)%nat -> findPeak smoothed = 0%nat.
Proof.
  intros Hlen. unfold findPeak, startIndex.
  replace (length smoothed - 5)%nat with 0%nat by lia. reflexivity.
Qed.

(** C5. The detected peak is the left-most index, from 5 on, at which
    the smoothed spectrum attains its maximum over the indices from 5 on,
    provided that maximum is positive; it is the sentinel 0 when the
    spectrum has no bin at index 5 or beyond, and when no value at such
    an index is positive. *)
Theorem findPeak_leftmost_maximum :
  ((length smoothed <= 5)%nat -> findPeak smoothed = 0%nat) /\
  ((forall j v, (5 <= j)%nat -> smoothed !! j = Some v -> v <= 0) ->
   findPeak smoothed = 0%nat) /\
  (forall j v, (5 <= j)%nat -> smoothed !! j = Some v -> 0 < v ->
   exists m, (5 <= findPeak smoothed)%nat /\
     smoothed !! findPeak smoothed = Some m /\ 0 < m /\
     (forall k w, (5 <= k)%nat -> smoothed !! k = Some w -> w <= m) /\
     (forall k w, (5 <= k < findPeak smoothed)%nat ->
                  smoothed !! k = Some w -> w < m)).
Proof.
  unfold findPeak, startIndex.
  pose proof (peakScan_invariant (length smoothed - 5) 5 0 0%nat) as Hinv.
  cbn zeta in Hinv.
  remember (fold_left (peakStep smoothed) (seq 5 (length smoothed - 5)) (0, 0%nat)) as r eqn:Er.
  destruct Hinv as [Hall Hcase].
  assert (Hrange : forall k w, (5 <= k)%nat -> smoothed !! k = Some w ->
                               (5 <= k < 5 + (length smoothed - 5))%nat).
  { intros k w Hk Hw. apply lookup_lt_Some in Hw. lia. }
  split; [|split].
  - intros Hlen. destruct Hcase as [-> | (Hr & _)]; [reflexivity | lia].
  - intros Hnonpos. destruct Hcase as [-> | (Hr & Hs & Hlt & _)]; [reflexivity|].
    specialize (Hnonpos (snd r) (fst r) ltac:(lia) Hs). lra.
  - intros j v Hj Hv Hpos.
    destruct Hcase as [Heq | (Hr & Hs & Hlt & Hfirst)].
    + specialize (Hall j v (Hrange j v Hj Hv) Hv). rewrite Heq in Hall.
      cbn in Hall. lra.
    + exists (fst r). split; [lia|]. split; [exact Hs|]. split; [lra|]. split.
      * intros k w Hk Hw. apply (Hall k w); [apply (Hrange k w Hk Hw) | exact Hw].
      * intros k w Hk Hw. apply (Hfirst k w); [lia | exact Hw].
Qed.
End PeakFacts.

(** A tie between bins 6 and 7 goes to bin 6; bins 1 to 4 are not scanned. *)
Example peak_tie_break :
  findPeak [0; 9; 9; 9; 9; 1; 3; 3; 2]%R = 6%nat.
Proof.
  unfold findPeak, startIndex. cbn [length Nat.sub seq fold_left].
  rewrite (peakStep_take _ 5 0 1 0) by (reflexivity || lra).
  rewrite (peakStep_take _ 6 1 3 5) by (reflexivity || lra).
  rewrite (peakStep_keep _ 7 3 3 6) by (reflexivity || lra).
  rewrite (peakStep_keep _ 8 3 2 6) by (reflexivity || lra).
  reflexivity.
Qed.

(** ** Gaussian smoothing *)

Section SmoothingFacts.
Local Open Scope R_scope.

Lemma length_zrange (lo hi : Z) : length (zrange lo hi) = Z.to_nat (hi - lo + 1).
Proof. unfold zrange. now rewrite length_map, length_seq. Qed.

Lemma zrange_lookup (lo hi : Z) (k : nat) :
  (k < Z.to_nat (hi - lo + 1))%nat -> zrange lo hi !! k = Some (lo + Z.of_nat k)%Z.
Proof.
  intros Hk. unfold zrange. rewrite list_lookup_fmap.
  rewrite lookup_seq_lt by exact Hk. reflexivity.
Qed.

Lemma elem_of_zrange (lo hi z : Z) : z ∈ zrange lo hi <-> (lo <= z <= hi)%Z.
Proof.
  unfold zrange. rewrite list_elem_of_fmap. split.
  - intros (k & -> & Hk). apply elem_of_seq in Hk. lia.
  - intros Hz. exists (Z.to_nat (z - lo)). split; [lia|].
    apply elem_of_seq. lia.
Qed.

(** The output has one element per input element. *)
Lemma smoothing_length (data : list R) (sigma : R) (kernelSize : Z) :
  length (applyGaussianSmoothing data sigma kernelSize) = length data.
Proof.
  unfold applyGaussianSmoothing. rewrite length_map, length_zrange. lia.
Qed.

Lemma rsum_from (l : list R) (a : R) : fold_left Rplus l a = a + rsum l.
Proof.
  unfold rsum. revert a. induction l as [|x l IH]; intros a; cbn.
  - lra.
  - rewrite (IH (a + x)), (IH (0 + x)). lra.
Qed.

Lemma rsum_cons (x : R) (l : list R) : rsum (x :: l) = x + rsum l.
Proof. unfold rsum at 1. cbn. rewrite rsum_from. lra. Qed.

Lemma rsum_nil : rsum [] = 0.
Proof. reflexivity. Qed.

Lemma jsGet_replicate (n : nat) (c : R) (z : Z) :
  (0 <= z < Z.of_nat n)%Z -> jsGet (replicate n c) z = Some c.
Proof.
  intros Hz. unfold jsGet.
  destruct (Z.ltb_spec z 0) as [Hneg|_]; [lia|].
  apply lookup_replicate_2. lia.
Qed.

(** On a constant array the convolution loop accumulates the constant
    times the weights that fall inside the array. *)
Lemma conv_constant_fold (n : nat) (c : R) (kernel : list R) (radius i : Z)
    (js : list Z) (v : R) :
  fold_left (convTerm (replicate n c) kernel radius i) js v
  = v + c * rsum (map (weightAt n kernel radius i) js).
Proof.
  revert v. induction js as [|j js IH]; intros v.
  - cbn [fold_left map]. rewrite rsum_nil. lra.
  - cbn [fold_left map]. rewrite IH, rsum_cons.
    unfold convTerm, weightAt. rewrite length_replicate.
    destruct ((0 <=? i + j) && (i + j <? Z.of_nat n))%Z eqn:Hin.
    + apply andb_prop in Hin as [H0 Hn].
      apply Z.leb_le in H0. apply Z.ltb_lt in Hn.
      rewrite jsGet_replicate by lia.
      destruct (jsGet kernel (j + radius)); cbn; lra.
    + lra.
Qed.

Section SevenTaps.
Variables k0 k1 k2 k3 k4 k5 k6 : R.
Let kernel := [k0; k1; k2; k3; k4; k5; k6].
Let taps := [-3; -2; -1; 0; 1; 2; 3]%Z.

Lemma weights_interior (n : nat) (i : Z) :
  (3 <= i)%Z -> (i + 3 < Z.of_nat n)%Z ->
  rsum (map (weightAt n kernel 3 i) taps) = k0 + k1 + k2 + k3 + k4 + k5 + k6.
Proof.
  intros Hlo Hhi. unfold taps, weightAt. cbn [map].
  repeat match goal with
  | |- context [((0 <=? ?a) && (?a <? ?b))%Z] =>
      replace ((0 <=? a) && (a <? b))%Z with true
        by (symmetry; apply andb_true_intro; split;
            [apply Z.leb_le | apply Z.ltb_lt]; lia)
  end.
  rewrite !rsum_cons, rsum_nil.
  change (default 0 (jsGet kernel (-3 + 3))) with k0.
  change (default 0 (jsGet kernel (-2 + 3))) with k1.
  change (default 0 (jsGet kernel (-1 + 3))) with k2.
  change (default 0 (jsGet kernel (0 + 3))) with k3.
  change (default 0 (jsGet kernel (1 + 3))) with k4.
  change (default 0 (jsGet kernel (2 + 3))) with k5.
  change (default 0 (jsGet kernel (3 + 3))) with k6.
  lra.
Qed.

Lemma weight_bounds (n : nat) (i j : Z) (k : R) :
  0 < k -> default 0 (jsGet kernel (j + 3)) = k ->
  0 <= weightAt n kernel 3 i j <= k.
Proof.
  intros Hk Hget. unfold weightAt. rewrite Hget.
  destruct ((0 <=? i + j) && (i + j <? Z.of_nat n))%Z; lra.
Qed.

Lemma weight_inside (n : nat) (i j : Z) :
  (0 <= i + j < Z.of_nat n)%Z ->
  weightAt n kernel 3 i j = default 0 (jsGet kernel (j + 3)).
Proof.
  intros Hin. unfold weightAt.
  replace ((0 <=? i + j) && (i + j <? Z.of_nat n))%Z with true; [reflexivity|].
  symmetry; apply andb_true_intro; split; [apply Z.leb_le | apply Z.ltb_lt]; lia.
Qed.

Lemma weight_outside (n : nat) (i j : Z) :
  (i + j < 0 \/ Z.of_nat n <= i + j)%Z -> weightAt n kernel 3 i j = 0.
Proof.
  intros Hout. unfold weightAt.
  destruct (Z.leb_spec 0 (i + j)), (Z.ltb_spec (i + j) (Z.of_nat n));
    cbn; try reflexivity; lia.
Qed.

Hypothesis positive :
  0 < k0 /\ 0 < k1 /\ 0 < k2 /\ 0 < k3 /\ 0 < k4 /\ 0 < k5 /\ 0 < k6.

(** Near either end at least one tap is dropped and the centre tap is
    kept, so the accumulated weight lies strictly between 0 and the
    full kernel sum. *)
Lemma weights_boundary (n : nat) (i : Z) :
  (0 <= i < Z.of_nat n)%Z -> (i < 3 \/ Z.of_nat n <= i + 3)%Z ->
  0 < rsum (map (weightAt n kernel 3 i) taps)
    < k0 + k1 + k2 + k3 + k4 + k5 + k6.
Proof.
  intros Hi Hedge. destruct positive as (P0 & P1 & P2 & P3 & P4 & P5 & P6).
  unfold taps. cbn [map]. rewrite !rsum_cons, rsum_nil.
  pose proof (weight_bounds n i (-3) k0 P0 eq_refl) as B0.
  pose proof (weight_bounds n i (-2) k1 P1 eq_refl) as B1.
  pose proof (weight_bounds n i (-1) k2 P2 eq_refl) as B2.
  pose proof (weight_inside n i 0 ltac:(lia)) as B3.
  change (default 0 (jsGet kernel (0 + 3))) with k3 in B3.
  pose proof (weight_bounds n i 1 k4 P4 eq_refl) as B4.
  pose proof (weight_bounds n i 2 k5 P5 eq_refl) as B5.
  pose proof (weight_bounds n i 3 k6 P6 eq_refl) as B6.
  destruct Hedge as [Hleft | Hright].
  - pose proof (weight_outside n i (-3) ltac:(lia)) as Z0. lra.
  - pose proof (weight_outside n i 3 ltac:(lia)) as Z6. lra.
Qed.
End SevenTaps.
End SmoothingFacts.

Section DefaultKernel.
Local Open Scope R_scope.

Lemma zrange_taps : zrange (-3) 3 = [-3; -2; -1; 0; 1; 2; 3]%Z.
Proof. reflexivity. Qed.

Lemma gaussValue_pos (sigma : R) (i : Z) : 0 < gaussValue sigma i.
Proof. unfold gaussValue. apply exp_pos. Qed.

Let g (j : Z) : R := gaussValue 2 j.
Let total : R := rsum (rawKernel 2 3).

Lemma rawKernel_taps :
  rawKernel 2 3 = [g (-3); g (-2); g (-1); g 0; g 1; g 2; g 3].
Proof. reflexivity. Qed.

Lemma total_unfold :
  total = g (-3) + g (-2) + g (-1) + g 0 + g 1 + g 2 + g 3.
Proof.
  unfold total. rewrite rawKernel_taps.
  rewrite !rsum_cons, rsum_nil. lra.
Qed.

Lemma total_pos : 0 < total.
Proof.
  rewrite total_unfold. unfold g.
  pose proof (gaussValue_pos 2 (-3)). pose proof (gaussValue_pos 2 (-2)).
  pose proof (gaussValue_pos 2 (-1)). pose proof (gaussValue_pos 2 0).
  pose proof (gaussValue_pos 2 1). pose proof (gaussValue_pos 2 2).
  pose proof (gaussValue_pos 2 3). lra.
Qed.

Lemma gaussKernel_taps :
  gaussKernel 2 3 =
  [g (-3) / total; g (-2) / total; g (-1) / total; g 0 / total;
   g 1 / total; g 2 / total; g 3 / total].
Proof.
  unfold gaussKernel. fold total. rewrite rawKernel_taps. reflexivity.
Qed.

Lemma tap_pos (j : Z) : 0 < g j / total.
Proof. apply Rdiv_lt_0_compat; [apply gaussValue_pos | apply total_pos]. Qed.

(** The normalised weights add up to one. *)
Lemma taps_sum_one :
  g (-3) / total + g (-2) / total + g (-1) / total + g 0 / total +
  g 1 / total + g 2 / total + g 3 / total = 1.
Proof.
  pose proof total_pos as Hpos. pose proof total_unfold as Hsum.
  assert (Hne : total <> 0) by lra.
  replace (g (-3) / total + g (-2) / total + g (-1) / total + g 0 / total +
           g 1 / total + g 2 / total + g 3 / total)
    with ((g (-3) + g (-2) + g (-1) + g 0 + g 1 + g 2 + g 3) / total)
    by (field; exact Hne).
  rewrite <- Hsum. field. exact Hne.
Qed.

Lemma insideWeight_interior (n : nat) (i : Z) :
  (3 <= i)%Z -> (i + 3 < Z.of_nat n)%Z -> insideWeight n i = 1.
Proof.
  intros Hlo Hhi. unfold insideWeight.
  rewrite gaussKernel_taps, zrange_taps.
  rewrite weights_interior by assumption. apply taps_sum_one.
Qed.

Lemma insideWeight_boundary (n : nat) (i : Z) :
  (0 <= i < Z.of_nat n)%Z -> (i < 3 \/ Z.of_nat n <= i + 3)%Z ->
  0 < insideWeight n i < 1.
Proof.
  intros Hi Hedge. unfold insideWeight.
  rewrite gaussKernel_taps, zrange_taps. rewrite <- taps_sum_one.
  apply weights_boundary; [|exact Hi|exact Hedge].
  repeat split; apply tap_pos.
Qed.

(** Every output element over a constant array, boundary or not. *)
Lemma smoothing_constant_lookup (n : nat) (c : R) (i : nat) :
  (i < n)%nat ->
  applyGaussianSmoothing (replicate n c) 2 7 !! i
  = Some (c * insideWeight n (Z.of_nat i)).
Proof.
  intros Hi. unfold applyGaussianSmoothing.
  change (kernelRadius 7) with 3%Z.
  rewrite list_lookup_fmap, length_replicate.
  rewrite zrange_lookup by lia. cbn [fmap option_fmap option_map].
  f_equal. unfold convAt. rewrite conv_constant_fold.
  unfold insideWeight. rewrite Z.add_0_l.
  change (zrange (- (3)) 3) with (zrange (-3) 3). lra.
Qed.
End DefaultKernel.

(** C2, as the code behaves.  The smoother keeps the length of any input.
    On a constant array of value [c] every element at distance at least 3
    from both ends is [c] again, while an element closer to an end is [c]
    times the part of the kernel that lies inside the array, a factor
    strictly between 0 and 1: the kernel is not renormalised there. *)
Theorem smoothing_length_and_constants :
  (forall (data : list R) (sigma : R) (kernelSize : Z),
      length (applyGaussianSmoothing data sigma kernelSize) = length data) /\
  (forall (n : nat) (c : R) (i : nat),
      (3 <= i)%nat -> (i + 3 < n)%nat ->
      applyGaussianSmoothing (replicate n c) 2 7 !! i = Some c) /\
  (forall (n : nat) (c : R) (i : nat),
      (i < n)%nat -> (i < 3 \/ n <= i + 3)%nat ->
      applyGaussianSmoothing (replicate n c) 2 7 !! i
        = Some (c * insideWeight n (Z.of_nat i))%R /\
      (0 < insideWeight n (Z.of_nat i) < 1)%R).
Proof.
  split; [exact smoothing_length|]. split.
  - intros n c i Hlo Hhi.
    rewrite smoothing_constant_lookup by lia.
    rewrite insideWeight_interior by lia. f_equal. lra.
  - intros n c i Hi Hedge. split.
    + apply smoothing_constant_lookup. exact Hi.
    + apply insideWeight_boundary; lia.
Qed.

(** C2 as stated fails on the one-element array [[1]]: its only element is
    a boundary element and comes out as the centre weight of the kernel. *)
Lemma smoothing_constant_counterexample :
  applyGaussianSmoothing [1%R] 2 7 <> [1%R].
Proof.
  intros Heq.
  pose proof (smoothing_constant_lookup 1 1%R 0 ltac:(lia)) as Hlook.
  change (replicate 1 1%R) with [1%R] in Hlook.
  rewrite Heq in Hlook. cbn in Hlook. injection Hlook as Hw.
  pose proof (insideWeight_boundary 1 0 ltac:(lia) ltac:(lia)) as Hb.
  change (Z.of_nat 0) with 0%Z in Hw. lra.
Qed.

(** ** Spectrum aggregation and the pipeline around it *)

Section AggregationFacts.
Local Open Scope Z_scope.

Lemma length_derivatives (l : list R) : length (derivatives l) = (length l - 1)%nat.
Proof.
  induction l as [|a [|b t] IH]; [reflexivity | reflexivity |].
  cbn [derivatives length] in *. rewrite IH. lia.
Qed.

Lemma length_lineData (img : ImageData) (x : Z) :
  length (lineData img x) = Z.to_nat (height img).
Proof. unfold lineData. rewrite length_map, length_zrange. lia. Qed.

Lemma length_fft (xs : list R) : length (fft xs) = length xs.
Proof. unfold fft. now rewrite length_map, length_seq. Qed.

(** Every sampled line yields [height - 1] magnitudes. *)
Lemma length_magnitudes (img : ImageData) (x : Z) :
  length (magnitudes (analyseLine img x)) = (Z.to_nat (height img) - 1)%nat.
Proof.
  unfold analyseLine. cbn [magnitudes].
  now rewrite length_map, length_fft, length_derivatives, length_lineData.
Qed.

Lemma maxLengthOf_lines (img : ImageData) (lines : list Z) :
  lines <> [] ->
  maxLengthOf (lineMagnitudes img lines) = Z.of_nat (Z.to_nat (height img) - 1).
Proof.
  unfold maxLengthOf, lineMagnitudes.
  induction lines as [|x [|y rest] IH]; intros Hne; [congruence | |].
  - cbn [map fold_right]. rewrite length_magnitudes. lia.
  - cbn [map fold_right] in *. rewrite !length_magnitudes.
    rewrite length_magnitudes in IH. rewrite IH by discriminate. lia.
Qed.

Lemma maxLengthOf_nil (img : ImageData) : maxLengthOf (lineMagnitudes img []) = 0.
Proof. reflexivity. Qed.

Lemma length_combineMagnitudes (allMagnitudes : list (list R)) (n : Z) :
  length (combineMagnitudes allMagnitudes n) = Z.to_nat n.
Proof. unfold combineMagnitudes. now rewrite length_map, length_seq. Qed.

Lemma map_magnitudes_analyse (img : ImageData) (lines : list Z) :
  map magnitudes (map (analyseLine img) lines) = lineMagnitudes img lines.
Proof. unfold lineMagnitudes. now rewrite map_map. Qed.

(** The two early returns of [performFFT] and its main path. *)
Lemma performFFTOn_aborts (lines : list Z) (img : ImageData) (st : HookState) :
  lines = [] \/ height img <= 1 ->
  performFFTOn lines img st
  = setProcessing false (setSelectedLines lines (setProcessing true st)).
Proof.
  intros Hcase. unfold performFFTOn. cbv zeta.
  rewrite map_magnitudes_analyse.
  destruct lines as [|x rest]; [reflexivity|].
  destruct Hcase as [Hnil | Hh]; [discriminate|].
  replace (length (lineMagnitudes img (x :: rest)) =? 0)%nat with false
    by (symmetry; apply Nat.eqb_neq; cbn; lia).
  rewrite maxLengthOf_lines by discriminate.
  replace (Z.of_nat (Z.to_nat (height img) - 1) =? 0) with true
    by (symmetry; apply Z.eqb_eq; lia).
  reflexivity.
Qed.

Lemma performFFTOn_analyses (lines : list Z) (img : ImageData) (st : HookState) :
  lines <> [] -> 2 <= height img ->
  let st1 := setSelectedLines lines (setProcessing true st) in
  let combined := combinedOf img lines in
  let smoothed := applyGaussianSmoothing combined 2 7 in
  let peak := Z.of_nat (findPeak smoothed) in
  let st2 := setAnalysis peak (map (analyseLine img) lines) combined smoothed st1 in
  performFFTOn lines img st
  = if 0 <? peak then generatePixelSamples peak (Some img) st2 else st2.
Proof.
  intros Hne Hh. unfold performFFTOn. cbv zeta.
  rewrite map_magnitudes_analyse.
  change (combineMagnitudes (lineMagnitudes img lines)
            (safeMaxFreqOf (maxLengthOf (lineMagnitudes img lines)) (height img)))
    with (combinedOf img lines).
  replace (length (lineMagnitudes img lines) =? 0)%nat with false
    by (symmetry; apply Nat.eqb_neq; unfold lineMagnitudes;
        rewrite length_map; destruct lines; [congruence | cbn; lia]).
  rewrite maxLengthOf_lines by exact Hne.
  replace (Z.of_nat (Z.to_nat (height img) - 1) =? 0) with false
    by (symmetry; apply Z.eqb_neq; lia).
  reflexivity.
Qed.

Lemma combinedOf_length (img : ImageData) (lines : list Z) :
  Z.of_nat (length (combinedOf img lines))
  = safeMaxFreqOf (maxLengthOf (lineMagnitudes img lines)) (height img).
Proof.
  unfold combinedOf. cbv zeta.
  rewrite length_combineMagnitudes.
  unfold safeMaxFreqOf, maxFreqOf. lia.
Qed.

Lemma generatePixelSamples_frequency (f : Z) (imgDataParam : option ImageData)
    (st : HookState) :
  dominantFrequency (generatePixelSamples f imgDataParam st) = dominantFrequency st.
Proof.
  unfold generatePixelSamples.
  destruct (orState imgDataParam st); [|reflexivity].
  destruct (f <=? 0); reflexivity.
Qed.
End AggregationFacts.

(** ** Random line selection *)

Section LineSelectionFacts.
Local Open Scope Z_scope.
Variable random : nat -> Q.
Variable imgWidth : Z.

Lemma drawColumn_range (n : nat) :
  unitSource random -> 0 < imgWidth -> 0 <= drawColumn random n imgWidth < imgWidth.
Proof.
  intros Hunit Hw. destruct (Hunit n) as [Hlo Hhi]. unfold drawColumn.
  assert (Hwq : (0 < inject_Z imgWidth)%Q) by (rewrite <- (Zlt_Qlt 0); exact Hw).
  split.
  - change 0 with (Qfloor 0). apply Qfloor_resp_le.
    apply Qmult_le_0_compat; [exact Hlo | apply Qlt_le_weak; exact Hwq].
  - rewrite Zlt_Qlt.
    apply Qle_lt_trans with (random n * inject_Z imgWidth)%Q; [apply Qfloor_le|].
    rewrite <- (Qmult_1_l (inject_Z imgWidth)) at 2.
    apply Qmult_lt_compat_r; assumption.
Qed.

Lemma linesInvariant_init : 0 <= imgWidth -> linesInvariant imgWidth [] ∅.
Proof.
  intros Hw. split; [|split; [|split]].
  - reflexivity.
  - constructor.
  - intros x Hx. inversion Hx.
  - unfold lineTarget. cbn. lia.
Qed.

Lemma loop_condition (lines : list Z) :
  (Z.of_nat (length lines) <? 30) && (Z.of_nat (length lines) <? imgWidth) = true
  <-> Z.of_nat (length lines) < lineTarget imgWidth.
Proof.
  unfold lineTarget. rewrite andb_true_iff, !Z.ltb_lt. lia.
Qed.

Lemma linesInvariant_push (lines : list Z) (used : gset Z) (x : Z) :
  linesInvariant imgWidth lines used ->
  Z.of_nat (length lines) < lineTarget imgWidth ->
  0 <= x < imgWidth -> x ∉ used ->
  linesInvariant imgWidth (lines ++ [x]) ({[x]} ∪ used).
Proof.
  intros (Hused & Hnodup & Hrange & Hlen) Hcond Hx Hfresh. subst used.
  rewrite elem_of_list_to_set in Hfresh.
  split; [|split; [|split]].
  - rewrite list_to_set_app_L. cbn.
    rewrite (right_id_L ∅ (∪)). apply (comm_L (∪)).
  - apply NoDup_app. split; [exact Hnodup|]. split; [|apply NoDup_singleton].
    intros y Hy Hy'. apply list_elem_of_singleton in Hy'. subst y. contradiction.
  - intros y Hy. apply elem_of_app in Hy as [Hin | Hin]; [apply (Hrange _ Hin) | ].
    apply list_elem_of_singleton in Hin. subst. lia.
  - rewrite length_app. cbn. lia.
Qed.

Lemma selectLines_unfold (fuel n : nat) (lines : list Z) (used : gset Z) :
  selectLines (S fuel) random n imgWidth lines used
  = if (Z.of_nat (length lines) <? 30) && (Z.of_nat (length lines) <? imgWidth)
    then if decide (drawColumn random n imgWidth ∈ used)
         then selectLines fuel random (S n) imgWidth lines used
         else selectLines fuel random (S n) imgWidth
                (lines ++ [drawColumn random n imgWidth])
                ({[drawColumn random n imgWidth]} ∪ used)
    else Some lines.
Proof. reflexivity. Qed.

Lemma selectLines_done (fuel n : nat) (lines : list Z) (used : gset Z) :
  ~ Z.of_nat (length lines) < lineTarget imgWidth ->
  selectLines fuel random n imgWidth lines used = Some lines.
Proof.
  intros Hdone. rewrite <- loop_condition in Hdone.
  apply not_true_is_false in Hdone.
  destruct fuel; [cbn | rewrite selectLines_unfold]; now rewrite Hdone.
Qed.

Lemma selectLines_out_of_fuel (n : nat) (lines : list Z) (used : gset Z) :
  Z.of_nat (length lines) < lineTarget imgWidth ->
  selectLines 0 random n imgWidth lines used = None.
Proof. intros Hcond. apply loop_condition in Hcond. cbn. now rewrite Hcond. Qed.

(** Partial correctness: whatever the loop returns is a list of
    [min(30, width)] distinct columns. *)
Lemma selectLines_sound (fuel n : nat) (lines : list Z) (used : gset Z)
    (result : list Z) :
  unitSource random -> 0 < imgWidth ->
  linesInvariant imgWidth lines used ->
  selectLines fuel random n imgWidth lines used = Some result ->
  Z.of_nat (length result) = lineTarget imgWidth /\ NoDup result /\
  (forall x, x ∈ result -> 0 <= x < imgWidth).
Proof.
  intros Hunit Hw. revert n lines used.
  induction fuel as [|fuel IH]; intros n lines used Hinv Hrun;
    destruct (Z_lt_dec (Z.of_nat (length lines)) (lineTarget imgWidth)) as [Hcond|Hdone].
  - rewrite selectLines_out_of_fuel in Hrun by exact Hcond. discriminate.
  - rewrite selectLines_done in Hrun by exact Hdone. injection Hrun as <-.
    destruct Hinv as (_ & Hnodup & Hrange & Hlen).
    split; [lia|]. split; [exact Hnodup | exact Hrange].
  - rewrite selectLines_unfold in Hrun.
    rewrite (proj2 (loop_condition lines) Hcond) in Hrun.
    destruct (decide (drawColumn random n imgWidth ∈ used)) as [Hin | Hfresh].
    + apply (IH _ _ _ Hinv Hrun).
    + apply (IH _ _ _ (linesInvariant_push _ _ _ Hinv Hcond
                         (drawColumn_range n Hunit Hw) Hfresh) Hrun).
  - rewrite selectLines_done in Hrun by exact Hdone. injection Hrun as <-.
    destruct Hinv as (_ & Hnodup & Hrange & Hlen).
    split; [lia|]. split; [exact Hnodup | exact Hrange].
Qed.

Lemma zrange_NoDup (lo hi : Z) : NoDup (zrange lo hi).
Proof.
  unfold zrange. apply NoDup_fmap_2; [|apply NoDup_seq].
  intros a b Hab. lia.
Qed.

(** While fewer than [width] columns are chosen, some column is free. *)
Lemma free_column (lines : list Z) (used : gset Z) :
  linesInvariant imgWidth lines used ->
  Z.of_nat (length lines) < lineTarget imgWidth ->
  exists c, 0 <= c < imgWidth /\ c ∉ used.
Proof.
  intros (Hused & Hnodup & Hrange & _) Hcond. subst used.
  destruct (decide (Forall (fun c => c ∈ lines) (zrange 0 (imgWidth - 1))))
    as [Hall | Hsome].
  - exfalso.
    rewrite Forall_forall in Hall.
    pose proof (submseteq_length _ _
                  (NoDup_submseteq _ _ (zrange_NoDup 0 (imgWidth - 1)) Hall)) as Hlen.
    rewrite length_zrange in Hlen. unfold lineTarget in Hcond. lia.
  - apply not_Forall_Exists in Hsome; [|intros c; apply _].
    apply Exists_exists in Hsome as (c & Hc & Hfree).
    exists c. split.
    + apply elem_of_zrange in Hc. lia.
    + rewrite elem_of_list_to_set. exact Hfree.
Qed.

(** Once a free column is drawn at some later call, the loop pushes a
    new line after finitely many iterations. *)
Lemma selectLines_progress (d n : nat) (lines : list Z) (used : gset Z) :
  unitSource random -> 0 < imgWidth ->
  Z.of_nat (length lines) < lineTarget imgWidth ->
  drawColumn random (n + d) imgWidth ∉ used ->
  exists steps, exists n', exists x,
    0 <= x < imgWidth /\ (x ∉ used) /\
    forall fuel,
      selectLines (steps + fuel) random n imgWidth lines used
      = selectLines fuel random n' imgWidth (lines ++ [x]) ({[x]} ∪ used).
Proof.
  intros Hunit Hw Hcond. revert n.
  induction d as [|d IH]; intros n Hfresh.
  - rewrite Nat.add_0_r in Hfresh.
    exists 1%nat, (S n), (drawColumn random n imgWidth).
    split; [apply drawColumn_range; assumption|]. split; [exact Hfresh|].
    intros fuel. cbn [Nat.add]. rewrite selectLines_unfold.
    rewrite (proj2 (loop_condition lines) Hcond).
    destruct (decide (drawColumn random n imgWidth ∈ used)); [contradiction | reflexivity].
  - destruct (decide (drawColumn random n imgWidth ∈ used)) as [Hin | Hnow].
    + replace (n + S d)%nat with (S n + d)%nat in Hfresh by lia.
      destruct (IH (S n) Hfresh) as (steps & n' & x & Hx & Hxfresh & Hrun).
      exists (S steps), n', x. split; [exact Hx|]. split; [exact Hxfresh|].
      intros fuel. cbn [Nat.add]. rewrite selectLines_unfold.
      rewrite (proj2 (loop_condition lines) Hcond).
      destruct (decide (drawColumn random n imgWidth ∈ used)); [apply Hrun | contradiction].
    + exists 1%nat, (S n), (drawColumn random n imgWidth).
      split; [apply drawColumn_range; assumption|]. split; [exact Hnow|].
      intros fuel. cbn [Nat.add]. rewrite selectLines_unfold.
      rewrite (proj2 (loop_condition lines) Hcond).
      destruct (decide (drawColumn random n imgWidth ∈ used)); [contradiction | reflexivity].
Qed.

(** With a fair source the loop terminates from every loop head. *)
Lemma selectLines_terminates (k n : nat) (lines : list Z) (used : gset Z) :
  unitSource random -> 0 < imgWidth -> fairSource random imgWidth ->
  linesInvariant imgWidth lines used ->
  lineTarget imgWidth - Z.of_nat (length lines) <= Z.of_nat k ->
  exists fuel result, selectLines fuel random n imgWidth lines used = Some result.
Proof.
  intros Hunit Hw Hfair. revert n lines used.
  induction k as [|k IH]; intros n lines used Hinv Hk.
  - exists 0%nat, lines. apply selectLines_done. lia.
  - destruct (Z_lt_dec (Z.of_nat (length lines)) (lineTarget imgWidth)) as [Hcond|Hdone].
    + destruct (free_column lines used Hinv Hcond) as (c & Hc & Hfree).
      destruct (Hfair n c Hc) as (m & Hm & Hdraw).
      assert (Hlater : drawColumn random (n + (m - n)) imgWidth ∉ used).
      { replace (n + (m - n))%nat with m by lia. rewrite Hdraw. exact Hfree. }
      destruct (selectLines_progress (m - n) n lines used Hunit Hw Hcond Hlater)
        as (steps & n' & x & Hx & Hxfresh & Hrun).
      destruct (IH n' (lines ++ [x]) ({[x]} ∪ used)
                   (linesInvariant_push _ _ _ Hinv Hcond Hx Hxfresh))
        as (fuel & result & Hres).
      { rewrite length_app. cbn. lia. }
      exists (steps + fuel)%nat, result. rewrite Hrun. exact Hres.
    + exists 0%nat, lines. apply selectLines_done. exact Hdone.
Qed.
End LineSelectionFacts.




(** ** The pipeline around the peak *)

Section PipelineFacts.
Local Open Scope Z_scope.

Lemma generatePixelSamples_nonpositive (frequency : Z)
    (imgDataParam : option ImageData) (st : HookState) :
  frequency <= 0 -> generatePixelSamples frequency imgDataParam st = st.
Proof.
  intros Hf. unfold generatePixelSamples.
  destruct (orState imgDataParam st); [|reflexivity].
  now rewrite (proj2 (Z.leb_le frequency 0) Hf).
Qed.

Lemma generatePixelSamples_combined (f : Z) (imgDataParam : option ImageData)
    (st : HookState) :
  combinedFFT (generatePixelSamples f imgDataParam st) = combinedFFT st.
Proof.
  unfold generatePixelSamples.
  destruct (orState imgDataParam st); [|reflexivity].
  destruct (f <=? 0); reflexivity.
Qed.

(** The state [performFFT] leaves when the peak is the sentinel. *)
Lemma performFFTOn_no_peak (lines : list Z) (img : ImageData) (st : HookState) :
  lines <> [] -> 2 <= height img ->
  findPeak (applyGaussianSmoothing (combinedOf img lines) 2 7) = 0%nat ->
  performFFTOn lines img st
  = setAnalysis 0 (map (analyseLine img) lines) (combinedOf img lines)
      (applyGaussianSmoothing (combinedOf img lines) 2 7)
      (setSelectedLines lines (setProcessing true st)).
Proof.
  intros Hne Hh Hpeak.
  rewrite (performFFTOn_analyses lines img st Hne Hh). cbv zeta.
  rewrite Hpeak. reflexivity.
Qed.

Lemma performFFTOn_frequency (lines : list Z) (img : ImageData) (st : HookState) :
  lines <> [] -> 2 <= height img ->
  dominantFrequency (performFFTOn lines img st)
  = Some (Z.of_nat (findPeak (applyGaussianSmoothing (combinedOf img lines) 2 7))).
Proof.
  intros Hne Hh.
  rewrite (performFFTOn_analyses lines img st Hne Hh). cbv zeta.
  destruct (0 <? _); [rewrite generatePixelSamples_frequency|]; reflexivity.
Qed.

Lemma performFFTOn_combined (lines : list Z) (img : ImageData) (st : HookState) :
  lines <> [] -> 2 <= height img ->
  combinedFFT (performFFTOn lines img st) = combinedOf img lines.
Proof.
  intros Hne Hh.
  rewrite (performFFTOn_analyses lines img st Hne Hh). cbv zeta.
  destruct (0 <? _); [rewrite generatePixelSamples_combined|]; reflexivity.
Qed.

Lemma lines_cases (lines : list Z) (img : ImageData) :
  (lines = [] \/ height img <= 1) \/ (lines <> [] /\ 2 <= height img).
Proof.
  destruct lines; [left; now left|].
  destruct (Z_le_dec (height img) 1);
    [left; now right | right; split; [discriminate | lia]].
Qed.

(** On a low image the smoothed spectrum has no bin at index 5. *)
Lemma low_image_spectrum (lines : list Z) (img : ImageData) :
  height img / 2 <= 5 ->
  (length (applyGaussianSmoothing (combinedOf img lines) 2 7) <= 5)%nat.
Proof.
  intros Hlow. rewrite smoothing_length.
  pose proof (combinedOf_length img lines) as Hlen.
  unfold safeMaxFreqOf, maxFreqOf in Hlen. lia.
Qed.
End PipelineFacts.

(** C4. When at least one sampled line has a non-empty magnitude array,
    the combined spectrum that [performFFT] stores has length
    [min(max(1, min(maxLength, floor(height / 2))), 10000)], and that
    length lies between 1 and [min(maxLength, floor(height / 2))]. *)
Theorem combined_spectrum_length (lines : list Z) (img : ImageData) (st : HookState) :
  (exists x, x ∈ lines /\ magnitudes (analyseLine img x) <> []) ->
  let maxLength := maxLengthOf (lineMagnitudes img lines) in
  let len := Z.of_nat (length (combinedFFT (performFFTOn lines img st))) in
  len = Z.min (Z.max 1 (Z.min maxLength (height img / 2))) 10000 /\
  1 <= len <= Z.min maxLength (height img / 2).
Proof.
  intros (x & Hx & Hmag). cbv zeta.
  assert (Hne : lines <> []) by (intros ->; inversion Hx).
  assert (Hh : 2 <= height img).
  { destruct (magnitudes (analyseLine img x)) as [|v rest] eqn:Hm; [congruence|].
    pose proof (length_magnitudes img x) as Hlen. rewrite Hm in Hlen.
    cbn [length] in Hlen. lia. }
  rewrite (performFFTOn_combined lines img st Hne Hh), combinedOf_length.
  rewrite (maxLengthOf_lines img lines Hne).
  unfold safeMaxFreqOf, maxFreqOf. split; [reflexivity|].
  assert (1 <= height img / 2) by (apply Z.div_le_lower_bound; lia). lia.
Qed.

(** A two-row, one-column image sampled at its only column. *)
Lemma combined_spectrum_length_witness :
  let img := mkImageData 1 2 [mkRGBA 0 0 0 255; mkRGBA 255 255 255 255] in
  let st := mkHookState None [] [] [] [] false None [] in
  (exists x, x ∈ [0] /\ magnitudes (analyseLine img x) <> []) /\
  (let maxLength := maxLengthOf (lineMagnitudes img [0]) in
   let len := Z.of_nat (length (combinedFFT (performFFTOn [0] img st))) in
   len = Z.min (Z.max 1 (Z.min maxLength (height img / 2))) 10000 /\
   1 <= len <= Z.min maxLength (height img / 2)).
Proof.
  cbv zeta.
  assert (Hsome : exists x, x ∈ [0] /\
            magnitudes (analyseLine
              (mkImageData 1 2 [mkRGBA 0 0 0 255; mkRGBA 255 255 255 255]) x) <> []).
  { exists 0. split; [apply list_elem_of_here|].
    intros Hnil. apply (f_equal length) in Hnil.
    rewrite length_magnitudes in Hnil. discriminate. }
  split; [exact Hsome|].
  apply (combined_spectrum_length [0]
           (mkImageData 1 2 [mkRGBA 0 0 0 255; mkRGBA 255 255 255 255])
           (mkHookState None [] [] [] [] false None []) Hsome).
Defined.

(** C9. With a frequency of 0 or less [generatePixelSamples] returns at
    once and leaves the state, hence the samples, as they were; and
    [performFFT] does not enter it when the peak is the sentinel 0: the
    state it leaves is the analysis result with the samples untouched. *)
Theorem sentinel_peak_skips_grid_stage :
  (forall frequency imgDataParam st,
      frequency <= 0 -> generatePixelSamples frequency imgDataParam st = st) /\
  (forall lines img st,
      lines <> [] -> 2 <= height img ->
      findPeak (applyGaussianSmoothing (combinedOf img lines) 2 7) = 0%nat ->
      performFFTOn lines img st
      = setAnalysis 0 (map (analyseLine img) lines) (combinedOf img lines)
          (applyGaussianSmoothing (combinedOf img lines) 2 7)
          (setSelectedLines lines (setProcessing true st))) /\
  (forall lines img st,
      dominantFrequency (performFFTOn lines img st) = Some 0 ->
      pixelSamples (performFFTOn lines img st) = pixelSamples st).
Proof.
  split; [exact generatePixelSamples_nonpositive|].
  split; [exact performFFTOn_no_peak|].
  intros lines img st Hzero.
  destruct (lines_cases lines img) as [Habort | [Hne Hh]].
  - rewrite (performFFTOn_aborts lines img st Habort). reflexivity.
  - rewrite (performFFTOn_frequency lines img st Hne Hh) in Hzero.
    injection Hzero as Hzero.
    rewrite (performFFTOn_no_peak lines img st Hne Hh) by lia. reflexivity.
Qed.




(** ** Grid sampling at pitch 1 *)

Section GridFacts.
Local Open Scope Z_scope.

(** [Math.floor(n + 0.5) = n] for an integer [n]. *)
Lemma Qfloor_half (n : Z) : Qfloor (inject_Z n + (1 # 2)) = n.
Proof.
  unfold Qfloor, Qplus, inject_Z. cbn [Qnum Qden].
  change (Z.pos (1 * 2)) with 2.
  replace (n * 2 + 1 * 1) with (1 + n * 2) by lia.
  rewrite Z.div_add by lia. reflexivity.
Qed.

(** The pitch is 1 when the frequency is the image height. *)
Lemma pixelSpacing_one (h : Z) : 1 <= h -> (pixelSpacingOf h h == 1)%Q.
Proof.
  intros Hh. unfold pixelSpacingOf, Qdiv. apply Qmult_inv_r.
  unfold Qeq, inject_Z. cbn [Qnum Qden]. lia.
Qed.

Lemma estimatedSize_one (d : Z) (ps : Q) : (ps == 1)%Q -> estimatedSize d ps = d.
Proof.
  intros Hps. unfold estimatedSize, jsRound.
  rewrite <- (Qfloor_half d) at 2. apply Qfloor_comp.
  rewrite Hps. unfold Qdiv. rewrite Qinv_1 || (change (/ 1)%Q with 1%Q).
  ring.
Qed.

Lemma cellCentre_one (g : Z) (ps : Q) : (ps == 1)%Q -> cellCentre g ps = g.
Proof.
  intros Hps. unfold cellCentre.
  rewrite <- (Qfloor_half g) at 2. apply Qfloor_comp.
  rewrite Hps. ring.
Qed.

Lemma sampleCell_one (img : ImageData) (ps : Q) (gridY gridX : Z) :
  (ps == 1)%Q -> gridX < width img -> gridY < height img ->
  sampleCell img ps gridY gridX = [mkSample gridX gridY (colourAt img gridX gridY)].
Proof.
  intros Hps Hx Hy. unfold sampleCell. cbv zeta.
  rewrite !(cellCentre_one _ ps Hps).
  rewrite (proj2 (Z.ltb_lt gridX (width img)) Hx).
  rewrite (proj2 (Z.ltb_lt gridY (height img)) Hy). reflexivity.
Qed.

Lemma flat_map_ext_elem {A B} (f g : A -> list B) (l : list A) :
  (forall a, a ∈ l -> f a = g a) -> flat_map f l = flat_map g l.
Proof.
  induction l as [|a l IH]; intros Hfg; [reflexivity|].
  cbn [flat_map]. rewrite (Hfg a) by apply list_elem_of_here.
  rewrite IH; [reflexivity|]. intros b Hb. apply Hfg. now apply list_elem_of_further.
Qed.

Lemma flat_map_singleton {A B} (f : A -> B) (l : list A) :
  flat_map (fun a => [f a]) l = map f l.
Proof. induction l as [|a l IH]; [reflexivity|]. cbn. now rewrite IH. Qed.

(** At pitch 1 the samples are all the source pixels, row by row. *)
Lemma sampleGrid_one (img : ImageData) (ps : Q) :
  (ps == 1)%Q ->
  sampleGrid img ps (width img) (height img)
  = flat_map (fun y => map (fun x => mkSample x y (colourAt img x y))
                           (zrange 0 (width img - 1)))
             (zrange 0 (height img - 1)).
Proof.
  intros Hps. unfold sampleGrid.
  apply flat_map_ext_elem. intros y Hy. apply elem_of_zrange in Hy.
  rewrite <- flat_map_singleton.
  apply flat_map_ext_elem. intros x Hx. apply elem_of_zrange in Hx.
  apply sampleCell_one; [exact Hps | lia | lia].
Qed.

(** Rows of equal length laid out one after the other. *)
Lemma rows_lookup_from {A} (row : nat -> list A) (W n s i j : nat) :
  (forall k, length (row k) = W) -> (i < n)%nat -> (j < W)%nat ->
  flat_map row (seq s n) !! (i * W + j)%nat = row (s + i)%nat !! j.
Proof.
  intros Hlen. revert s i. induction n as [|n IH]; intros s i Hi Hj; [lia|].
  cbn [seq flat_map]. destruct i as [|i].
  - rewrite Nat.add_0_r. cbn [Nat.mul Nat.add].
    apply lookup_app_l. rewrite Hlen. exact Hj.
  - rewrite lookup_app_r by (rewrite Hlen; nia).
    rewrite Hlen. replace (S i * W + j - W)%nat with (i * W + j)%nat by nia.
    rewrite IH by lia. replace (S s + i)%nat with (s + S i)%nat by lia. reflexivity.
Qed.

Lemma rows_length_from {A} (row : nat -> list A) (W n s : nat) :
  (forall k, length (row k) = W) -> length (flat_map row (seq s n)) = (n * W)%nat.
Proof.
  intros Hlen. revert s. induction n as [|n IH]; intros s; [reflexivity|].
  cbn [seq flat_map]. rewrite length_app, Hlen, IH. cbn. lia.
Qed.

Lemma flat_map_zrange {A} (row : Z -> list A) (lo hi : Z) :
  flat_map row (zrange lo hi)
  = flat_map (fun k => row (lo + Z.of_nat k)) (seq 0 (Z.to_nat (hi - lo + 1))).
Proof.
  unfold zrange. generalize (seq 0 (Z.to_nat (hi - lo + 1))) as l.
  induction l as [|k l IH]; [reflexivity|]. cbn. now rewrite IH.
Qed.

Lemma rows_lookup {A} (row : Z -> list A) (W H x y : Z) :
  (forall k, Z.of_nat (length (row k)) = W) -> 0 <= x < W -> 0 <= y < H ->
  jsGet (flat_map row (zrange 0 (H - 1))) (y * W + x) = jsGet (row y) x.
Proof.
  intros Hlen Hx Hy. unfold jsGet.
  destruct (Z.ltb_spec (y * W + x) 0) as [Hneg|_]; [nia|].
  destruct (Z.ltb_spec x 0) as [Hneg|_]; [lia|].
  rewrite flat_map_zrange.
  replace (Z.to_nat (y * W + x)) with (Z.to_nat y * Z.to_nat W + Z.to_nat x)%nat by nia.
  rewrite (rows_lookup_from _ (Z.to_nat W)).
  - f_equal. f_equal. lia.
  - intros k. specialize (Hlen (0 + Z.of_nat k)). lia.
  - lia.
  - lia.
Qed.

Lemma rows_length {A} (row : Z -> list A) (W H : Z) :
  (forall k, Z.of_nat (length (row k)) = W) -> 0 <= H ->
  Z.of_nat (length (flat_map row (zrange 0 (H - 1)))) = H * W.
Proof.
  intros Hlen HH. rewrite flat_map_zrange.
  rewrite (rows_length_from _ (Z.to_nat W)).
  - assert (0 <= W) by (specialize (Hlen 0); lia). nia.
  - intros k. specialize (Hlen (0 + Z.of_nat k)). lia.
Qed.
End GridFacts.

Section ReconstructionFacts.
Local Open Scope Z_scope.

(** Two buffers of a [W] by [H] grid that agree at every cell are equal. *)
Lemma grid_ext {A} (l1 l2 : list A) (W H : Z) :
  1 <= W -> 0 <= H ->
  Z.of_nat (length l1) = H * W -> Z.of_nat (length l2) = H * W ->
  (forall x y, 0 <= x < W -> 0 <= y < H ->
               jsGet l1 (y * W + x) = jsGet l2 (y * W + x)) ->
  l1 = l2.
Proof.
  intros HW HH Hl1 Hl2 Hcells. apply list_eq. intros i.
  destruct (decide (Z.of_nat i < H * W)) as [Hi | Hi].
  - pose proof (Z.div_mod (Z.of_nat i) W ltac:(lia)) as Hdm.
    pose proof (Z.mod_pos_bound (Z.of_nat i) W ltac:(lia)) as Hmod.
    assert (Hdiv : 0 <= Z.of_nat i / W < H).
    { split; [apply Z.div_pos; lia | apply Z.div_lt_upper_bound; lia]. }
    specialize (Hcells (Z.of_nat i mod W) (Z.of_nat i / W) Hmod Hdiv).
    replace (Z.of_nat i / W * W + Z.of_nat i mod W) with (Z.of_nat i) in Hcells by lia.
    unfold jsGet in Hcells.
    destruct (Z.ltb_spec (Z.of_nat i) 0) as [Hneg|_]; [lia|].
    now rewrite Nat2Z.id in Hcells.
  - rewrite !lookup_ge_None_2 by lia. reflexivity.
Qed.

Lemma jsGet_map {A B} (f : A -> B) (l : list A) (i : Z) :
  jsGet (map f l) i = option_map f (jsGet l i).
Proof.
  unfold jsGet. destruct (i <? 0); [reflexivity|]. apply list_lookup_fmap.
Qed.

Lemma jsGet_zrange (W x : Z) : 0 <= x < W -> jsGet (zrange 0 (W - 1)) x = Some x.
Proof.
  intros Hx. unfold jsGet.
  destruct (Z.ltb_spec x 0) as [Hneg|_]; [lia|].
  rewrite zrange_lookup by lia. f_equal. lia.
Qed.

(** Inside a well-formed image every read is defined. *)
Lemma pixelAt_defined (img : ImageData) (x y : Z) :
  wfImage img -> 0 <= x < width img -> 0 <= y < height img ->
  pixelAt (data img) (width img) x y = Some (colourAt img x y).
Proof.
  intros (Hw & Hh & Hlen) Hx Hy. unfold colourAt, pixelAt, jsGet.
  destruct (Z.ltb_spec (y * width img + x) 0) as [Hneg|_]; [nia|].
  destruct (data img !! Z.to_nat (y * width img + x)) as [p|] eqn:Hp; [reflexivity|].
  apply lookup_ge_None_1 in Hp. nia.
Qed.

(** What the canvas holds after the samples of pitch 1 are drawn. *)
Lemma drawSamples_one (img : ImageData) :
  wfImage img -> 1 <= width img -> 1 <= height img ->
  drawSamples
    (flat_map (fun y => map (fun x => mkSample x y (colourAt img x y))
                            (zrange 0 (width img - 1)))
              (zrange 0 (height img - 1)))
    (width img) (height img)
  = data img.
Proof.
  intros Hwf Hw Hh. pose proof Hwf as (_ & _ & Hlen).
  set (sampleRow := fun y => map (fun x => mkSample x y (colourAt img x y))
                                 (zrange 0 (width img - 1))).
  assert (HsampleRow : forall k, Z.of_nat (length (sampleRow k)) = width img).
  { intros k. unfold sampleRow. rewrite length_map, length_zrange. lia. }
  unfold drawSamples.
  set (canvasRow := fun gridY =>
         map (canvasCell (flat_map sampleRow (zrange 0 (height img - 1)))
                         (width img) gridY)
             (zrange 0 (width img - 1))).
  assert (HcanvasRow : forall k, Z.of_nat (length (canvasRow k)) = width img).
  { intros k. unfold canvasRow. rewrite length_map, length_zrange. lia. }
  apply (grid_ext _ _ (width img) (height img)); try lia.
  - apply rows_length; [exact HcanvasRow | lia].
  - intros x y Hx Hy.
    rewrite (rows_lookup canvasRow (width img) (height img) x y HcanvasRow Hx Hy).
    unfold canvasRow. rewrite jsGet_map, (jsGet_zrange _ _ Hx). cbn [option_map].
    unfold canvasCell.
    rewrite (rows_lookup sampleRow (width img) (height img) x y HsampleRow Hx Hy).
    unfold sampleRow. rewrite jsGet_map, (jsGet_zrange _ _ Hx). cbn [option_map scolor].
    symmetry. apply (pixelAt_defined img x y Hwf Hx Hy).
Qed.
End ReconstructionFacts.



(** ** Colour histogram *)

Section HistogramFacts.
Local Open Scope Z_scope.

Lemma countColors_snoc (data : list RGBA) (p : RGBA) :
  countColors (data ++ [p]) = countPixel (countColors data) p.
Proof. unfold countColors. now rewrite fold_left_app. Qed.

Lemma visiblePixels_snoc (data : list RGBA) (p : RGBA) :
  visiblePixels (data ++ [p])
  = if decide (alpha p <> 0) then visiblePixels data ++ [p] else visiblePixels data.
Proof.
  unfold visiblePixels. rewrite filter_app. cbn [filter list_filter].
  destruct (decide (alpha p <> 0)); [reflexivity | apply app_nil_r].
Qed.

Lemma countByKey_skip (data : list RGBA) (p : RGBA) (key : string) :
  alpha p = 0 -> countByKey (data ++ [p]) key = countByKey data key.
Proof.
  intros Ha. unfold countByKey. rewrite visiblePixels_snoc.
  destruct (decide (alpha p <> 0)); [contradiction | reflexivity].
Qed.

Lemma countByKey_snoc (data : list RGBA) (p : RGBA) (key : string) :
  alpha p <> 0 ->
  countByKey (data ++ [p]) key
  = countByKey data key + (if decide (colorKeyOf p = key) then 1 else 0).
Proof.
  intros Ha. unfold countByKey. rewrite visiblePixels_snoc.
  destruct (decide (alpha p <> 0)); [|contradiction].
  rewrite filter_app, length_app. cbn [filter list_filter].
  destruct (decide (colorKeyOf p = key)); cbn [length]; lia.
Qed.

Lemma countByKey_nonneg (data : list RGBA) (key : string) : 0 <= countByKey data key.
Proof. unfold countByKey. lia. Qed.

Lemma hasKey_true (key : string) (acc : list ColorCount) :
  hasKey key acc = true <-> exists e, e ∈ acc /\ color e = key.
Proof.
  unfold hasKey. rewrite existsb_exists. split.
  - intros (e & He & Heq). exists e. split; [now apply list_elem_of_In|].
    now apply String.eqb_eq.
  - intros (e & He & Heq). exists e. split; [now apply list_elem_of_In|].
    now apply String.eqb_eq.
Qed.

Lemma bump_color (key : string) (e : ColorCount) : color (bump key e) = color e.
Proof. unfold bump. destruct (String.eqb (color e) key); reflexivity. Qed.

Lemma bump_count (key : string) (e : ColorCount) :
  count (bump key e) = count e + (if decide (color e = key) then 1 else 0).
Proof.
  unfold bump. destruct (String.eqb_spec (color e) key) as [Heq | Hne];
    destruct (decide (color e = key)); try contradiction; cbn [count]; lia.
Qed.

Lemma map_color_bump (key : string) (acc : list ColorCount) :
  map color (map (bump key) acc) = map color acc.
Proof.
  rewrite map_map. apply map_ext. intros e. apply bump_color.
Qed.

(** Incrementing the entry of a key that occurs once adds one in total. *)
Lemma totalCount_bump (key : string) (acc : list ColorCount) :
  NoDup (map color acc) -> (exists e, e ∈ acc /\ color e = key) ->
  totalCount (map (bump key) acc) = totalCount acc + 1.
Proof.
  induction acc as [|e acc IH]; intros Hnd (e' & He' & Hkey).
  - inversion He'.
  - cbn [map totalCount fold_right] in *. fold (totalCount acc).
    fold (totalCount (map (bump key) acc)).
    apply NoDup_cons in Hnd as [Hfresh Hnd].
    rewrite bump_count. destruct (decide (color e = key)) as [Heq | Hne].
    + assert (Hsame : map (bump key) acc = acc).
      { rewrite <- (map_id acc) at 2. apply map_ext_in. intros a Ha.
        unfold bump. destruct (String.eqb_spec (color a) key) as [Ha' | ]; [|reflexivity].
        exfalso. apply Hfresh. rewrite Heq, <- Ha'.
        apply list_elem_of_fmap. exists a. split; [reflexivity|].
        now apply list_elem_of_In. }
      rewrite Hsame. lia.
    + apply elem_of_cons in He' as [-> | He']; [contradiction|].
      rewrite IH; [lia | exact Hnd | exists e'; now split].
Qed.

Lemma totalCount_snoc (acc : list ColorCount) (e : ColorCount) :
  totalCount (acc ++ [e]) = totalCount acc + count e.
Proof.
  induction acc as [|a acc IH]; cbn [app totalCount fold_right] in *.
  - lia.
  - fold (totalCount (acc ++ [e])). fold (totalCount acc). lia.
Qed.

Lemma countColors_invariant (data : list RGBA) :
  histogramInvariant data (countColors data).
Proof.
  induction data as [|p data IH] using rev_ind.
  - split; [constructor|]. split; [intros e He; inversion He|].
    split; [intros p Hp; inversion Hp | reflexivity].
  - destruct IH as (Hnd & Hcount & Hcover & Htotal).
    rewrite countColors_snoc. unfold countPixel.
    destruct (Z.eqb_spec (alpha p) 0) as [Hzero | Hvis].
    + split; [exact Hnd|]. split; [|split].
      * intros e He. rewrite countByKey_skip by exact Hzero. apply Hcount, He.
      * intros q Hq Hqa. apply elem_of_app in Hq as [Hq | Hq]; [apply Hcover; assumption|].
        apply list_elem_of_singleton in Hq. subst q. contradiction.
      * rewrite visiblePixels_snoc.
        destruct (decide (alpha p <> 0)); [contradiction | exact Htotal].
    + cbv zeta. destruct (hasKey (colorKeyOf p) (countColors data)) eqn:Hhas.
      * apply hasKey_true in Hhas.
        split; [now rewrite map_color_bump|]. split; [|split].
        -- intros e He. apply list_elem_of_fmap in He as (e0 & -> & He0).
           rewrite bump_color, bump_count, countByKey_snoc by exact Hvis.
           destruct (Hcount e0 He0) as [Hc Hpos].
           destruct (decide (color e0 = colorKeyOf p)) as [Heq|Hne];
             destruct (decide (colorKeyOf p = color e0)); try congruence; lia.
        -- intros q Hq Hqa. apply elem_of_app in Hq as [Hq | Hq].
           ++ destruct (Hcover q Hq Hqa) as (e & He & Hk).
              exists (bump (colorKeyOf p) e). split; [|now rewrite bump_color].
              apply list_elem_of_fmap. now exists e.
           ++ apply list_elem_of_singleton in Hq. subst q.
              destruct Hhas as (e & He & Hk).
              exists (bump (colorKeyOf p) e). split; [|now rewrite bump_color].
              apply list_elem_of_fmap. now exists e.
        -- rewrite (totalCount_bump _ _ Hnd Hhas), visiblePixels_snoc.
           destruct (decide (alpha p <> 0)); [|contradiction].
           rewrite length_app. cbn [length]. lia.
      * assert (Hfresh : forall e, e ∈ countColors data -> color e <> colorKeyOf p).
        { intros e He Heq. assert (hasKey (colorKeyOf p) (countColors data) = true)
            by (apply hasKey_true; now exists e). congruence. }
        assert (Hnone : countByKey data (colorKeyOf p) = 0).
        { unfold countByKey.
          destruct (filter (fun q => colorKeyOf q = colorKeyOf p) (visiblePixels data))
            as [|q rest] eqn:Hf; [reflexivity|].
          exfalso. assert (Hq : q ∈ filter (fun q => colorKeyOf q = colorKeyOf p)
                                    (visiblePixels data))
            by (rewrite Hf; apply list_elem_of_here).
          apply list_elem_of_filter in Hq as [Hkey Hq].
          unfold visiblePixels in Hq. apply list_elem_of_filter in Hq as [Hqa Hq].
          destruct (Hcover q Hq Hqa) as (e & He & Hk).
          apply (Hfresh e He). congruence. }
        split; [|split; [|split]].
        -- rewrite map_app. cbn [map color]. apply NoDup_app.
           split; [exact Hnd|]. split; [|apply NoDup_singleton].
           intros k Hk Hk'. apply list_elem_of_singleton in Hk'. subst k.
           apply list_elem_of_fmap in Hk as (e & Hke & He).
           apply (Hfresh e He). congruence.
        -- intros e He. rewrite countByKey_snoc by exact Hvis.
           apply elem_of_app in He as [He | He].
           ++ destruct (Hcount e He) as [Hc Hpos].
              destruct (decide (colorKeyOf p = color e)) as [Heq|_];
                [exfalso; apply (Hfresh e He); congruence | lia].
           ++ apply list_elem_of_singleton in He. subst e. cbn [color count].
              rewrite Hnone.
              destruct (decide (colorKeyOf p = colorKeyOf p)); [lia | congruence].
        -- intros q Hq Hqa. apply elem_of_app in Hq as [Hq | Hq].
           ++ destruct (Hcover q Hq Hqa) as (e & He & Hk).
              exists e. split; [apply elem_of_app; now left | exact Hk].
           ++ apply list_elem_of_singleton in Hq. subst q.
              exists (mkColorCount (colorKeyOf p) 1 p).
              split; [apply elem_of_app; right; apply list_elem_of_here | reflexivity].
        -- rewrite totalCount_snoc, visiblePixels_snoc. cbn [count].
           destruct (decide (alpha p <> 0)); [|contradiction].
           rewrite length_app. cbn [length]. lia.
Qed.
End HistogramFacts.

Section HistogramOrder.
Local Open Scope Z_scope.

Lemma insertByCount_perm (e : ColorCount) (l : list ColorCount) :
  insertByCount e l ≡ₚ e :: l.
Proof.
  induction l as [|h t IH]; [reflexivity|]. cbn [insertByCount].
  destruct (count h <=? count e); [reflexivity|].
  rewrite IH. apply Permutation_swap.
Qed.

(** Sorting only reorders the entries. *)
Lemma sortByCount_perm (l : list ColorCount) : sortByCount l ≡ₚ l.
Proof.
  induction l as [|e l IH]; [reflexivity|]. cbn [sortByCount fold_right].
  fold (sortByCount l). now rewrite insertByCount_perm, IH.
Qed.

Lemma totalCount_perm (l k : list ColorCount) : l ≡ₚ k -> totalCount l = totalCount k.
Proof.
  induction 1 as [|x l k _ IH|x y l|l k m _ IH1 _ IH2];
    cbn [totalCount fold_right] in *; try fold (totalCount l); try fold (totalCount k); lia.
Qed.

Lemma append_inj_length (a a' b b' : string) :
  String.length a = String.length a' ->
  String.append a b = String.append a' b' -> a = a' /\ b = b'.
Proof.
  revert a'. induction a as [|c a IH]; intros [|c' a'] Hlen Heq;
    cbn in Hlen; try discriminate.
  - now split.
  - cbn in Heq. injection Heq as -> Heq. injection Hlen as Hlen.
    destruct (IH a' Hlen Heq) as [-> ->]. now split.
Qed.

Lemma hex2_checked :
  forallb (fun a =>
             (String.length (hex2 a) =? 2)%nat &&
             forallb (fun b => implb (String.eqb (hex2 a) (hex2 b)) (a =? b)) byteValues)
          byteValues = true.
Proof. vm_compute. reflexivity. Qed.

Lemma hex2_length (a : Z) : isByte a -> String.length (hex2 a) = 2%nat.
Proof.
  intros Ha. pose proof hex2_checked as Hall. rewrite forallb_forall in Hall.
  specialize (Hall a). apply andb_prop in Hall as [Hlen _].
  - now apply Nat.eqb_eq.
  - apply list_elem_of_In, elem_of_zrange. unfold isByte in Ha. lia.
Qed.

(** Two bytes with the same two-digit hex form are equal. *)
Lemma hex2_inj (a b : Z) : isByte a -> isByte b -> hex2 a = hex2 b -> a = b.
Proof.
  intros Ha Hb Heq. pose proof hex2_checked as Hall. rewrite forallb_forall in Hall.
  specialize (Hall a). apply andb_prop in Hall as [_ Hinj].
  - rewrite forallb_forall in Hinj. specialize (Hinj b).
    rewrite Heq, String.eqb_refl in Hinj. cbn [implb] in Hinj.
    apply Z.eqb_eq, Hinj. apply list_elem_of_In, elem_of_zrange. unfold isByte in Hb. lia.
  - apply list_elem_of_In, elem_of_zrange. unfold isByte in Ha. lia.
Qed.

(** The key is the 24-bit RGB value: it ignores alpha and separates any
    two different RGB triples. *)
Lemma colorKeyOf_sameRGB (p q : RGBA) :
  bytePixel p -> bytePixel q -> (colorKeyOf p = colorKeyOf q <-> sameRGB p q).
Proof.
  intros (Hr & Hg & Hb & _) (Hr' & Hg' & Hb' & _). unfold colorKeyOf, sameRGB. split.
  - intros Heq. injection Heq as Heq.
    apply append_inj_length in Heq as [Hred Heq];
      [|now rewrite !hex2_length].
    apply append_inj_length in Heq as [Hgreen Hblue];
      [|now rewrite !hex2_length].
    repeat split; apply hex2_inj; assumption.
  - intros (-> & -> & ->). reflexivity.
Qed.
End HistogramOrder.

(** C6. The histogram counts exactly the pixels whose alpha is not 0:
    the counts add up to the number of those pixels, the entries have
    pairwise different keys, every such pixel has an entry under its key,
    the count of an entry is the number of such pixels with that key, and
    the key of a pixel is its RGB value, alpha left out. *)
Theorem histogram_counts_visible_pixels (pixelArtData : ImageData) :
  let hist := generateColorHistogram pixelArtData in
  totalCount hist = Z.of_nat (length (visiblePixels (data pixelArtData))) /\
  NoDup (map color hist) /\
  (forall p, p ∈ data pixelArtData -> alpha p <> 0 ->
             exists e, e ∈ hist /\ color e = colorKeyOf p) /\
  (forall e, e ∈ hist ->
             count e = countByKey (data pixelArtData) (color e) /\ 1 <= count e) /\
  (forall p q, bytePixel p -> bytePixel q ->
               (colorKeyOf p = colorKeyOf q <-> sameRGB p q)).
Proof.
  cbv zeta. unfold generateColorHistogram.
  pose proof (sortByCount_perm (countColors (data pixelArtData))) as Hperm.
  destruct (countColors_invariant (data pixelArtData)) as (Hnd & Hcount & Hcover & Htotal).
  split; [|split; [|split; [|split]]].
  - now rewrite (totalCount_perm _ _ Hperm).
  - now rewrite Hperm.
  - intros p Hp Ha. destruct (Hcover p Hp Ha) as (e & He & Hk).
    exists e. split; [now rewrite Hperm | exact Hk].
  - intros e He. rewrite Hperm in He. apply Hcount, He.
  - exact colorKeyOf_sameRGB.
Qed.

(** ** Background matte *)

Section ArrayFacts.
Local Open Scope Z_scope.

Lemma jsGet_Some {A} (l : list A) (i : Z) (a : A) :
  jsGet l i = Some a -> 0 <= i < Z.of_nat (length l).
Proof.
  unfold jsGet. destruct (Z.ltb_spec i 0) as [|Hi]; [discriminate|].
  intros Hl. apply lookup_lt_Some in Hl. lia.
Qed.

Lemma jsGet_in_range {A} (l : list A) (i : Z) :
  0 <= i < Z.of_nat (length l) -> exists a, jsGet l i = Some a.
Proof.
  intros Hi. unfold jsGet. destruct (Z.ltb_spec i 0) as [|_]; [lia|].
  apply lookup_lt_is_Some_2. lia.
Qed.

Lemma length_jsSet {A} (l : list A) (i : Z) (a : A) : length (jsSet l i a) = length l.
Proof. unfold jsSet. destruct (i <? 0); [reflexivity | apply length_insert]. Qed.

Lemma jsGet_jsSet_same {A} (l : list A) (i : Z) (a : A) :
  0 <= i < Z.of_nat (length l) -> jsGet (jsSet l i a) i = Some a.
Proof.
  intros Hi. unfold jsGet, jsSet. destruct (Z.ltb_spec i 0) as [|_]; [lia|].
  apply list_lookup_insert_eq. lia.
Qed.

Lemma jsGet_jsSet_other {A} (l : list A) (i j : Z) (a : A) :
  i <> j -> jsGet (jsSet l i a) j = jsGet l j.
Proof.
  intros Hne. unfold jsGet, jsSet.
  destruct (Z.ltb_spec j 0) as [|Hj]; [reflexivity|].
  destruct (Z.ltb_spec i 0) as [|Hi]; [reflexivity|].
  apply list_lookup_insert_ne. lia.
Qed.

(** Marking an index leaves every other flag as it was. *)
Lemma isVisited_mark (visited : list bool) (i j : Z) :
  0 <= i < Z.of_nat (length visited) ->
  isVisited (jsSet visited i true) j = true <-> j = i \/ isVisited visited j = true.
Proof.
  intros Hi. unfold isVisited. destruct (decide (j = i)) as [-> | Hne].
  - rewrite jsGet_jsSet_same by exact Hi. split; [now left | reflexivity].
  - rewrite jsGet_jsSet_other by congruence. split; [now right | now intros [|]].
Qed.

Lemma isVisited_mark_mono (visited : list bool) (i j : Z) :
  isVisited visited j = true -> isVisited (jsSet visited i true) j = true.
Proof.
  intros Hj. unfold isVisited in *. destruct (decide (i = j)) as [-> | Hne].
  - destruct (jsGet visited j) as [b|] eqn:Hg; [|discriminate].
    apply jsGet_Some in Hg. now rewrite jsGet_jsSet_same.
  - now rewrite jsGet_jsSet_other.
Qed.

Lemma unvisited_mark (visited : list bool) (i : nat) :
  visited !! i = Some false ->
  (unvisited (<[i := true]> visited) + 1 = unvisited visited)%nat.
Proof.
  revert i. induction visited as [|b v IH]; intros i Hi; [discriminate|].
  destruct i as [|i].
  - cbn in Hi. injection Hi as ->.
    change (<[0%nat := true]> (false :: v)) with (true :: v).
    cbn [unvisited]. lia.
  - cbn in Hi. specialize (IH i Hi).
    change (<[S i := true]> (b :: v)) with (b :: <[i := true]> v).
    cbn [unvisited]. lia.
Qed.

Lemma unvisited_le (visited : list bool) : (unvisited visited <= length visited)%nat.
Proof.
  induction visited as [|b v IH]; [reflexivity|].
  cbn [unvisited length]. destruct b; lia.
Qed.
End ArrayFacts.

Section FloodFacts.
Local Open Scope Z_scope.
Variable img : ImageData.
Variable target : RGBA.
Hypothesis Hwf : wfImage img.

Lemma linearIndex_inj (x y x' y' : Z) :
  inBounds (width img) (height img) x y ->
  inBounds (width img) (height img) x' y' ->
  linearIndex (width img) x y = linearIndex (width img) x' y' ->
  x = x' /\ y = y'.
Proof.
  unfold inBounds, linearIndex. intros [Hx Hy] [Hx' Hy'] Heq.
  assert (y = y') by nia. subst y'. split; [lia | reflexivity].
Qed.

Lemma linearIndex_range (x y : Z) :
  inBounds (width img) (height img) x y ->
  0 <= linearIndex (width img) x y < width img * height img.
Proof. unfold inBounds, linearIndex. intros [Hx Hy]. nia. Qed.

(** The helper [isTargetColor] on the source buffer decides [matchesAt]. *)
Lemma isTargetColor_matches (x y : Z) :
  isTargetColor (data img) (width img) target x y = true <-> matchesAt img target x y.
Proof.
  unfold isTargetColor, matchesAt, withinTolerance.
  destruct (pixelAt (data img) (width img) x y) as [p|].
  - rewrite !andb_true_iff, !Z.leb_le. split.
    + intros [[Hr Hg] Hb]. exists p. auto.
    + intros (q & Hq & Hr & Hg & Hb). injection Hq as <-. auto.
  - split; [discriminate | intros (q & Hq & _); discriminate].
Qed.

(** Clearing alpha does not change what [isTargetColor] sees. *)
Lemma isTargetColor_stable (buffer : list RGBA) (x y : Z) :
  pixelAt buffer (width img) x y = pixelAt (data img) (width img) x y \/
  pixelAt buffer (width img) x y
    = option_map zeroAlpha (pixelAt (data img) (width img) x y) ->
  isTargetColor buffer (width img) target x y
  = isTargetColor (data img) (width img) target x y.
Proof.
  unfold isTargetColor. intros [-> | ->]; [reflexivity|].
  destruct (pixelAt (data img) (width img) x y); reflexivity.
Qed.

Lemma length_clearAlpha (buffer : list RGBA) (i : Z) :
  length (clearAlpha buffer i) = length buffer.
Proof.
  unfold clearAlpha. destruct (jsGet buffer i); [apply length_jsSet | reflexivity].
Qed.

Lemma pixelAt_clearAlpha_same (buffer : list RGBA) (x y : Z) :
  pixelAt (clearAlpha buffer (y * width img + x)) (width img) x y
  = option_map zeroAlpha (pixelAt buffer (width img) x y).
Proof.
  unfold pixelAt, clearAlpha.
  destruct (jsGet buffer (y * width img + x)) as [p|] eqn:Hp.
  - rewrite jsGet_jsSet_same by (apply (jsGet_Some _ _ _ Hp)). reflexivity.
  - rewrite Hp. reflexivity.
Qed.

Lemma pixelAt_clearAlpha_other (buffer : list RGBA) (i x y : Z) :
  i <> linearIndex (width img) x y ->
  pixelAt (clearAlpha buffer i) (width img) x y = pixelAt buffer (width img) x y.
Proof.
  unfold pixelAt, clearAlpha, linearIndex. intros Hne.
  destruct (jsGet buffer i); [now apply jsGet_jsSet_other | reflexivity].
Qed.

Lemma zeroAlpha_idem (q : option RGBA) :
  option_map zeroAlpha (option_map zeroAlpha q) = option_map zeroAlpha q.
Proof. destruct q; reflexivity. Qed.

(** A flag that reads [false] inside the array is stored as [false]. *)
Lemma unvisited_lookup (visited : list bool) (i : Z) :
  0 <= i < Z.of_nat (length visited) -> isVisited visited i = false ->
  visited !! Z.to_nat i = Some false.
Proof.
  intros Hi Hv. unfold isVisited, jsGet in Hv.
  destruct (Z.ltb_spec i 0) as [|_]; [lia|].
  destruct (visited !! Z.to_nat i) as [b|] eqn:Hb.
  - now subst b.
  - apply lookup_ge_None_1 in Hb. lia.
Qed.

Lemma fillMeasure_push (queue : list (Z * Z)) (visited : list bool) (p : Z * Z) (i : Z) :
  0 <= i < Z.of_nat (length visited) -> isVisited visited i = false ->
  fillMeasure (queue ++ [p]) (jsSet visited i true) = fillMeasure queue visited.
Proof.
  intros Hi Hv. unfold fillMeasure, jsSet.
  destruct (Z.ltb_spec i 0) as [|_]; [lia|].
  pose proof (unvisited_mark visited (Z.to_nat i) (unvisited_lookup visited i Hi Hv)).
  rewrite length_app. cbn [length]. lia.
Qed.

Lemma fillInvariant_weaken (exempt exempt' : Z * Z -> Z * Z -> Prop)
    (queue : list (Z * Z)) (visited : list bool) (buffer : list RGBA) :
  (forall p dir, dir ∈ directions -> exempt p dir -> exempt' p dir) ->
  fillInvariant img target exempt queue visited buffer ->
  fillInvariant img target exempt' queue visited buffer.
Proof.
  intros Hsub (Hlv & Hlb & Hrel & Hq & Hsound & Hseed & Hclosed & Hcleared & Hkeep).
  repeat (split; [assumption|]). split; [|split; assumption].
  intros x y Hin Hv. destruct (Hclosed x y Hin Hv) as [Hqueued | Hdirs]; [now left | right].
  intros dir Hdir. destruct (Hdirs dir Hdir) as [He | Hc]; [left; now apply Hsub | now right].
Qed.
End FloodFacts.

Section FloodStep.
Local Open Scope Z_scope.
Variable img : ImageData.
Variable target : RGBA.
Hypothesis Hwf : wfImage img.

Lemma adjacent_direction (x y : Z) (dir : Z * Z) :
  dir ∈ directions -> adjacent x y (x + fst dir) (y + snd dir).
Proof.
  unfold directions, adjacent. intros Hdir.
  repeat (apply elem_of_cons in Hdir as [-> | Hdir]; [cbn [fst snd]; lia|]).
  inversion Hdir.
Qed.

Lemma direction_of_adjacent (x y x' y' : Z) :
  adjacent x y x' y' ->
  exists dir, dir ∈ directions /\ x' = x + fst dir /\ y' = y + snd dir.
Proof.
  unfold adjacent, directions.
  intros [[-> ->] | [[-> ->] | [[-> ->] | [-> ->]]]].
  - exists (-1, 0). split; [rewrite !elem_of_cons; auto | cbn [fst snd]; lia].
  - exists (1, 0). split; [rewrite !elem_of_cons; auto | cbn [fst snd]; lia].
  - exists (0, -1). split; [rewrite !elem_of_cons; auto | cbn [fst snd]; lia].
  - exists (0, 1). split; [rewrite !elem_of_cons; auto | cbn [fst snd]; lia].
Qed.

Lemma closedAt_mono (visited visited' : list bool) (x y : Z) (dir : Z * Z) :
  (forall j, isVisited visited j = true -> isVisited visited' j = true) ->
  closedAt img target visited x y dir -> closedAt img target visited' x y dir.
Proof. unfold closedAt. intros Hmono Hc Hin Hm. apply Hmono, Hc; assumption. Qed.

(** A direction of the expanded pixel that is already closed can be
    struck off the exempt list. *)
Lemma fillInvariant_close (x0 y0 : Z) (done : list (Z * Z)) (dir : Z * Z)
    (queue : list (Z * Z)) (visited : list bool) (buffer : list RGBA) :
  closedAt img target visited x0 y0 dir ->
  fillInvariant img target (exemptAfter x0 y0 done) queue visited buffer ->
  fillInvariant img target (exemptAfter x0 y0 (dir :: done)) queue visited buffer.
Proof.
  intros Hdone (Hlv & Hlb & Hrel & Hq & Hsound & Hseed & Hclosed & Hcleared & Hkeep).
  repeat (split; [assumption|]). split; [|split; assumption].
  intros x y Hin Hv. destruct (Hclosed x y Hin Hv) as [Hqueued | Hdirs]; [now left | right].
  intros dir' Hdir'. destruct (Hdirs dir' Hdir') as [[Hp Hnd] | Hc]; [|now right].
  destruct (decide (dir' = dir)) as [-> | Hne].
  - right. injection Hp as -> ->. exact Hdone.
  - left. split; [exact Hp|]. apply not_elem_of_cons. now split.
Qed.

(** One iteration of the loop over the four directions. *)
Lemma visit_step (x0 y0 : Z) (buffer : list RGBA) (done : list (Z * Z))
    (queue : list (Z * Z)) (visited : list bool) (dir : Z * Z) :
  dir ∈ directions ->
  inBounds (width img) (height img) x0 y0 ->
  isVisited visited (linearIndex (width img) x0 y0) = true ->
  fillInvariant img target (exemptAfter x0 y0 done) queue visited buffer ->
  let s' := visitNeighbour buffer (width img) (height img) target x0 y0
                           (queue, visited) dir in
  fillInvariant img target (exemptAfter x0 y0 (dir :: done)) (fst s') (snd s') buffer /\
  isVisited (snd s') (linearIndex (width img) x0 y0) = true /\
  fillMeasure (fst s') (snd s') = fillMeasure queue visited.
Proof.
  intros Hdir Hin0 Hv0 Hinv. cbv zeta.
  pose proof Hinv as (Hlv & Hlb & Hrel & Hq & Hsound & Hseed & Hclosed & Hcleared & Hkeep).
  unfold visitNeighbour. cbn [fst snd].
  set (nx := x0 + fst dir). set (ny := y0 + snd dir).
  fold (linearIndex (width img) nx ny).
  destruct ((0 <=? nx) && (nx <? width img) && (0 <=? ny) && (ny <? height img))
    eqn:Hbounds.
  - assert (Hinn : inBounds (width img) (height img) nx ny).
    { rewrite !andb_true_iff, !Z.leb_le, !Z.ltb_lt in Hbounds. unfold inBounds. lia. }
    pose proof (linearIndex_range img nx ny Hinn) as Hrange.
    destruct (isVisited visited (linearIndex (width img) nx ny)) eqn:Hvn; cbn [negb andb].
    { cbn [fst snd]. split; [|split; [exact Hv0 | reflexivity]].
      apply fillInvariant_close; [|exact Hinv]. intros _ _. exact Hvn. }
    rewrite (isTargetColor_stable img target buffer nx ny (Hrel nx ny Hinn)).
    destruct (isTargetColor (data img) (width img) target nx ny) eqn:Ht.
    + cbn [fst snd].
      assert (Hm : matchesAt img target nx ny) by (now apply isTargetColor_matches).
      assert (Hmark : forall j,
                 isVisited (jsSet visited (linearIndex (width img) nx ny) true) j = true
                 <-> j = linearIndex (width img) nx ny \/ isVisited visited j = true).
      { intros j. apply isVisited_mark. lia. }
      assert (Hmono : forall j, isVisited visited j = true ->
                 isVisited (jsSet visited (linearIndex (width img) nx ny) true) j = true).
      { intros j Hj. apply Hmark. now right. }
      assert (Hnew : forall x y, inBounds (width img) (height img) x y ->
                 linearIndex (width img) x y = linearIndex (width img) nx ny ->
                 (x, y) = (nx, ny)).
      { intros x y Hin Heq.
        destruct (linearIndex_inj img x y nx ny Hin Hinn Heq) as [-> ->]. reflexivity. }
      split; [|split].
      * split; [rewrite length_jsSet; exact Hlv|].
        split; [exact Hlb|]. split; [exact Hrel|].
        split; [|split; [|split; [|split; [|split]]]].
        -- intros x y Hxy. apply elem_of_app in Hxy as [Hold | Hnow].
           ++ destruct (Hq x y Hold) as [Hin Hv]. split; [exact Hin | now apply Hmono].
           ++ apply list_elem_of_singleton in Hnow. injection Hnow as -> ->.
              split; [exact Hinn | apply Hmark; now left].
        -- intros x y Hin Hv. apply Hmark in Hv as [Heq | Hv]; [|now apply Hsound].
           injection (Hnew x y Hin Heq) as -> ->.
           apply (bc_step img target x0 y0 nx ny);
             [now apply Hsound | now apply adjacent_direction | exact Hinn | exact Hm].
        -- intros x y Hin Hb Hmatch. apply Hmono. now apply Hseed.
        -- intros x y Hin Hv. apply Hmark in Hv as [Heq | Hv].
           { left. rewrite (Hnew x y Hin Heq). apply elem_of_app. right.
             apply list_elem_of_here. }
           destruct (Hclosed x y Hin Hv) as [Hqueued | Hdirs];
             [left; apply elem_of_app; now left | right].
           intros dir' Hdir'. destruct (Hdirs dir' Hdir') as [[Hp Hnd] | Hc].
           ++ destruct (decide (dir' = dir)) as [-> | Hne].
              ** right. injection Hp as -> ->. intros _ _. apply Hmark. now left.
              ** left. split; [exact Hp|]. apply not_elem_of_cons. now split.
           ++ right. now apply (closedAt_mono visited).
        -- intros x y Hin Hv. apply Hmark in Hv as [Heq | Hv].
           { left. rewrite (Hnew x y Hin Heq). apply elem_of_app. right.
             apply list_elem_of_here. }
           destruct (Hcleared x y Hin Hv) as [Hqueued | Hz];
             [left; apply elem_of_app; now left | now right].
        -- intros x y Hin Hv. apply Hkeep; [exact Hin|].
           destruct (isVisited visited (linearIndex (width img) x y)) eqn:Hold;
             [|reflexivity].
           apply Hmono in Hold. congruence.
      * now apply Hmono.
      * apply fillMeasure_push; [lia | exact Hvn].
    + cbn [fst snd]. split; [|split; [exact Hv0 | reflexivity]].
      apply fillInvariant_close; [|exact Hinv]. intros _ Hmatch.
      apply isTargetColor_matches in Hmatch. fold nx ny in Hmatch. congruence.
  - cbn [fst snd]. split; [|split; [exact Hv0 | reflexivity]].
    apply fillInvariant_close; [|exact Hinv]. intros Hinb _. exfalso.
    fold nx ny in Hinb. unfold inBounds in Hinb.
    assert ((0 <=? nx) && (nx <? width img) && (0 <=? ny) && (ny <? height img) = true)
      by (rewrite !andb_true_iff, !Z.leb_le, !Z.ltb_lt; lia).
    congruence.
Qed.
End FloodStep.

Section FloodLoop.
Local Open Scope Z_scope.
Variable img : ImageData.
Variable target : RGBA.

(** The whole loop over the directions, from any list of directions
    still to do. *)
Lemma visit_fold (x0 y0 : Z) (buffer : list RGBA) (todo done : list (Z * Z))
    (queue : list (Z * Z)) (visited : list bool) :
  (forall dir, dir ∈ todo -> dir ∈ directions) ->
  inBounds (width img) (height img) x0 y0 ->
  isVisited visited (linearIndex (width img) x0 y0) = true ->
  fillInvariant img target (exemptAfter x0 y0 done) queue visited buffer ->
  let s' := fold_left (visitNeighbour buffer (width img) (height img) target x0 y0)
                      todo (queue, visited) in
  fillInvariant img target (exemptAfter x0 y0 (rev todo ++ done))
                (fst s') (snd s') buffer /\
  fillMeasure (fst s') (snd s') = fillMeasure queue visited.
Proof.
  revert done queue visited.
  induction todo as [|dir todo IH]; intros done queue visited Hdirs Hin0 Hv0 Hinv.
  - cbn. split; [exact Hinv | reflexivity].
  - cbn [fold_left rev]. rewrite <- app_assoc. cbn [app].
    destruct (visit_step img target x0 y0 buffer done queue visited dir
                (Hdirs dir (list_elem_of_here _ _)) Hin0 Hv0 Hinv)
      as (Hinv' & Hv0' & Hmeasure).
    destruct (visitNeighbour buffer (width img) (height img) target x0 y0
                             (queue, visited) dir) as [queue' visited'].
    cbn [fst snd] in *.
    destruct (IH (dir :: done) queue' visited'
                 (fun d Hd => Hdirs d (list_elem_of_further _ _ _ Hd)) Hin0 Hv0' Hinv')
      as [Hfinal Hm].
    split; [exact Hfinal | congruence].
Qed.

(** Taking a pixel off the queue and clearing its alpha. *)
Lemma dequeue_step (x0 y0 : Z) (rest : list (Z * Z)) (visited : list bool)
    (buffer : list RGBA) :
  fillInvariant img target noExempt ((x0, y0) :: rest) visited buffer ->
  inBounds (width img) (height img) x0 y0 /\
  isVisited visited (linearIndex (width img) x0 y0) = true /\
  fillInvariant img target (exemptAfter x0 y0 []) rest visited
                (clearAlpha buffer (y0 * width img + x0)).
Proof.
  intros (Hlv & Hlb & Hrel & Hq & Hsound & Hseed & Hclosed & Hcleared & Hkeep).
  destruct (Hq x0 y0 (list_elem_of_here _ _)) as [Hin0 Hv0].
  split; [exact Hin0|]. split; [exact Hv0|].
  assert (Hother : forall x y, inBounds (width img) (height img) x y ->
            (x, y) <> (x0, y0) ->
            pixelAt (clearAlpha buffer (y0 * width img + x0)) (width img) x y
            = pixelAt buffer (width img) x y).
  { intros x y Hin Hne. apply pixelAt_clearAlpha_other. intros Heq.
    apply Hne. symmetry in Heq.
    destruct (linearIndex_inj img x y x0 y0 Hin Hin0 Heq) as [-> ->]. reflexivity. }
  assert (Hhere : pixelAt (clearAlpha buffer (y0 * width img + x0)) (width img) x0 y0
                  = option_map zeroAlpha (pixelAt (data img) (width img) x0 y0)).
  { rewrite pixelAt_clearAlpha_same.
    destruct (Hrel x0 y0 Hin0) as [-> | ->]; [reflexivity | apply zeroAlpha_idem]. }
  split; [exact Hlv|]. split; [rewrite length_clearAlpha; exact Hlb|].
  split; [|split; [|split; [|split; [|split; [|split]]]]].
  - intros x y Hin. destruct (decide ((x, y) = (x0, y0))) as [Heq | Hne].
    + injection Heq as -> ->. right. exact Hhere.
    + rewrite (Hother x y Hin Hne). apply Hrel, Hin.
  - intros x y Hxy. apply Hq. now apply list_elem_of_further.
  - exact Hsound.
  - exact Hseed.
  - intros x y Hin Hv. destruct (decide ((x, y) = (x0, y0))) as [Heq | Hne].
    + right. intros dir Hdir. left. split; [exact Heq | apply not_elem_of_nil].
    + destruct (Hclosed x y Hin Hv) as [Hqueued | Hdirs].
      * left. apply elem_of_cons in Hqueued as [Heq | Hrest]; [contradiction | exact Hrest].
      * right. intros dir Hdir. destruct (Hdirs dir Hdir) as [[] | Hc]. now right.
  - intros x y Hin Hv. destruct (decide ((x, y) = (x0, y0))) as [Heq | Hne].
    + injection Heq as -> ->. right. exact Hhere.
    + rewrite (Hother x y Hin Hne). destruct (Hcleared x y Hin Hv) as [Hqueued | Hz].
      * left. apply elem_of_cons in Hqueued as [Heq | Hrest]; [contradiction | exact Hrest].
      * now right.
  - intros x y Hin Hv. destruct (decide ((x, y) = (x0, y0))) as [Heq | Hne].
    + injection Heq as -> ->. congruence.
    + rewrite (Hother x y Hin Hne). now apply Hkeep.
Qed.

Lemma floodLoop_unfold (fuel : nat) (x y : Z) (rest : list (Z * Z))
    (visited : list bool) (buffer : list RGBA) :
  floodLoop (S fuel) (width img) (height img) target ((x, y) :: rest) visited buffer
  = let data' := clearAlpha buffer (y * width img + x) in
    let s := fold_left (visitNeighbour data' (width img) (height img) target x y)
                       directions (rest, visited) in
    floodLoop fuel (width img) (height img) target (fst s) (snd s) data'.
Proof. reflexivity. Qed.

(** The fill terminates within the measure and keeps the invariant. *)
Lemma floodLoop_correct (fuel : nat) (queue : list (Z * Z)) (visited : list bool)
    (buffer : list RGBA) :
  fillInvariant img target noExempt queue visited buffer ->
  (fillMeasure queue visited <= fuel)%nat ->
  exists visited' buffer',
    floodLoop fuel (width img) (height img) target queue visited buffer
    = Some (visited', buffer') /\
    fillInvariant img target noExempt [] visited' buffer'.
Proof.
  revert queue visited buffer.
  induction fuel as [|fuel IH]; intros queue visited buffer Hinv Hfuel.
  - destruct queue as [|[x y] rest]; [|cbn in Hfuel; lia].
    exists visited, buffer. split; [reflexivity | exact Hinv].
  - destruct queue as [|[x y] rest].
    + exists visited, buffer. split; [reflexivity | exact Hinv].
    + rewrite floodLoop_unfold. cbv zeta.
      destruct (dequeue_step x y rest visited buffer Hinv) as (Hin0 & Hv0 & Hinv0).
      destruct (visit_fold x y (clearAlpha buffer (y * width img + x)) directions []
                  rest visited (fun d Hd => Hd) Hin0 Hv0 Hinv0) as [Hinv1 Hmeasure].
      destruct (fold_left (visitNeighbour (clearAlpha buffer (y * width img + x))
                             (width img) (height img) target x y)
                          directions (rest, visited)) as [queue' visited'].
      cbn [fst snd] in *.
      apply IH.
      * apply (fillInvariant_weaken img target
                 (exemptAfter x y (rev directions ++ []))); [|exact Hinv1].
        intros p dir Hdir [_ Hnot]. apply Hnot.
        rewrite app_nil_r. apply elem_of_reverse. exact Hdir.
      * unfold fillMeasure in *. cbn [length] in Hfuel. lia.
Qed.
End FloodLoop.

Section FloodSeeding.
Local Open Scope Z_scope.
Variable img : ImageData.
Variable target : RGBA.
Hypothesis Hwf : wfImage img.

Lemma fold_left_flat_map {A B C} (f : C -> B -> C) (g : A -> list B)
    (l : list A) (s : C) :
  fold_left f (flat_map g l) s = fold_left (fun s a => fold_left f (g a) s) l s.
Proof.
  revert s. induction l as [|a l IH]; intros s; [reflexivity|].
  cbn [flat_map fold_left]. now rewrite fold_left_app, IH.
Qed.

(** The two seeding loops test the candidates one after the other. *)
Lemma seedEdges_candidates (buffer : list RGBA) (w h : Z) :
  seedEdges buffer w h target
  = fold_left (seed buffer w target) (seedCandidates w h)
              ([], replicate (Z.to_nat (w * h)) false).
Proof.
  unfold seedEdges, seedCandidates. cbv zeta.
  now rewrite fold_left_app, !fold_left_flat_map.
Qed.

Lemma length_seedCandidates (w h : Z) :
  0 <= w -> 0 <= h -> Z.of_nat (length (seedCandidates w h)) = 2 * (w + h).
Proof.
  intros Hw Hh. unfold seedCandidates. rewrite length_app.
  rewrite !flat_map_zrange.
  rewrite (rows_length_from _ 2), (rows_length_from _ 2) by reflexivity. lia.
Qed.

Lemma elem_of_flat_map_pair (f g : Z -> Z * Z) (l : list Z) (c : Z * Z) :
  c ∈ flat_map (fun a => [f a; g a]) l <-> exists a, a ∈ l /\ (c = f a \/ c = g a).
Proof.
  rewrite list_elem_of_In, in_flat_map. split.
  - intros (a & Ha & Hc). exists a. split; [now apply list_elem_of_In|].
    cbn in Hc. destruct Hc as [<- | [<- | []]]; auto.
  - intros (a & Ha & Hc). exists a. split; [now apply list_elem_of_In|].
    cbn. destruct Hc as [-> | ->]; auto.
Qed.

(** A candidate whose pixel exists is a border pixel of the image. *)
Lemma candidate_on_border (x y : Z) :
  (x, y) ∈ seedCandidates (width img) (height img) ->
  0 <= linearIndex (width img) x y < width img * height img ->
  inBounds (width img) (height img) x y /\ onBorder (width img) (height img) x y.
Proof.
  destruct Hwf as (Hw & Hh & _). unfold seedCandidates, linearIndex, inBounds, onBorder.
  intros Hc Hidx. apply elem_of_app in Hc as [Hc | Hc];
    apply elem_of_flat_map_pair in Hc as (a & Ha & [Hc | Hc]);
    apply elem_of_zrange in Ha; injection Hc as -> ->; split; try lia; nia.
Qed.

(** Every border pixel is a candidate. *)
Lemma border_is_candidate (x y : Z) :
  inBounds (width img) (height img) x y -> onBorder (width img) (height img) x y ->
  (x, y) ∈ seedCandidates (width img) (height img).
Proof.
  unfold inBounds, onBorder, seedCandidates. intros [Hx Hy] Hb.
  apply elem_of_app.
  destruct (decide (y = 0)) as [-> | Hy0].
  { left. apply elem_of_flat_map_pair. exists x. split; [apply elem_of_zrange; lia | now left]. }
  destruct (decide (y = height img - 1)) as [-> | Hy1].
  { left. apply elem_of_flat_map_pair. exists x. split; [apply elem_of_zrange; lia | now right]. }
  right. apply elem_of_flat_map_pair. exists y. split; [apply elem_of_zrange; lia|].
  destruct Hb as [-> | [-> | [-> | ->]]]; auto; contradiction.
Qed.

Lemma unvisited_insert_le (visited : list bool) (i : nat) :
  (unvisited (<[i := true]> visited) <= unvisited visited)%nat.
Proof.
  revert i. induction visited as [|b v IH]; intros i; [reflexivity|].
  destruct i as [|i].
  - change (<[0%nat := true]> (b :: v)) with (true :: v). cbn [unvisited]. destruct b; lia.
  - change (<[S i := true]> (b :: v)) with (b :: <[i := true]> v).
    cbn [unvisited]. specialize (IH i). lia.
Qed.

Lemma unvisited_jsSet_le (visited : list bool) (i : Z) :
  (unvisited (jsSet visited i true) <= unvisited visited)%nat.
Proof.
  unfold jsSet. destruct (i <? 0); [reflexivity | apply unvisited_insert_le].
Qed.

(** One test of a border candidate. *)
Lemma seed_step (queue : list (Z * Z)) (visited : list bool) (c : Z * Z) :
  c ∈ seedCandidates (width img) (height img) ->
  seedInvariant img target queue visited ->
  let s' := seed (data img) (width img) target (queue, visited) c in
  seedInvariant img target (fst s') (snd s') /\
  (isTargetColor (data img) (width img) target (fst c) (snd c) = true ->
   isVisited (snd s') (linearIndex (width img) (fst c) (snd c)) = true) /\
  (forall j, isVisited visited j = true -> isVisited (snd s') j = true) /\
  (length (fst s') <= length queue + 1)%nat /\
  (unvisited (snd s') <= unvisited visited)%nat.
Proof.
  destruct c as [cx cy]. intros Hc (Hlv & Hq & Hv). cbv zeta. unfold seed. cbn [fst snd].
  fold (linearIndex (width img) cx cy).
  destruct (isTargetColor (data img) (width img) target cx cy) eqn:Ht.
  - cbn [fst snd].
    assert (Hm : matchesAt img target cx cy) by (now apply isTargetColor_matches).
    assert (Hidx : 0 <= linearIndex (width img) cx cy < width img * height img).
    { destruct Hm as (p & Hp & _). apply jsGet_Some in Hp.
      destruct Hwf as (_ & _ & Hlen). unfold linearIndex. lia. }
    destruct (candidate_on_border cx cy Hc Hidx) as [Hin Hborder].
    assert (Hmark : forall j,
               isVisited (jsSet visited (linearIndex (width img) cx cy) true) j = true
               <-> j = linearIndex (width img) cx cy \/ isVisited visited j = true).
    { intros j. apply isVisited_mark. lia. }
    split; [|split; [|split; [|split]]].
    + split; [rewrite length_jsSet; exact Hlv|]. split.
      * intros x y Hxy. apply elem_of_app in Hxy as [Hold | Hnow].
        -- destruct (Hq x y Hold) as [Hxin Hxv]. split; [exact Hxin|].
           apply Hmark. now right.
        -- apply list_elem_of_singleton in Hnow. injection Hnow as -> ->.
           split; [exact Hin | apply Hmark; now left].
      * intros x y Hxin Hxv. apply Hmark in Hxv as [Heq | Hold].
        -- destruct (linearIndex_inj img x y cx cy Hxin Hin Heq) as [-> ->].
           split; [apply elem_of_app; right; apply list_elem_of_here|].
           split; [exact Hborder | exact Hm].
        -- destruct (Hv x y Hxin Hold) as (Hxq & Hxb & Hxm).
           split; [apply elem_of_app; now left|]. now split.
    + intros _. apply Hmark. now left.
    + intros j Hj. apply Hmark. now right.
    + rewrite length_app. cbn [length]. lia.
    + apply unvisited_jsSet_le.
  - cbn [fst snd]. split; [now split|]. split; [discriminate|].
    split; [auto|]. split; lia.
Qed.

Lemma seed_fold (cs : list (Z * Z)) (queue : list (Z * Z)) (visited : list bool) :
  (forall c, c ∈ cs -> c ∈ seedCandidates (width img) (height img)) ->
  seedInvariant img target queue visited ->
  let s' := fold_left (seed (data img) (width img) target) cs (queue, visited) in
  seedInvariant img target (fst s') (snd s') /\
  (forall c, c ∈ cs ->
     isTargetColor (data img) (width img) target (fst c) (snd c) = true ->
     isVisited (snd s') (linearIndex (width img) (fst c) (snd c)) = true) /\
  (forall j, isVisited visited j = true -> isVisited (snd s') j = true) /\
  (length (fst s') <= length queue + length cs)%nat /\
  (unvisited (snd s') <= unvisited visited)%nat.
Proof.
  revert queue visited. induction cs as [|c cs IH]; intros queue visited Hcs Hinv.
  - cbn. split; [exact Hinv|]. split; [intros c Hc; inversion Hc|].
    split; [auto|]. split; lia.
  - cbn [fold_left].
    destruct (seed_step queue visited c (Hcs c (list_elem_of_here _ _)) Hinv)
      as (Hinv1 & Hc1 & Hmono1 & Hlen1 & Hun1).
    destruct (seed (data img) (width img) target (queue, visited) c) as [queue1 visited1].
    cbn [fst snd] in *.
    destruct (IH queue1 visited1
                 (fun d Hd => Hcs d (list_elem_of_further _ _ _ Hd)) Hinv1)
      as (Hinv2 & Hc2 & Hmono2 & Hlen2 & Hun2).
    split; [exact Hinv2|]. split; [|split; [|split]].
    + intros d Hd Ht. apply elem_of_cons in Hd as [-> | Hd].
      * apply Hmono2, Hc1, Ht.
      * now apply Hc2.
    + intros j Hj. apply Hmono2, Hmono1, Hj.
    + cbn [length]. lia.
    + lia.
Qed.

Lemma isVisited_fresh (n : nat) (j : Z) : isVisited (replicate n false) j = false.
Proof.
  unfold isVisited, jsGet. destruct (j <? 0); [reflexivity|].
  destruct (replicate n false !! Z.to_nat j) as [b|] eqn:Hb; [|reflexivity].
  apply lookup_replicate in Hb as [-> _]. reflexivity.
Qed.

(** After seeding the fill invariant holds and the work left is bounded. *)
Lemma seedEdges_correct :
  let s := seedEdges (data img) (width img) (height img) target in
  fillInvariant img target noExempt (fst s) (snd s) (data img) /\
  (fillMeasure (fst s) (snd s) <= fillFuel (width img) (height img))%nat.
Proof.
  cbv zeta. rewrite seedEdges_candidates. pose proof Hwf as (Hw & Hh & Hlen).
  assert (Hinit : seedInvariant img target []
                    (replicate (Z.to_nat (width img * height img)) false)).
  { split; [rewrite length_replicate; nia|]. split.
    - intros x y Hxy. inversion Hxy.
    - intros x y _ Hv. rewrite isVisited_fresh in Hv. discriminate. }
  destruct (seed_fold (seedCandidates (width img) (height img)) [] _ (fun c Hc => Hc) Hinit)
    as (Hinv & Hcover & _ & Hqlen & Hun).
  destruct (fold_left (seed (data img) (width img) target)
                      (seedCandidates (width img) (height img))
                      ([], replicate (Z.to_nat (width img * height img)) false))
    as [queue visited].
  cbn [fst snd] in *. destruct Hinv as (Hlv & Hq & Hv). split.
  - split; [exact Hlv|]. split; [exact Hlen|]. split; [now left|].
    split; [exact Hq|]. split; [|split; [|split; [|split]]].
    + intros x y Hin Hvis. destruct (Hv x y Hin Hvis) as (_ & Hb & Hm).
      now apply bc_border.
    + intros x y Hin Hb Hm.
      apply (Hcover (x, y) (border_is_candidate x y Hin Hb)).
      now apply isTargetColor_matches.
    + intros x y Hin Hvis. left. now destruct (Hv x y Hin Hvis).
    + intros x y Hin Hvis. left. now destruct (Hv x y Hin Hvis).
    + reflexivity.
  - unfold fillMeasure, fillFuel.
    pose proof (length_seedCandidates (width img) (height img) Hw Hh) as Hcand.
    pose proof (unvisited_le (replicate (Z.to_nat (width img * height img)) false)) as Hle.
    rewrite length_replicate in Hle. cbn [length] in Hqlen. nia.
Qed.
End FloodSeeding.

Section FloodResult.
Local Open Scope Z_scope.
Variable img : ImageData.
Variable target : RGBA.
Hypothesis Hwf : wfImage img.

(** Seeding and filling together: with enough fuel the fill returns, and
    its final state satisfies the invariant with an empty queue. *)
Lemma floodFill_correct (fuel : nat) :
  (fillFuel (width img) (height img) <= fuel)%nat ->
  exists visited out,
    floodFill fuel target (width img) (height img) (data img) = Some (visited, out) /\
    fillInvariant img target noExempt [] visited out.
Proof.
  intros Hfuel. unfold floodFill. cbv zeta.
  destruct (seedEdges_correct img target Hwf) as [Hinv Hmeasure].
  apply floodLoop_correct; [exact Hinv | lia].
Qed.

Lemma borderConnected_inBounds (x y : Z) :
  borderConnected img target x y -> inBounds (width img) (height img) x y.
Proof. now destruct 1. Qed.

(** With the queue empty, the visited pixels are the border closure and
    the buffer is the source with alpha cleared exactly there. *)
Lemma fill_result (visited : list bool) (out : list RGBA) :
  fillInvariant img target noExempt [] visited out ->
  forall x y, inBounds (width img) (height img) x y ->
    (isVisited visited (linearIndex (width img) x y) = true
     <-> borderConnected img target x y) /\
    (borderConnected img target x y ->
     pixelAt out (width img) x y
     = option_map zeroAlpha (pixelAt (data img) (width img) x y)) /\
    (~ borderConnected img target x y ->
     pixelAt out (width img) x y = pixelAt (data img) (width img) x y).
Proof.
  intros (Hlv & Hlb & Hrel & Hq & Hsound & Hseed & Hclosed & Hcleared & Hkeep).
  assert (Hcomplete : forall x y, borderConnected img target x y ->
            isVisited visited (linearIndex (width img) x y) = true).
  { intros x y Hbc. induction Hbc as [x y Hin Hb Hm | x y x' y' Hbc IH Hadj Hin' Hm'].
    - now apply Hseed.
    - pose proof (borderConnected_inBounds x y Hbc) as Hin.
      destruct (Hclosed x y Hin IH) as [Hqueued | Hdirs]; [inversion Hqueued|].
      destruct (direction_of_adjacent x y x' y' Hadj) as (dir & Hdir & -> & ->).
      destruct (Hdirs dir Hdir) as [[] | Hc]. now apply Hc. }
  intros x y Hin. split; [split; [now apply Hsound | apply Hcomplete]|]. split.
  - intros Hbc. destruct (Hcleared x y Hin (Hcomplete x y Hbc)) as [Hqueued | Hz];
      [inversion Hqueued | exact Hz].
  - intros Hnot. apply Hkeep; [exact Hin|].
    destruct (isVisited visited (linearIndex (width img) x y)) eqn:Hv; [|reflexivity].
    exfalso. apply Hnot. now apply Hsound.
Qed.

Lemma fill_length (queue : list (Z * Z)) (visited : list bool) (out : list RGBA) :
  fillInvariant img target noExempt queue visited out -> length out = length (data img).
Proof. destruct Hwf as (_ & _ & Hlen). intros (_ & Hlb & _). lia. Qed.

(** [createTransparentVersion] allocates a copy and stores the filled
    buffer in it. *)
Lemma createTransparentVersion_unfold (fuel : nat) (store : Store) (source : nat)
    (visited : list bool) (out : list RGBA) :
  store !! source = Some (data img) ->
  floodFill fuel target (width img) (height img) (data img) = Some (visited, out) ->
  createTransparentVersion fuel target source (width img) (height img) store
  = Some (<[length store := out]> (store ++ [data img]), length store).
Proof.
  intros Hsrc Hfill. unfold createTransparentVersion. now rewrite Hsrc, Hfill.
Qed.
End FloodResult.

(** C1. On every well-formed image and for every target colour, the fill
    (tolerance 5) returns, and the pixels it removes, those marked in its
    [visited] array, whose alpha [createTransparentVersion] writes to 0 in
    the buffer it stores, are exactly the 4-connected closure, from the
    border, of the pixels whose R, G and B are each within the tolerance
    of the target.  A pixel outside that closure, such as an interior
    pixel that matches but is not connected to the border through matching
    pixels, is left as it was, alpha included. *)
Theorem matte_is_border_closure (img : ImageData) (target : RGBA) (fuel : nat) :
  wfImage img -> (fillFuel (width img) (height img) <= fuel)%nat ->
  exists visited out,
    floodFill fuel target (width img) (height img) (data img) = Some (visited, out) /\
    (forall (store : Store) (source : nat),
        store !! source = Some (data img) ->
        createTransparentVersion fuel target source (width img) (height img) store
        = Some (<[length store := out]> (store ++ [data img]), length store)) /\
    (forall x y, inBounds (width img) (height img) x y ->
       (isVisited visited (linearIndex (width img) x y) = true
        <-> borderConnected img target x y) /\
       (borderConnected img target x y ->
        pixelAt out (width img) x y
        = option_map zeroAlpha (pixelAt (data img) (width img) x y)) /\
       (~ borderConnected img target x y ->
        pixelAt out (width img) x y = pixelAt (data img) (width img) x y)).
Proof.
  intros Hwf Hfuel.
  destruct (floodFill_correct img target Hwf fuel Hfuel) as (visited & out & Hfill & Hinv).
  exists visited, out. split; [exact Hfill|]. split.
  - intros store source Hsrc.
    apply (createTransparentVersion_unfold img target fuel store source visited out Hsrc Hfill).
  - apply (fill_result img target visited out Hinv).
Qed.

(** C8. [createTransparentVersion] leaves every buffer that existed
    before the call, the input among them, as it was; its result is a
    freshly allocated buffer of the same length in which every pixel has
    the R, G and B of the input pixel and either the same alpha or, at a
    pixel removed by the fill, alpha 0. *)
Theorem matte_preserves_input_and_colour (img : ImageData) (target : RGBA)
    (fuel : nat) (store : Store) (source : nat) :
  wfImage img -> store !! source = Some (data img) ->
  (fillFuel (width img) (height img) <= fuel)%nat ->
  exists store' newImgData out,
    createTransparentVersion fuel target source (width img) (height img) store
    = Some (store', newImgData) /\
    newImgData <> source /\
    (forall a, (a < length store)%nat -> store' !! a = store !! a) /\
    store' !! source = Some (data img) /\
    store' !! newImgData = Some out /\
    length out = length (data img) /\
    (forall x y, inBounds (width img) (height img) x y ->
       exists p p',
         pixelAt (data img) (width img) x y = Some p /\
         pixelAt out (width img) x y = Some p' /\
         red p' = red p /\ green p' = green p /\ blue p' = blue p /\
         (alpha p' = alpha p \/ (alpha p' = 0 /\ borderConnected img target x y))).
Proof.
  intros Hwf Hsrc Hfuel.
  destruct (floodFill_correct img target Hwf fuel Hfuel) as (visited & out & Hfill & Hinv).
  pose proof (lookup_lt_Some _ _ _ Hsrc) as Hlt.
  assert (Hold : forall a, (a < length store)%nat ->
            <[length store := out]> (store ++ [data img]) !! a = store !! a).
  { intros a Ha. rewrite list_lookup_insert_ne by lia. now apply lookup_app_l. }
  exists (<[length store := out]> (store ++ [data img])), (length store), out.
  split; [apply (createTransparentVersion_unfold img target fuel store source visited out
                   Hsrc Hfill)|].
  split; [lia|]. split; [exact Hold|].
  split; [exact (eq_trans (Hold source Hlt) Hsrc)|].
  split; [apply list_lookup_insert_eq; rewrite length_app; cbn [length]; lia|].
  split; [apply (fill_length img target Hwf [] visited out Hinv)|].
  intros x y Hin.
  destruct (fill_result img target visited out Hinv x y Hin) as (_ & Hremoved & Hkept).
  pose proof (pixelAt_defined img x y Hwf (proj1 Hin) (proj2 Hin)) as Hp.
  exists (colourAt img x y).
  destruct (isVisited visited (linearIndex (width img) x y)) eqn:Hv.
  - assert (Hbc : borderConnected img target x y).
    { destruct Hinv as (_ & _ & _ & _ & Hsound & _). now apply Hsound. }
    exists (zeroAlpha (colourAt img x y)).
    split; [exact Hp|]. split; [rewrite (Hremoved Hbc), Hp; reflexivity|].
    repeat (split; [reflexivity|]). right. now split.
  - assert (Hnbc : ~ borderConnected img target x y).
    { intros Hbc.
      destruct (fill_result img target visited out Hinv x y Hin) as ([_ Hc] & _).
      rewrite (Hc Hbc) in Hv. discriminate. }
    exists (colourAt img x y).
    split; [exact Hp|]. split; [rewrite (Hkept Hnbc); exact Hp|].
    repeat (split; [reflexivity|]). now left.
Qed.

(** The grey centre of [framedDot] matches the target and is cut off from
    the border by the crimson frame. *)
Lemma matte_is_border_closure_witness :
  wfImage framedDot /\
  (fillFuel (width framedDot) (height framedDot) <= 30)%nat /\
  exists visited out,
    floodFill 30 grey (width framedDot) (height framedDot) (data framedDot)
    = Some (visited, out) /\
    (forall (store : Store) (source : nat),
        store !! source = Some (data framedDot) ->
        createTransparentVersion 30 grey source (width framedDot) (height framedDot) store
        = Some (<[length store := out]> (store ++ [data framedDot]), length store)) /\
    (forall x y, inBounds (width framedDot) (height framedDot) x y ->
       (isVisited visited (linearIndex (width framedDot) x y) = true
        <-> borderConnected framedDot grey x y) /\
       (borderConnected framedDot grey x y ->
        pixelAt out (width framedDot) x y
        = option_map zeroAlpha (pixelAt (data framedDot) (width framedDot) x y)) /\
       (~ borderConnected framedDot grey x y ->
        pixelAt out (width framedDot) x y
        = pixelAt (data framedDot) (width framedDot) x y)).
Proof.
  assert (Hwf : wfImage framedDot).
  { unfold wfImage, framedDot. cbn [width height data length]. lia. }
  assert (Hfuel : (fillFuel (width framedDot) (height framedDot) <= 30)%nat).
  { vm_compute. lia. }
  split; [exact Hwf|]. split; [exact Hfuel|].
  apply (matte_is_border_closure framedDot grey 30 Hwf Hfuel).
Defined.

Lemma matte_preserves_input_and_colour_witness :
  wfImage ringed /\ [data ringed] !! 0%nat = Some (data ringed) /\
  (fillFuel (width ringed) (height ringed) <= 60)%nat /\
  exists store' newImgData out,
    createTransparentVersion 60 grey 0 (width ringed) (height ringed) [data ringed]
    = Some (store', newImgData) /\
    newImgData <> 0%nat /\
    (forall a, (a < length [data ringed])%nat -> store' !! a = [data ringed] !! a) /\
    store' !! 0%nat = Some (data ringed) /\
    store' !! newImgData = Some out /\
    length out = length (data ringed) /\
    (forall x y, inBounds (width ringed) (height ringed) x y ->
       exists p p',
         pixelAt (data ringed) (width ringed) x y = Some p /\
         pixelAt out (width ringed) x y = Some p' /\
         red p' = red p /\ green p' = green p /\ blue p' = blue p /\
         (alpha p' = alpha p \/ (alpha p' = 0 /\ borderConnected ringed grey x y))).
Proof.
  assert (Hwf : wfImage ringed).
  { unfold wfImage, ringed. cbn [width height data length]. lia. }
  assert (Hfuel : (fillFuel (width ringed) (height ringed) <= 60)%nat).
  { vm_compute. lia. }
  split; [exact Hwf|]. split; [reflexivity|]. split; [exact Hfuel|].
  apply (matte_preserves_input_and_colour ringed grey 60 [data ringed] 0 Hwf eq_refl Hfuel).
Defined.

(** ** The code run on the sample images *)

(** The fill removes the grey border of [ringed] and nothing else: the
    grey centre, cut off by the ring, keeps its alpha. *)
Example ringed_matte :
  option_map (fun r => (fst r, map alpha (snd r)))
             (floodFill 60 grey 5 5 (data ringed))
  = Some ([true; true; true; true; true;
           true; false; false; false; true;
           true; false; false; false; true;
           true; false; false; false; true;
           true; true; true; true; true],
          [0; 0; 0; 0; 0;
           0; 255; 255; 255; 0;
           0; 255; 255; 255; 0;
           0; 255; 255; 255; 0;
           0; 0; 0; 0; 0]).
Proof. vm_compute. reflexivity. Qed.

(** A 3 by 3 image of one colour is removed completely. *)
Example solid_matte :
  option_map (fun r => map alpha (snd r))
             (floodFill 30 grey 3 3 (replicate 9 grey))
  = Some [0; 0; 0; 0; 0; 0; 0; 0; 0].
Proof. vm_compute. reflexivity. Qed.

Example framedDot_matte :
  option_map snd (floodFill 30 grey 3 3 (data framedDot)) = Some (data framedDot).
Proof. vm_compute. reflexivity. Qed.

Example ringed_histogram :
  map (fun e => (color e, count e)) (generateColorHistogram ringed)
  = [("#0a0a0a"%string, 17); ("#c80000"%string, 8)].
Proof. vm_compute. reflexivity. Qed.

(** A fully transparent pixel is not counted, whatever its colour. *)
Example transparent_not_counted :
  map (fun e => (color e, count e))
      (generateColorHistogram
         (mkImageData 3 1 [grey; mkRGBA 10 10 10 0; mkRGBA 10 10 10 7]))
  = [("#0a0a0a"%string, 2)].
Proof. vm_compute. reflexivity. Qed.

(** Sampling [ringed] at pitch 5 / 5 = 1 and at pitch 5 / 2. *)
Example ringed_identity : generatePixelArt 5 ringed = Some ringed.
Proof. vm_compute. reflexivity. Qed.

Example ringed_half :
  generatePixelArt 2 ringed
  = Some (mkImageData 2 2 [crimson; crimson; crimson; crimson]).
Proof. vm_compute. reflexivity. Qed.

(** Three columns from the source that returns 0, 1/7, 2/7, ... *)
Example three_lines :
  selectLines 10 (fun n => (Z.of_nat n # 7)%Q) 0 3 [] ∅ = Some [0; 1; 2].
Proof. vm_compute. reflexivity. Qed.

(** * Further properties of the code *)

(** ** The spectrum stages of performFFT *)

Section SpectrumBounds.
Local Open Scope R_scope.

(** The detected peak is the sentinel or a bin of the scanned range. *)
Lemma findPeak_range (smoothed : list R) :
  findPeak smoothed = 0%nat \/ (5 <= findPeak smoothed < length smoothed)%nat.
Proof.
  unfold findPeak, startIndex.
  pose proof (peakScan_invariant smoothed (length smoothed - 5) 5 0 0%nat) as Hinv.
  cbn zeta in Hinv.
  destruct Hinv as [_ [-> | (Hr & Hs & _)]]; [now left | right].
  apply lookup_lt_Some in Hs. lia.
Qed.

Lemma findPeak_nonpositive (smoothed : list R) :
  (forall j v, (5 <= j)%nat -> smoothed !! j = Some v -> v <= 0) ->
  findPeak smoothed = 0%nat.
Proof.
  intros Hnonpos. unfold findPeak, startIndex.
  pose proof (peakScan_invariant smoothed (length smoothed - 5) 5 0 0%nat) as Hinv.
  cbn zeta in Hinv.
  destruct Hinv as [_ [-> | (Hr & Hs & Hlt & _)]]; [reflexivity|].
  pose proof (Hnonpos _ _ (proj1 Hr) Hs). lra.
Qed.

Lemma rsum_map_div (l : list R) (s : R) : rsum (map (fun v => v / s) l) = rsum l / s.
Proof.
  induction l as [|v l IH]; cbn [map].
  - rewrite rsum_nil. unfold Rdiv. ring.
  - rewrite !rsum_cons, IH. unfold Rdiv. ring.
Qed.

Lemma rsum_positive (l : list R) :
  l <> [] -> Forall (fun v => 0 < v) l -> 0 < rsum l.
Proof.
  intros Hne Hall. destruct l as [|v l]; [congruence|].
  apply Forall_cons in Hall as [Hv Hall]. rewrite rsum_cons.
  assert (0 <= rsum l); [|lra].
  clear Hne Hv. induction Hall as [|w l Hw _ IH]; [rewrite rsum_nil; lra|].
  rewrite rsum_cons. lra.
Qed.

Lemma rawKernel_total_pos (sigma : R) (radius : Z) :
  (0 <= radius)%Z -> 0 < rsum (rawKernel sigma radius).
Proof.
  intros Hr. apply rsum_positive.
  - intros Hnil. apply (f_equal length) in Hnil. unfold rawKernel in Hnil.
    rewrite length_map, length_zrange in Hnil. cbn [length] in Hnil. lia.
  - unfold rawKernel. apply Forall_forall. intros v Hv.
    apply list_elem_of_fmap in Hv as (j & -> & _). apply gaussValue_pos.
Qed.

(** The weights of the kernel add up to one, whatever sigma and size. *)
Lemma gaussKernel_total (sigma : R) (radius : Z) :
  (0 <= radius)%Z -> rsum (gaussKernel sigma radius) = 1.
Proof.
  intros Hr. unfold gaussKernel. cbv zeta. rewrite rsum_map_div.
  pose proof (rawKernel_total_pos sigma radius Hr). field. lra.
Qed.

(** The weight the kernel holds for offset [j]. *)
Definition tapWeight (sigma : R) (radius j : Z) : R :=
  gaussValue sigma j / rsum (rawKernel sigma radius).

Lemma gaussKernel_taps_general (sigma : R) (radius : Z) :
  gaussKernel sigma radius = map (tapWeight sigma radius) (zrange (- radius) radius).
Proof.
  unfold gaussKernel, rawKernel, tapWeight. cbv zeta. now rewrite map_map.
Qed.

Lemma gaussKernel_lookup (sigma : R) (radius j : Z) :
  (- radius <= j <= radius)%Z ->
  jsGet (gaussKernel sigma radius) (j + radius) = Some (tapWeight sigma radius j).
Proof.
  intros Hj. rewrite gaussKernel_taps_general, jsGet_map. unfold jsGet.
  destruct (Z.ltb_spec (j + radius) 0) as [|_]; [lia|].
  rewrite zrange_lookup by lia. cbn [option_map]. do 2 f_equal. lia.
Qed.

Lemma tapWeight_pos (sigma : R) (radius j : Z) :
  (0 <= radius)%Z -> 0 < tapWeight sigma radius j.
Proof.
  intros Hr. apply Rdiv_lt_0_compat;
    [apply gaussValue_pos | now apply rawKernel_total_pos].
Qed.

Lemma jsGet_Forall {A} (P : A -> Prop) (l : list A) (i : Z) (a : A) :
  Forall P l -> jsGet l i = Some a -> P a.
Proof.
  intros Hall Hget. unfold jsGet in Hget. destruct (i <? 0)%Z; [discriminate|].
  apply (Forall_lookup_1 _ _ _ _ Hall Hget).
Qed.

(** The convolution loop over offsets [js] stays between the value it
    starts from and that value plus [M] times the weights of [js]. *)
Lemma conv_fold_bounds (data : list R) (M sigma : R) (radius i : Z) (js : list Z) (v : R) :
  (0 <= radius)%Z -> 0 <= M ->
  Forall (fun d => 0 <= d <= M) data ->
  Forall (fun j => (- radius <= j <= radius)%Z) js ->
  v <= fold_left (convTerm data (gaussKernel sigma radius) radius i) js v
    <= v + M * rsum (map (tapWeight sigma radius) js).
Proof.
  intros Hr HM Hdata Hjs. revert v.
  induction Hjs as [|j js Hj _ IH]; intros v.
  - cbn [fold_left map]. rewrite rsum_nil. lra.
  - cbn [fold_left map]. rewrite rsum_cons.
    pose proof (tapWeight_pos sigma radius j Hr) as Hw.
    assert (Hstep : v <= convTerm data (gaussKernel sigma radius) radius i v j
                      <= v + M * tapWeight sigma radius j).
    { unfold convTerm. cbv zeta.
      destruct ((0 <=? i + j) && (i + j <? Z.of_nat (length data)))%Z; [|nra].
      rewrite (gaussKernel_lookup sigma radius j Hj).
      destruct (jsGet data (i + j)) as [d|] eqn:Hd; [|nra].
      pose proof (jsGet_Forall _ _ _ _ Hdata Hd) as Hdb. cbn beta in Hdb. nra. }
    specialize (IH (convTerm data (gaussKernel sigma radius) radius i v j)). lra.
Qed.
End SpectrumBounds.

Section SpectrumFacts.
Local Open Scope R_scope.

Lemma list_upper_bound (l : list R) : Forall (fun d => d <= fold_right Rmax 0 l) l.
Proof.
  induction l as [|a l IH]; [constructor|]. cbn [fold_right]. constructor.
  - apply Rmax_l.
  - eapply Forall_impl; [exact IH|]. intros d Hd. cbn beta in Hd.
    pose proof (Rmax_r a (fold_right Rmax 0 l)). lra.
Qed.

Lemma kernelRadius_nonneg (kernelSize : Z) : (1 <= kernelSize)%Z -> (0 <= kernelRadius kernelSize)%Z.
Proof.
  intros Hk. unfold kernelRadius. apply Z.div_pos; [|lia].
  unfold oddSize. destruct (kernelSize mod 2 =? 0)%Z; lia.
Qed.

(** One smoothed value lies between 0 and the bound of the data. *)
Lemma convAt_bounds (data : list R) (M sigma : R) (radius i : Z) :
  (0 <= radius)%Z -> 0 <= M ->
  Forall (fun d => 0 <= d <= M) data ->
  0 <= convAt data (gaussKernel sigma radius) radius i <= M.
Proof.
  intros Hr HM Hdata. unfold convAt.
  pose proof (conv_fold_bounds data M sigma radius i (zrange (- radius) radius) 0
                Hr HM Hdata) as Hb.
  rewrite <- gaussKernel_taps_general, gaussKernel_total in Hb by exact Hr.
  assert (Hjs : Forall (fun j => (- radius <= j <= radius)%Z) (zrange (- radius) radius)).
  { apply Forall_forall. intros j Hj. now apply elem_of_zrange in Hj. }
  specialize (Hb Hjs). lra.
Qed.

Lemma smoothed_value (data : list R) (sigma : R) (kernelSize : Z) (v : R) :
  v ∈ applyGaussianSmoothing data sigma kernelSize ->
  data <> [] /\
  exists i, v = convAt data (gaussKernel sigma (kernelRadius kernelSize))
                  (kernelRadius kernelSize) i.
Proof.
  unfold applyGaussianSmoothing. cbv zeta. intros Hv.
  apply list_elem_of_fmap in Hv as (i & -> & Hi). apply elem_of_zrange in Hi.
  split; [|now exists i]. intros ->. cbn [length] in Hi. lia.
Qed.

Lemma smoothing_nonneg (data : list R) (sigma : R) (kernelSize : Z) :
  (1 <= kernelSize)%Z ->
  Forall (fun d => 0 <= d) data ->
  Forall (fun v => 0 <= v) (applyGaussianSmoothing data sigma kernelSize).
Proof.
  intros Hk Hdata. apply Forall_forall. intros v Hv.
  apply smoothed_value in Hv as (Hne & i & ->).
  pose proof (list_upper_bound data) as Hub.
  assert (Hboth : Forall (fun d => 0 <= d <= fold_right Rmax 0 data) data).
  { apply Forall_forall. intros d Hd.
    rewrite Forall_forall in Hdata, Hub. split; [now apply Hdata | now apply Hub]. }
  assert (HM : 0 <= fold_right Rmax 0 data).
  { destruct data as [|d data]; [congruence|].
    apply Forall_cons in Hboth as [Hd _]. lra. }
  apply (convAt_bounds data _ sigma _ i (kernelRadius_nonneg kernelSize Hk) HM Hboth).
Qed.

Lemma magnitude_nonneg (c : R * R) : 0 <= magnitude c.
Proof. unfold magnitude. apply sqrt_pos. Qed.

Lemma magnitudes_nonneg (img : ImageData) (x : Z) :
  Forall (fun v => 0 <= v) (magnitudes (analyseLine img x)).
Proof.
  unfold analyseLine. cbn [magnitudes]. apply Forall_forall. intros v Hv.
  apply list_elem_of_fmap in Hv as (c & -> & _). apply magnitude_nonneg.
Qed.

Lemma combineAt_bounds (P : R -> Prop) (allMagnitudes : list (list R)) (i : nat) (acc : R) :
  Forall (Forall (fun v => 0 <= v)) allMagnitudes ->
  acc <= fold_left (fun acc (m : list R) =>
                      match m !! i with Some v => acc + v | None => acc end)
                   allMagnitudes acc.
Proof.
  intros Hall. revert acc.
  induction Hall as [|m ms Hm _ IH]; intros acc; cbn [fold_left]; [lra|].
  destruct (m !! i) as [v|] eqn:Hv; [|apply IH].
  pose proof (Forall_lookup_1 _ _ _ _ Hm Hv) as Hv0. cbn beta in Hv0.
  specialize (IH (acc + v)). lra.
Qed.

Lemma combined_nonneg (img : ImageData) (lines : list Z) :
  Forall (fun v => 0 <= v) (combinedOf img lines).
Proof.
  unfold combinedOf, combineMagnitudes. cbv zeta.
  apply Forall_forall. intros v Hv.
  apply list_elem_of_fmap in Hv as (i & -> & _).
  unfold combineAt. apply (combineAt_bounds (fun _ => True)).
  unfold lineMagnitudes. apply Forall_forall. intros m Hm.
  apply list_elem_of_fmap in Hm as (x & -> & _). apply magnitudes_nonneg.
Qed.

Lemma generatePixelSamples_smoothed (f : Z) (imgDataParam : option ImageData)
    (st : HookState) :
  smoothedFFT (generatePixelSamples f imgDataParam st) = smoothedFFT st.
Proof.
  unfold generatePixelSamples. destruct (orState imgDataParam st); [|reflexivity].
  destruct (f <=? 0)%Z; reflexivity.
Qed.

Lemma generatePixelSamples_results (f : Z) (imgDataParam : option ImageData)
    (st : HookState) :
  fftResults (generatePixelSamples f imgDataParam st) = fftResults st.
Proof.
  unfold generatePixelSamples. destruct (orState imgDataParam st); [|reflexivity].
  destruct (f <=? 0)%Z; reflexivity.
Qed.

Lemma performFFTOn_smoothed (lines : list Z) (img : ImageData) (st : HookState) :
  lines <> [] -> (2 <= height img)%Z ->
  smoothedFFT (performFFTOn lines img st)
  = applyGaussianSmoothing (combinedOf img lines) 2 7.
Proof.
  intros Hne Hh. rewrite (performFFTOn_analyses lines img st Hne Hh). cbv zeta.
  destruct (0 <? _)%Z; [rewrite generatePixelSamples_smoothed|]; reflexivity.
Qed.

Lemma performFFTOn_results (lines : list Z) (img : ImageData) (st : HookState) :
  lines <> [] -> (2 <= height img)%Z ->
  fftResults (performFFTOn lines img st) = map (analyseLine img) lines.
Proof.
  intros Hne Hh. rewrite (performFFTOn_analyses lines img st Hne Hh). cbv zeta.
  destruct (0 <? _)%Z; [rewrite generatePixelSamples_results|]; reflexivity.
Qed.

(** X1. Gaussian smoothing never leaves the range of its input.  For a
    kernel size of at least one, data whose entries all lie in [[0, M]]
    is smoothed to entries that all lie in [[0, M]]: the weights are
    positive and add up to one, and the boundary only drops weights. *)
Theorem smoothing_preserves_bounds (data : list R) (M sigma : R) (kernelSize : Z) :
  sigma <> 0 -> (1 <= kernelSize)%Z ->
  Forall (fun d => 0 <= d <= M) data ->
  Forall (fun v => 0 <= v <= M) (applyGaussianSmoothing data sigma kernelSize).
Proof.
  intros _ Hk Hdata. apply Forall_forall. intros v Hv.
  apply smoothed_value in Hv as (Hne & i & ->).
  assert (HM : 0 <= M).
  { destruct data as [|d data]; [congruence|].
    apply Forall_cons in Hdata as [Hd _]. lra. }
  apply (convAt_bounds data M sigma _ i (kernelRadius_nonneg kernelSize Hk) HM Hdata).
Qed.

Lemma smoothing_preserves_bounds_witness :
  Forall (fun v => 0 <= v <= 3) (applyGaussianSmoothing [1; 3; 2] 2 7).
Proof.
  apply (smoothing_preserves_bounds [1; 3; 2] 3 2 7); [lra | lia |].
  repeat constructor; lra.
Defined.


End SpectrumFacts.

Section FlatColumns.
Local Open Scope R_scope.

Lemma derivatives_flat (l : list R) (c : R) :
  Forall (eq c) l -> Forall (eq 0) (derivatives l).
Proof.
  induction 1 as [|a l Ha Hl IH]; [constructor|].
  destruct l as [|b t]; [constructor|]. cbn [derivatives]. constructor; [|exact IH].
  apply Forall_cons in Hl as [Hb _]. subst a b.
  rewrite Rminus_diag. symmetry. apply Rabs_R0.
Qed.

Lemma dft_fold_zero (N k s : nat) (xs : list R) :
  Forall (eq 0) xs ->
  fold_left (dftTerm N k) (combine (seq s (length xs)) xs) (0, 0) = (0, 0).
Proof.
  intros Hxs. revert s. induction Hxs as [|x xs Hx _ IH]; intros s; [reflexivity|].
  cbn [length seq combine fold_left]. subst x.
  replace (dftTerm N k (0, 0) (s, 0)) with (0, 0); [apply IH|].
  unfold dftTerm. cbn [fst snd]. f_equal; ring.
Qed.

Lemma magnitude_zero : magnitude (0, 0) = 0.
Proof.
  unfold magnitude. cbn [fst snd].
  replace (0 ^ 2 + 0 ^ 2) with 0 by ring. apply sqrt_0.
Qed.

Lemma flat_line_spectrum (img : ImageData) (x : Z) :
  (forall y, (0 <= y < height img)%Z -> gray img x y = gray img x 0) ->
  Forall (eq 0) (magnitudes (analyseLine img x)).
Proof.
  intros Hflat. unfold analyseLine. cbn [magnitudes].
  assert (Hd : Forall (eq 0) (derivatives (lineData img x))).
  { apply (derivatives_flat _ (gray img x 0)). unfold lineData.
    apply Forall_forall. intros v Hv.
    apply list_elem_of_fmap in Hv as (y & -> & Hy).
    apply elem_of_zrange in Hy. symmetry. apply Hflat. lia. }
  apply Forall_forall. intros v Hv.
  apply list_elem_of_fmap in Hv as (c & -> & Hc).
  unfold fft in Hc. apply list_elem_of_fmap in Hc as (k & -> & _).
  unfold dftBin. rewrite (dft_fold_zero _ k 0 _ Hd). symmetry. apply magnitude_zero.
Qed.

Lemma combineAt_zero (allMagnitudes : list (list R)) (i : nat) :
  Forall (Forall (eq 0)) allMagnitudes -> combineAt allMagnitudes i = 0.
Proof.
  unfold combineAt. induction 1 as [|m ms Hm _ IH]; [reflexivity|].
  cbn [fold_left]. destruct (m !! i) as [v|] eqn:Hv; [|exact IH].
  pose proof (Forall_lookup_1 _ _ _ _ Hm Hv) as Hv0. cbn beta in Hv0. subst v.
  rewrite Rplus_0_l. exact IH.
Qed.

Lemma flat_combined (img : ImageData) (lines : list Z) :
  (forall x y, x ∈ lines -> (0 <= y < height img)%Z -> gray img x y = gray img x 0) ->
  Forall (eq 0) (combinedOf img lines).
Proof.
  intros Hflat. unfold combinedOf, combineMagnitudes. cbv zeta.
  apply Forall_forall. intros v Hv.
  apply list_elem_of_fmap in Hv as (i & -> & _).
  symmetry. apply combineAt_zero. unfold lineMagnitudes.
  apply Forall_forall. intros m Hm.
  apply list_elem_of_fmap in Hm as (x & -> & Hx).
  apply flat_line_spectrum. intros y Hy. now apply Hflat.
Qed.

Lemma flat_peak (img : ImageData) (lines : list Z) :
  (forall x y, x ∈ lines -> (0 <= y < height img)%Z -> gray img x y = gray img x 0) ->
  findPeak (applyGaussianSmoothing (combinedOf img lines) 2 7) = 0%nat.
Proof.
  intros Hflat. apply findPeak_nonpositive. intros j v _ Hv.
  apply list_elem_of_lookup_2, smoothed_value in Hv as (_ & i & ->).
  assert (Hzero : Forall (fun d => 0 <= d <= 0) (combinedOf img lines)).
  { eapply Forall_impl; [apply (flat_combined img lines Hflat)|].
    intros d <-. lra. }
  apply (convAt_bounds _ 0 2 _ i (kernelRadius_nonneg 7 ltac:(lia)) ltac:(lra) Hzero).
Qed.


End FlatColumns.

Section FrequencyRange.

Lemma analysed_length (lines : list Z) (img : ImageData) :
  lines <> [] -> 2 <= height img ->
  Z.of_nat (length (applyGaussianSmoothing (combinedOf img lines) 2 7))
  = Z.min (height img / 2) 10000.
Proof.
  intros Hne Hh. rewrite smoothing_length, combinedOf_length.
  rewrite (maxLengthOf_lines img lines Hne).
  unfold safeMaxFreqOf, maxFreqOf.
  assert (1 <= height img / 2) by (apply Z.div_le_lower_bound; lia).
  assert (height img / 2 <= height img - 1).
  { assert (height img / 2 < height img); [|lia].
    apply Z.div_lt_upper_bound; lia. }
  lia.
Qed.

Lemma spacing_above_two (h f : Z) :
  0 < f -> 2 * f < h -> (2 < pixelSpacingOf h f)%Q.
Proof.
  intros Hf Hlt. unfold pixelSpacingOf.
  apply Qlt_shift_div_l.
  - change 0%Q with (inject_Z 0). rewrite <- Zlt_Qlt. exact Hf.
  - change 2%Q with (inject_Z 2). rewrite <- inject_Z_mult, <- Zlt_Qlt. exact Hlt.
Qed.

(** X4. Whenever performFFT analyses an image it stores a frequency,
    and that frequency is either the sentinel 0 or a bin [f] with
    [5 <= f], [2 f + 2 <= height] and [f < 10000]; the pixel pitch
    [height / f] derived from a detected grid is therefore always above
    two source pixels. *)
Theorem detected_frequency_range (lines : list Z) (img : ImageData) (st : HookState) :
  lines <> [] -> 2 <= height img ->
  exists f, dominantFrequency (performFFTOn lines img st) = Some f /\
    (f = 0 \/
     (5 <= f /\ 2 * f + 2 <= height img /\ f < 10000 /\
      (2 < pixelSpacingOf (height img) f)%Q)).
Proof.
  intros Hne Hh. rewrite (performFFTOn_frequency lines img st Hne Hh).
  eexists. split; [reflexivity|].
  pose proof (analysed_length lines img Hne Hh) as Hlen.
  destruct (findPeak_range (applyGaussianSmoothing (combinedOf img lines) 2 7))
    as [-> | [Hlo Hhi]]; [now left | right].
  pose proof (Z.mul_div_le (height img) 2 ltac:(lia)) as Hdiv.
  assert (Hf : 2 * Z.of_nat (findPeak (applyGaussianSmoothing (combinedOf img lines) 2 7)) + 2
               <= height img) by lia.
  split; [lia | split; [exact Hf | split; [lia|]]].
  apply spacing_above_two; lia.
Qed.

Lemma detected_frequency_range_witness :
  exists f, dominantFrequency (performFFTOn [0] ringed (freshState ringed)) = Some f /\
    (f = 0 \/
     (5 <= f /\ 2 * f + 2 <= height ringed /\ f < 10000 /\
      (2 < pixelSpacingOf (height ringed) f)%Q)).
Proof.
  apply (detected_frequency_range [0] ringed (freshState ringed));
    [discriminate | unfold ringed; cbn [height]; lia].
Defined.
End FrequencyRange.

(** ** Grid sampling and reconstruction *)

Section GridBounds.

Lemma spacing_nonneg (h f : Z) : 0 <= h -> 0 < f -> (0 <= pixelSpacingOf h f)%Q.
Proof.
  intros Hh Hf. unfold pixelSpacingOf, Qdiv. apply Qmult_le_0_compat.
  - change 0%Q with (inject_Z 0). rewrite <- Zle_Qle. exact Hh.
  - apply Qinv_le_0_compat. change 0%Q with (inject_Z 0). rewrite <- Zle_Qle. lia.
Qed.

Lemma Qfloor_nonneg (q : Q) : (0 <= q)%Q -> 0 <= Qfloor q.
Proof.
  intros Hq. rewrite <- (Qfloor_Z 0). apply Qfloor_resp_le. exact Hq.
Qed.

Lemma cellCentre_nonneg (g : Z) (ps : Q) : 0 <= g -> (0 <= ps)%Q -> 0 <= cellCentre g ps.
Proof.
  intros Hg Hps. unfold cellCentre. apply Qfloor_nonneg.
  apply Qmult_le_0_compat; [|exact Hps].
  apply (Qle_trans _ (inject_Z g + 0)).
  - rewrite Qplus_0_r. change 0%Q with (inject_Z 0). rewrite <- Zle_Qle. exact Hg.
  - apply Qplus_le_r. discriminate.
Qed.

Lemma estimatedSize_nonneg (d : Z) (ps : Q) : 0 <= d -> (0 <= ps)%Q -> 0 <= estimatedSize d ps.
Proof.
  intros Hd Hps. unfold estimatedSize, jsRound. apply Qfloor_nonneg.
  apply (Qle_trans _ (inject_Z d / ps + 0)).
  - rewrite Qplus_0_r. unfold Qdiv. apply Qmult_le_0_compat.
    + change 0%Q with (inject_Z 0). rewrite <- Zle_Qle. exact Hd.
    + now apply Qinv_le_0_compat.
  - apply Qplus_le_r. discriminate.
Qed.

Lemma elem_of_flat_map_iff {A B} (f : A -> list B) (l : list A) (b : B) :
  b ∈ flat_map f l <-> exists a, a ∈ l /\ b ∈ f a.
Proof.
  induction l as [|a l IH]; cbn [flat_map].
  - split; [intros H; inversion H | intros (a & H & _); inversion H].
  - rewrite elem_of_app, IH. split.
    + intros [Hb | (a' & Ha' & Hb)].
      * exists a. split; [apply list_elem_of_here | exact Hb].
      * exists a'. split; [now apply list_elem_of_further | exact Hb].
    + intros (a' & Ha' & Hb). apply elem_of_cons in Ha' as [-> | Ha'].
      * now left.
      * right. now exists a'.
Qed.

Lemma sample_in_image (img : ImageData) (ps : Q) (ew eh : Z) (s : PixelSample) :
  wfImage img -> (0 <= ps)%Q ->
  s ∈ sampleGrid img ps ew eh ->
  0 <= sx s < width img /\ 0 <= sy s < height img /\
  pixelAt (data img) (width img) (sx s) (sy s) = Some (scolor s).
Proof.
  intros Hwf Hps Hs. unfold sampleGrid in Hs.
  apply elem_of_flat_map_iff in Hs as (gy & Hgy & Hs).
  apply elem_of_flat_map_iff in Hs as (gx & Hgx & Hs).
  apply elem_of_zrange in Hgy, Hgx.
  unfold sampleCell in Hs. cbv zeta in Hs.
  destruct (Z.ltb_spec (cellCentre gx ps) (width img)) as [Hx|]; cbn [andb] in Hs;
    [|inversion Hs].
  destruct (Z.ltb_spec (cellCentre gy ps) (height img)) as [Hy|];
    [|inversion Hs].
  apply list_elem_of_singleton in Hs. subst s. cbn [sx sy scolor].
  pose proof (cellCentre_nonneg gx ps ltac:(lia) Hps).
  pose proof (cellCentre_nonneg gy ps ltac:(lia) Hps).
  split; [lia|]. split; [lia|]. apply pixelAt_defined; [exact Hwf | lia | lia].
Qed.

Lemma estimated_height (h f : Z) :
  1 <= h -> 1 <= f -> estimatedSize h (pixelSpacingOf h f) = f.
Proof.
  intros Hh Hf. unfold estimatedSize, jsRound, pixelSpacingOf.
  transitivity (Qfloor (inject_Z f + (1 # 2))); [|apply Qfloor_half].
  apply Qfloor_comp.
  assert (Hf0 : ~ (inject_Z f == 0)%Q).
  { unfold Qeq, inject_Z. cbn [Qnum Qden]. lia. }
  assert (Hh0 : ~ (inject_Z h == 0)%Q).
  { unfold Qeq, inject_Z. cbn [Qnum Qden]. lia. }
  field. split; assumption.
Qed.



(** X6. Every sample generatePixelSamples stores for a positive
    frequency lies inside the image (the loop only tests the upper
    bounds; the lower bounds hold because cell centres are never
    negative) and carries the colour of the source pixel at its
    position. *)
Theorem samples_lie_in_image (f : Z) (img : ImageData) (st : HookState) (s : PixelSample) :
  wfImage img -> 0 < f ->
  s ∈ pixelSamples (generatePixelSamples f (Some img) st) ->
  0 <= sx s < width img /\ 0 <= sy s < height img /\
  pixelAt (data img) (width img) (sx s) (sy s) = Some (scolor s).
Proof.
  intros Hwf Hf. unfold generatePixelSamples. cbn [orState].
  destruct (Z.leb_spec f 0) as [|_]; [lia|]. cbv zeta. cbn [pixelSamples setPixelSamples].
  apply sample_in_image; [exact Hwf|].
  apply spacing_nonneg; [apply Hwf | exact Hf].
Qed.

Lemma samples_lie_in_image_witness :
  let s := mkSample 1 1 crimson in
  0 <= sx s < width ringed /\ 0 <= sy s < height ringed /\
  pixelAt (data ringed) (width ringed) (sx s) (sy s) = Some (scolor s).
Proof.
  apply (samples_lie_in_image 2 ringed (freshState ringed) (mkSample 1 1 crimson)).
  - unfold wfImage, ringed. cbn [width height data length]. lia.
  - lia.
  - vm_compute. apply list_elem_of_here.
Defined.
End GridBounds.

Section GridReconstruction.

Lemma map_ext_elem {A B} (f g : A -> B) (l : list A) :
  (forall a, a ∈ l -> f a = g a) -> map f l = map g l.
Proof.
  intros Hfg. rewrite <- !flat_map_singleton. apply flat_map_ext_elem.
  intros a Ha. now rewrite (Hfg a Ha).
Qed.

(** The canvas after a full grid of samples is drawn holds the colour of
    the sample of every cell, wherever the samples were taken. *)
Lemma drawSamples_grid (fx fy : Z -> Z) (col : Z -> Z -> RGBA) (W H : Z) :
  drawSamples
    (flat_map (fun y => map (fun x => mkSample (fx x) (fy y) (col x y)) (zrange 0 (W - 1)))
              (zrange 0 (H - 1)))
    W H
  = flat_map (fun y => map (fun x => col x y) (zrange 0 (W - 1))) (zrange 0 (H - 1)).
Proof.
  set (sampleRow := fun y => map (fun x => mkSample (fx x) (fy y) (col x y))
                                 (zrange 0 (W - 1))).
  unfold drawSamples. apply flat_map_ext_elem. intros y Hy.
  apply map_ext_elem. intros x Hx. apply elem_of_zrange in Hx, Hy.
  assert (HsampleRow : forall k, Z.of_nat (length (sampleRow k)) = W).
  { intros k. unfold sampleRow. rewrite length_map, length_zrange. lia. }
  unfold canvasCell.
  rewrite (rows_lookup sampleRow W H x y HsampleRow ltac:(lia) ltac:(lia)).
  unfold sampleRow. rewrite jsGet_map, (jsGet_zrange W x) by lia. reflexivity.
Qed.

Lemma spacing_integer (p f : Z) :
  1 <= f -> (pixelSpacingOf (p * f) f == inject_Z p)%Q.
Proof.
  intros Hf. unfold pixelSpacingOf. rewrite inject_Z_mult.
  assert (Hf0 : ~ (inject_Z f == 0)%Q).
  { unfold Qeq, inject_Z. cbn [Qnum Qden]. lia. }
  field. exact Hf0.
Qed.

Lemma estimatedSize_integer (p d : Z) (ps : Q) :
  1 <= p -> (ps == inject_Z p)%Q -> estimatedSize (p * d) ps = d.
Proof.
  intros Hp Hps. unfold estimatedSize, jsRound.
  transitivity (Qfloor (inject_Z d + (1 # 2))); [|apply Qfloor_half].
  apply Qfloor_comp. rewrite Hps, inject_Z_mult.
  assert (Hp0 : ~ (inject_Z p == 0)%Q).
  { unfold Qeq, inject_Z. cbn [Qnum Qden]. lia. }
  field. exact Hp0.
Qed.

(** [Math.floor((g + 0.5) * p) = g * p + floor(p / 2)] for integers. *)
Lemma cellCentre_integer (g p : Z) (ps : Q) :
  (ps == inject_Z p)%Q -> cellCentre g ps = g * p + p / 2.
Proof.
  intros Hps. unfold cellCentre.
  transitivity (Qfloor ((inject_Z g + (1 # 2)) * inject_Z p)).
  { apply Qfloor_comp. now rewrite Hps. }
  unfold Qfloor, Qmult, Qplus, inject_Z. cbn [Qnum Qden].
  change (Z.pos (1 * 2 * 1)) with 2.
  replace ((g * 2 + 1 * 1) * p) with (g * p * 2 + p) by lia.
  rewrite Z.div_add_l by lia. reflexivity.
Qed.

Lemma half_below (p : Z) : 1 <= p -> 0 <= p / 2 < p.
Proof.
  intros Hp. split; [apply Z.div_pos; lia | apply Z.div_lt_upper_bound; lia].
Qed.

Lemma sampleGrid_integer (img : ImageData) (ps : Q) (p f ew : Z) :
  1 <= p -> (ps == inject_Z p)%Q ->
  height img = p * f -> width img = p * ew ->
  sampleGrid img ps ew f
  = flat_map (fun y => map (fun x => mkSample (x * p + p / 2) (y * p + p / 2)
                                       (colourAt img (x * p + p / 2) (y * p + p / 2)))
                           (zrange 0 (ew - 1)))
             (zrange 0 (f - 1)).
Proof.
  intros Hp Hps Hh Hw. unfold sampleGrid.
  pose proof (half_below p Hp) as Hhalf.
  apply flat_map_ext_elem. intros y Hy. apply elem_of_zrange in Hy.
  rewrite <- flat_map_singleton.
  apply flat_map_ext_elem. intros x Hx. apply elem_of_zrange in Hx.
  unfold sampleCell. cbv zeta. rewrite !(cellCentre_integer _ p ps Hps).
  destruct (Z.ltb_spec (x * p + p / 2) (width img)) as [_|Hge]; [|nia].
  destruct (Z.ltb_spec (y * p + p / 2) (height img)) as [_|Hge]; [|nia].
  reflexivity.
Qed.

Lemma integer_pitch (img : ImageData) (p f ew : Z) :
  1 <= p -> 1 <= f ->
  height img = p * f -> width img = p * ew ->
  generatePixelArt f img
  = Some (mkImageData ew f
            (flat_map (fun gy => map (fun gx => colourAt img (gx * p + p / 2) (gy * p + p / 2))
                                     (zrange 0 (ew - 1)))
                      (zrange 0 (f - 1)))).
Proof.
  intros Hp Hf Hh Hw. unfold generatePixelArt.
  destruct (Z.leb_spec f 0) as [|_]; [lia|]. cbv zeta.
  assert (Hps : (pixelSpacingOf (height img) f == inject_Z p)%Q).
  { rewrite Hh. now apply spacing_integer. }
  assert (Hew : estimatedSize (width img) (pixelSpacingOf (height img) f) = ew).
  { rewrite Hw. now apply estimatedSize_integer. }
  assert (Heh : estimatedSize (height img) (pixelSpacingOf (height img) f) = f).
  { apply estimated_height; nia. }
  rewrite Hew, Heh.
  rewrite (sampleGrid_integer img _ p f ew Hp Hps Hh Hw).
  now rewrite drawSamples_grid.
Qed.

Lemma upscale_colour (art : ImageData) (p x y : Z) :
  wfImage art -> 1 <= p ->
  0 <= x < width art -> 0 <= y < height art ->
  colourAt (nearestNeighbourUpscale p art) (x * p + p / 2) (y * p + p / 2)
  = colourAt art x y.
Proof.
  intros Hwf Hp Hx Hy. pose proof (half_below p Hp) as Hhalf.
  unfold colourAt at 1, pixelAt, nearestNeighbourUpscale. cbn [data width].
  set (row := fun y' => map (fun x' => colourAt art (x' / p) (y' / p))
                            (zrange 0 (p * width art - 1))).
  assert (Hrow : forall k, Z.of_nat (length (row k)) = p * width art).
  { intros k. unfold row. rewrite length_map, length_zrange. nia. }
  rewrite (rows_lookup row (p * width art) (p * height art)
             (x * p + p / 2) (y * p + p / 2) Hrow ltac:(nia) ltac:(nia)).
  unfold row. rewrite jsGet_map, (jsGet_zrange (p * width art)) by nia.
  cbn [option_map default]. rewrite !Z.div_add_l by lia.
  rewrite (Z.div_small (p / 2) p) by lia. now rewrite !Z.add_0_r.
Qed.


End GridReconstruction.

Section ReconstructionShape.

Lemma drawSamples_length (samples : list PixelSample) (ew eh : Z) :
  0 <= ew -> 0 <= eh ->
  Z.of_nat (length (drawSamples samples ew eh)) = ew * eh.
Proof.
  intros Hew Heh. unfold drawSamples.
  rewrite (rows_length _ ew eh); [lia | | exact Heh].
  intros k. rewrite length_map, length_zrange. lia.
Qed.

Lemma drawSamples_pixel (samples : list PixelSample) (ew eh : Z) (q : RGBA) :
  q ∈ drawSamples samples ew eh ->
  q = transparentBlack \/ exists s, s ∈ samples /\ q = scolor s.
Proof.
  intros Hq. unfold drawSamples in Hq.
  apply elem_of_flat_map_iff in Hq as (gy & _ & Hq).
  apply list_elem_of_fmap in Hq as (gx & -> & _).
  unfold canvasCell. destruct (jsGet samples (gy * ew + gx)) as [s|] eqn:Hs; [|now left].
  right. exists s. split; [|reflexivity].
  unfold jsGet in Hs. destruct (gy * ew + gx <? 0); [discriminate|].
  now apply list_elem_of_lookup_2 in Hs.
Qed.

Lemma generatePixelArt_wf (f : Z) (img out : ImageData) :
  wfImage img -> 0 < f -> generatePixelArt f img = Some out -> wfImage out.
Proof.
  intros Hwf Hf. unfold generatePixelArt.
  destruct (Z.leb_spec f 0) as [|_]; [lia|]. cbv zeta. intros [= <-].
  pose proof Hwf as (Hw & Hh & _).
  pose proof (spacing_nonneg (height img) f Hh Hf) as Hps.
  pose proof (estimatedSize_nonneg (width img) _ Hw Hps) as Hew.
  pose proof (estimatedSize_nonneg (height img) _ Hh Hps) as Heh.
  unfold wfImage. cbn [width height data].
  split; [exact Hew | split; [exact Heh | now apply drawSamples_length]].
Qed.



(** X9. The pixel-art hook, handed the samples generatePixelSamples
    stored and the stride [height / frequency] the analyzer derives,
    draws the very image the single-component generatePixelArt computes,
    provided at least one sample was taken (with none the hook returns
    early). *)
Theorem hook_reconstruction_agrees (f : Z) (img : ImageData) (st : HookState) :
  0 < f ->
  let st' := generatePixelSamples f (Some img) st in
  pixelSamples st' <> [] ->
  PixelArtHook.generatePixelArt (Some img) (width img) (height img) (Some f)
    (pixelSamples st') (pixelSpacingOf (height img) f)
  = generatePixelArt f img.
Proof.
  intros Hf st'. subst st'. unfold generatePixelSamples. cbn [orState].
  unfold PixelArtHook.generatePixelArt, generatePixelArt.
  destruct (Z.leb_spec f 0) as [|_]; [lia|]. cbv zeta. cbn [pixelSamples setPixelSamples].
  destruct (Z.eqb_spec f 0) as [|_]; [lia|]. cbn [orb].
  intros Hne.
  destruct (sampleGrid img (pixelSpacingOf (height img) f) _ _) as [|s samples] eqn:Hs;
    [congruence|].
  reflexivity.
Qed.

Lemma hook_reconstruction_agrees_witness :
  PixelArtHook.generatePixelArt (Some ringed) (width ringed) (height ringed) (Some 2)
    (pixelSamples (generatePixelSamples 2 (Some ringed) (freshState ringed)))
    (pixelSpacingOf (height ringed) 2)
  = generatePixelArt 2 ringed.
Proof.
  apply (hook_reconstruction_agrees 2 ringed (freshState ringed)); [lia|].
  vm_compute. discriminate.
Defined.
End ReconstructionShape.

(** ** Line selection on narrow images *)

Section NarrowImages.

(** X10. On an image of at most thirty columns the lines performFFT
    analyses are all the columns of the image, each exactly once, in the
    order the random source produced them. *)
Theorem narrow_image_uses_every_column (fuel : nat) (random : nat -> Q) (imgWidth : Z)
    (lines : list Z) :
  unitSource random -> 0 < imgWidth <= 30 ->
  selectLines fuel random 0 imgWidth [] ∅ = Some lines ->
  lines ≡ₚ zrange 0 (imgWidth - 1).
Proof.
  intros Hunit Hw Hrun.
  destruct (selectLines_sound random imgWidth fuel 0 [] ∅ lines Hunit ltac:(lia)
              (linesInvariant_init imgWidth ltac:(lia)) Hrun) as (Hlen & Hnd & Hrange).
  unfold lineTarget in Hlen.
  apply submseteq_length_Permutation.
  - apply NoDup_submseteq; [exact Hnd|]. intros x Hx.
    apply elem_of_zrange. specialize (Hrange x Hx). lia.
  - rewrite length_zrange. lia.
Qed.

Lemma narrow_image_uses_every_column_witness :
  [0; 1] ≡ₚ zrange 0 (2 - 1).
Proof.
  apply (narrow_image_uses_every_column 2
           (fun n => if Nat.even n then 0%Q else (1 # 2)%Q) 2 [0; 1]).
  - intros n. destruct (Nat.even n); split; reflexivity || discriminate.
  - lia.
  - vm_compute. reflexivity.
Defined.
End NarrowImages.

(** ** Order and representatives of the histogram *)

Section HistogramShape.

Lemma insertByCount_descending (e : ColorCount) (l : list ColorCount) :
  descendingCounts l -> descendingCounts (insertByCount e l).
Proof.
  induction l as [|h t IH]; intros Hl; cbn [insertByCount].
  - cbn [descendingCounts]. split; [constructor | exact I].
  - destruct Hl as [Hh Ht]. destruct (Z.leb_spec (count h) (count e)) as [Hle|Hgt].
    + cbn [descendingCounts]. split; [|split; assumption].
      constructor; [exact Hle|].
      eapply Forall_impl; [exact Hh|]. intros x Hx. cbn beta in Hx. lia.
    + cbn [descendingCounts]. split; [|now apply IH].
      rewrite (insertByCount_perm e t). constructor; [lia | exact Hh].
Qed.

Lemma sortByCount_descending (l : list ColorCount) : descendingCounts (sortByCount l).
Proof.
  induction l as [|e l IH]; [exact I|]. cbn [sortByCount fold_right].
  fold (sortByCount l). now apply insertByCount_descending.
Qed.

Lemma withCount_cons (c : Z) (h : ColorCount) (t : list ColorCount) :
  withCount c (h :: t)
  = if decide (count h = c) then h :: withCount c t else withCount c t.
Proof. unfold withCount. now rewrite filter_cons. Qed.

Lemma withCount_insert (c : Z) (e : ColorCount) (l : list ColorCount) :
  withCount c (insertByCount e l)
  = if decide (count e = c) then e :: withCount c l else withCount c l.
Proof.
  induction l as [|h t IH]; cbn [insertByCount].
  - rewrite withCount_cons. reflexivity.
  - destruct (Z.leb_spec (count h) (count e)) as [Hle|Hgt].
    + rewrite (withCount_cons c e). reflexivity.
    + rewrite !(withCount_cons c h), IH.
      destruct (decide (count e = c)) as [He|He];
        destruct (decide (count h = c)) as [Hh|Hh]; try reflexivity. lia.
Qed.

Lemma sortByCount_stable (c : Z) (l : list ColorCount) :
  withCount c (sortByCount l) = withCount c l.
Proof.
  induction l as [|e l IH]; [reflexivity|]. cbn [sortByCount fold_right].
  fold (sortByCount l). rewrite withCount_insert, withCount_cons, IH. reflexivity.
Qed.

(** X11. The histogram is in descending order of count, and entries of
    equal count stay in the order in which the counting loop created
    them (the order in which their colours first appear in the buffer). *)
Theorem histogram_descending_and_stable (pixelArtData : ImageData) :
  descendingCounts (generateColorHistogram pixelArtData) /\
  (forall c, withCount c (generateColorHistogram pixelArtData)
             = withCount c (countColors (data pixelArtData))).
Proof.
  unfold generateColorHistogram. split.
  - apply sortByCount_descending.
  - intros c. apply sortByCount_stable.
Qed.

Lemma firstVisible_snoc (data : list RGBA) (p q : RGBA) :
  firstVisibleWithKey data p -> firstVisibleWithKey (data ++ [q]) p.
Proof.
  intros (pre & post & -> & Ha & Hfirst).
  exists pre, (post ++ [q]). split; [now rewrite <- app_assoc|]. now split.
Qed.

Lemma countColors_first (data : list RGBA) :
  forall e, e ∈ countColors data ->
    color e = colorKeyOf (rgba e) /\ firstVisibleWithKey data (rgba e).
Proof.
  induction data as [|p data IH] using rev_ind; [intros e He; inversion He|].
  rewrite countColors_snoc. unfold countPixel.
  destruct (Z.eqb_spec (alpha p) 0) as [Hz|Hnz].
  { intros e He. destruct (IH e He) as [Hk Hf].
    split; [exact Hk | now apply firstVisible_snoc]. }
  cbv zeta. destruct (hasKey (colorKeyOf p) (countColors data)) eqn:Hkey.
  - intros e' He'. apply list_elem_of_fmap in He' as (e & -> & He).
    destruct (IH e He) as [Hk Hf].
    assert (Hrgba : rgba (bump (colorKeyOf p) e) = rgba e).
    { unfold bump. destruct (String.eqb (color e) (colorKeyOf p)); reflexivity. }
    rewrite bump_color, Hrgba. split; [exact Hk | now apply firstVisible_snoc].
  - intros e He. apply elem_of_app in He as [He | He].
    + destruct (IH e He) as [Hk Hf]. split; [exact Hk | now apply firstVisible_snoc].
    + apply list_elem_of_singleton in He. subst e. cbn [color rgba].
      split; [reflexivity|].
      exists data, []. split; [reflexivity|]. split; [exact Hnz|].
      intros q Hq Hqa Heq.
      destruct (countColors_invariant data) as (_ & _ & Hcover & _).
      destruct (Hcover q Hq Hqa) as (e & He & Hcolor).
      assert (Htrue : hasKey (colorKeyOf p) (countColors data) = true).
      { apply hasKey_true. exists e. split; [exact He | congruence]. }
      congruence.
Qed.

(** X12. The colour an entry of the histogram carries is a pixel of the
    image: the first pixel, in buffer order, that is not fully
    transparent and has the entry's colour key; the key of the entry is
    the key of that pixel, so the alpha the entry reports is the alpha of
    that first pixel. *)
Theorem histogram_entry_is_first_pixel (pixelArtData : ImageData) (e : ColorCount) :
  e ∈ generateColorHistogram pixelArtData ->
  color e = colorKeyOf (rgba e) /\
  firstVisibleWithKey (data pixelArtData) (rgba e).
Proof.
  unfold generateColorHistogram. rewrite sortByCount_perm. apply countColors_first.
Qed.

Lemma histogram_entry_is_first_pixel_witness :
  let e := mkColorCount "#c80000" 8 crimson in
  color e = colorKeyOf (rgba e) /\ firstVisibleWithKey (data ringed) (rgba e).
Proof.
  apply (histogram_entry_is_first_pixel ringed (mkColorCount "#c80000" 8 crimson)).
  vm_compute. apply list_elem_of_further, list_elem_of_here.
Defined.
End HistogramShape.

Section HistogramMatte.

Lemma totalCount_lower (l : list ColorCount) :
  (forall e, e ∈ l -> 1 <= count e) -> Z.of_nat (length l) <= totalCount l.
Proof.
  induction l as [|h t IH]; intros Hall; cbn [totalCount fold_right length]; [lia|].
  fold (totalCount t).
  pose proof (Hall h (list_elem_of_here _ _)).
  assert (Z.of_nat (length t) <= totalCount t).
  { apply IH. intros e He. apply Hall. now apply list_elem_of_further. }
  lia.
Qed.

Lemma pixel_of_key (data : list RGBA) (key : string) :
  0 < countByKey data key ->
  exists p, p ∈ data /\ alpha p <> 0 /\ colorKeyOf p = key.
Proof.
  unfold countByKey, visiblePixels. intros Hpos.
  destruct (filter (fun p => colorKeyOf p = key) (filter (fun p => alpha p <> 0) data))
    as [|p l] eqn:Hf; [cbn [length] in Hpos; lia|].
  assert (Hp : p ∈ filter (fun p => colorKeyOf p = key)
                      (filter (fun p => alpha p <> 0) data)).
  { rewrite Hf. apply list_elem_of_here. }
  apply list_elem_of_filter in Hp as [Hk Hp].
  apply list_elem_of_filter in Hp as [Ha Hp].
  now exists p.
Qed.

(** The first entry of the histogram is a most frequent colour. *)
Lemma top_is_most_frequent (data : list RGBA) (top : ColorCount) (rest : list ColorCount) :
  sortByCount (countColors data) = top :: rest ->
  forall key, countByKey data key <= countByKey data (colorKeyOf (rgba top)).
Proof.
  intros Hsorted key.
  pose proof (sortByCount_perm (countColors data)) as Hperm.
  pose proof (sortByCount_descending (countColors data)) as Hdesc.
  rewrite Hsorted in Hperm, Hdesc. destruct Hdesc as [Hrest _].
  destruct (countColors_invariant data) as (_ & Hcount & Hcover & _).
  assert (Htop : top ∈ countColors data).
  { rewrite <- Hperm. apply list_elem_of_here. }
  destruct (countColors_first data top Htop) as [Hkey _].
  destruct (Hcount top Htop) as [Hc Hone]. rewrite <- Hkey, <- Hc.
  pose proof (countByKey_nonneg data key) as Hnn.
  destruct (decide (countByKey data key = 0)) as [Hz|Hnz]; [lia|].
  destruct (pixel_of_key data key ltac:(lia)) as (p & Hp & Ha & Hk).
  destruct (Hcover p Hp Ha) as (e & He & Hcolor).
  destruct (Hcount e He) as [Hce _]. rewrite Hcolor, Hk in Hce. rewrite <- Hce.
  rewrite <- Hperm in He. apply elem_of_cons in He as [-> | He]; [lia|].
  rewrite Forall_forall in Hrest. now apply Hrest.
Qed.

Lemma histogram_empty (data : list RGBA) :
  sortByCount (countColors data) = [] <-> visiblePixels data = [].
Proof.
  pose proof (sortByCount_perm (countColors data)) as Hperm.
  destruct (countColors_invariant data) as (_ & Hcount & _ & Htotal).
  split.
  - intros Hnil. rewrite Hnil in Hperm. apply Permutation_nil_l in Hperm.
    rewrite <- Hperm in Htotal. cbn [totalCount fold_right] in Htotal.
    destruct (visiblePixels data); [reflexivity | cbn [length] in Htotal; lia].
  - intros Hnil. rewrite Hnil in Htotal. cbn [length] in Htotal.
    pose proof (totalCount_lower (countColors data) (fun e He => proj2 (Hcount e He))) as Hlow.
    destruct (countColors data) as [|e l] eqn:Hcc; [reflexivity|].
    cbn [length] in Hlow. lia.
Qed.

(** X13. GenerateColorHistogram as a whole.  When no pixel of the
    picture is visible the histogram is empty and no matte is made: the
    store is left as it was.  Otherwise the matte is made, and the target
    colour handed to createTransparentVersion is the first visible pixel
    of a colour key that no other key outnumbers. *)
Theorem matte_targets_most_frequent_colour (img : ImageData) (fuel : nat)
    (store : Store) (source : nat) :
  wfImage img -> store !! source = Some (data img) ->
  (fillFuel (width img) (height img) <= fuel)%nat ->
  (visiblePixels (data img) = [] ->
   histogramAndMatte fuel source (width img) (height img) store
   = Some ([], store, None)) /\
  (visiblePixels (data img) <> [] ->
   exists top rest store' transparent,
     histogramAndMatte fuel source (width img) (height img) store
     = Some (top :: rest, store', Some transparent) /\
     createTransparentVersion fuel (rgba top) source (width img) (height img) store
     = Some (store', transparent) /\
     firstVisibleWithKey (data img) (rgba top) /\
     forall key, countByKey (data img) key
                 <= countByKey (data img) (colorKeyOf (rgba top))).
Proof.
  intros Hwf Hsrc Hfuel. unfold histogramAndMatte. rewrite Hsrc. cbv zeta.
  unfold generateColorHistogram. cbn [data].
  pose proof (histogram_empty (data img)) as Hempty.
  destruct (sortByCount (countColors (data img))) as [|top rest] eqn:Hsorted.
  - split; [reflexivity|]. intros Hne. exfalso. apply Hne. now apply Hempty.
  - split; [intros Hnil; apply Hempty in Hnil; discriminate|]. intros _.
    destruct (floodFill_correct img (rgba top) Hwf fuel Hfuel)
      as (visited & out & Hfill & _).
    pose proof (createTransparentVersion_unfold img (rgba top) fuel store source
                  visited out Hsrc Hfill) as Hmatte.
    rewrite Hmatte.
    exists top, rest, (<[length store := out]> (store ++ [data img])), (length store).
    split; [reflexivity|]. split; [exact Hmatte|]. split.
    + apply countColors_first. rewrite <- (sortByCount_perm (countColors (data img))).
      rewrite Hsorted. apply list_elem_of_here.
    + now apply (top_is_most_frequent (data img) top rest).
Qed.

Lemma matte_targets_most_frequent_colour_witness :
  (visiblePixels (data ringed) = [] ->
   histogramAndMatte 60 0 (width ringed) (height ringed) [data ringed]
   = Some ([], [data ringed], None)) /\
  (visiblePixels (data ringed) <> [] ->
   exists top rest store' transparent,
     histogramAndMatte 60 0 (width ringed) (height ringed) [data ringed]
     = Some (top :: rest, store', Some transparent) /\
     createTransparentVersion 60 (rgba top) 0 (width ringed) (height ringed) [data ringed]
     = Some (store', transparent) /\
     firstVisibleWithKey (data ringed) (rgba top) /\
     forall key, countByKey (data ringed) key
                 <= countByKey (data ringed) (colorKeyOf (rgba top))).
Proof.
  apply (matte_targets_most_frequent_colour ringed 60 [data ringed] 0).
  - unfold wfImage, ringed. cbn [width height data length]. lia.
  - reflexivity.
  - vm_compute. lia.
Defined.
End HistogramMatte.

(** ** Shapes of the matte *)

Section MatteShape.

Lemma buffer_ext (l1 l2 : list RGBA) (W H : Z) :
  0 <= W -> 0 <= H ->
  Z.of_nat (length l1) = W * H -> Z.of_nat (length l2) = W * H ->
  (forall x y, inBounds W H x y -> pixelAt l1 W x y = pixelAt l2 W x y) ->
  l1 = l2.
Proof.
  intros HW HH Hl1 Hl2 Hpix.
  destruct (decide (W = 0)) as [->|Hne].
  - destruct l1, l2; cbn [length] in *; try lia. reflexivity.
  - apply (grid_ext l1 l2 W H); try lia.
    intros x y Hx Hy. apply (Hpix x y). now split.
Qed.

Lemma borderConnected_matches (img : ImageData) (target : RGBA) (x y : Z) :
  borderConnected img target x y -> matchesAt img target x y.
Proof. now destruct 1. Qed.

Lemma in_bounds_pixel (img : ImageData) (x y : Z) :
  wfImage img -> inBounds (width img) (height img) x y ->
  pixelAt (data img) (width img) x y = Some (colourAt img x y) /\
  colourAt img x y ∈ data img.
Proof.
  intros Hwf [Hx Hy]. pose proof (pixelAt_defined img x y Hwf Hx Hy) as Hp.
  split; [exact Hp|]. unfold pixelAt, jsGet in Hp.
  destruct (y * width img + x <? 0); [discriminate|].
  now apply list_elem_of_lookup_2 in Hp.
Qed.

(** When every pixel matches, every pixel is reached from the top row. *)
Lemma uniform_connected (img : ImageData) (target : RGBA) :
  wfImage img ->
  (forall p, p ∈ data img -> withinTolerance target p) ->
  forall x y, inBounds (width img) (height img) x y -> borderConnected img target x y.
Proof.
  intros Hwf Hall.
  assert (Hmatch : forall x y, inBounds (width img) (height img) x y ->
                               matchesAt img target x y).
  { intros x y Hin. destruct (in_bounds_pixel img x y Hwf Hin) as [Hp Hel].
    exists (colourAt img x y). split; [exact Hp | now apply Hall]. }
  intros x y [Hx [Hy0 Hy]]. revert Hy. pattern y. apply natlike_ind; [| |exact Hy0].
  - intros Hh. apply bc_border.
    + split; [exact Hx | lia].
    + unfold onBorder. lia.
    + apply Hmatch. split; [exact Hx | lia].
  - intros y' Hy' IH Hlt. apply (bc_step img target x y' x (Z.succ y')).
    + apply IH. lia.
    + unfold adjacent. lia.
    + split; [exact Hx | lia].
    + apply Hmatch. split; [exact Hx | lia].
Qed.

(** X14. When every pixel of the picture is within the tolerance of the
    target colour, the matte makes the whole picture transparent: the
    buffer it returns is the input with every alpha set to 0. *)
Theorem uniform_picture_is_removed (img : ImageData) (target : RGBA) (fuel : nat) :
  wfImage img -> (fillFuel (width img) (height img) <= fuel)%nat ->
  (forall p, p ∈ data img -> withinTolerance target p) ->
  exists visited,
    floodFill fuel target (width img) (height img) (data img)
    = Some (visited, map zeroAlpha (data img)).
Proof.
  intros Hwf Hfuel Hall.
  destruct (floodFill_correct img target Hwf fuel Hfuel) as (visited & out & Hfill & Hinv).
  exists visited. rewrite Hfill. do 2 f_equal.
  pose proof Hwf as (HW & HH & Hlen).
  apply (buffer_ext _ _ (width img) (height img) HW HH).
  - rewrite (fill_length img target Hwf [] visited out Hinv). exact Hlen.
  - rewrite length_map. exact Hlen.
  - intros x y Hin.
    destruct (fill_result img target visited out Hinv x y Hin) as (_ & Hremoved & _).
    rewrite (Hremoved (uniform_connected img target Hwf Hall x y Hin)).
    unfold pixelAt. now rewrite jsGet_map.
Qed.

Lemma uniform_picture_is_removed_witness :
  exists visited,
    floodFill 10 grey (width singlePixel) (height singlePixel) (data singlePixel)
    = Some (visited, map zeroAlpha (data singlePixel)).
Proof.
  apply (uniform_picture_is_removed singlePixel grey 10).
  - unfold wfImage, singlePixel. cbn [width height data length]. lia.
  - vm_compute. lia.
  - intros p Hp. apply list_elem_of_singleton in Hp. subst p.
    unfold withinTolerance, tolerance, grey, opaque. cbn [red green blue]. lia.
Defined.

(** X15. On a picture at most two pixels wide or at most two pixels
    high every pixel is a border pixel, so the matte is a plain colour
    key: a pixel is made transparent exactly when it is within the
    tolerance of the target, connected or not. *)
Theorem thin_picture_matte_is_colour_key (img : ImageData) (target : RGBA) (fuel : nat) :
  wfImage img -> (fillFuel (width img) (height img) <= fuel)%nat ->
  width img <= 2 \/ height img <= 2 ->
  exists visited out,
    floodFill fuel target (width img) (height img) (data img) = Some (visited, out) /\
    forall x y, inBounds (width img) (height img) x y ->
      (matchesAt img target x y ->
       pixelAt out (width img) x y
       = option_map zeroAlpha (pixelAt (data img) (width img) x y)) /\
      (~ matchesAt img target x y ->
       pixelAt out (width img) x y = pixelAt (data img) (width img) x y).
Proof.
  intros Hwf Hfuel Hthin.
  destruct (floodFill_correct img target Hwf fuel Hfuel) as (visited & out & Hfill & Hinv).
  exists visited, out. split; [exact Hfill|]. intros x y Hin.
  destruct (fill_result img target visited out Hinv x y Hin) as (_ & Hremoved & Hkept).
  split.
  - intros Hm. apply Hremoved. apply bc_border; [exact Hin | | exact Hm].
    destruct Hin as [Hx Hy]. unfold onBorder. lia.
  - intros Hnm. apply Hkept. intros Hbc. apply Hnm.
    now apply borderConnected_matches.
Qed.

Lemma thin_picture_matte_is_colour_key_witness :
  let img := mkImageData 2 3 [grey; crimson; crimson; grey; grey; grey] in
  exists visited out,
    floodFill 20 grey (width img) (height img) (data img) = Some (visited, out) /\
    forall x y, inBounds (width img) (height img) x y ->
      (matchesAt img grey x y ->
       pixelAt out (width img) x y
       = option_map zeroAlpha (pixelAt (data img) (width img) x y)) /\
      (~ matchesAt img grey x y ->
       pixelAt out (width img) x y = pixelAt (data img) (width img) x y).
Proof.
  apply (thin_picture_matte_is_colour_key
           (mkImageData 2 3 [grey; crimson; crimson; grey; grey; grey]) grey 20).
  - unfold wfImage. cbn [width height data length]. lia.
  - vm_compute. lia.
  - left. cbn [width]. lia.
Defined.
End MatteShape.

Section MatteIdempotence.
Variable img : ImageData.
Variable target : RGBA.
Variable visited : list bool.
Variable out : list RGBA.
Hypothesis Hwf : wfImage img.
Hypothesis Hinv : fillInvariant img target noExempt [] visited out.

(** The picture the matte produced, seen as an image again. *)
Let matted : ImageData := mkImageData (width img) (height img) out.

Lemma matted_wf : wfImage matted.
Proof.
  destruct Hwf as (HW & HH & _). destruct Hinv as (_ & Hlen & _).
  unfold wfImage, matted. cbn [width height data]. auto.
Qed.

Lemma withinTolerance_zeroAlpha (p : RGBA) :
  withinTolerance target (zeroAlpha p) <-> withinTolerance target p.
Proof. unfold withinTolerance, zeroAlpha. cbn [red green blue]. reflexivity. Qed.

Lemma matted_matches (x y : Z) :
  inBounds (width img) (height img) x y ->
  (matchesAt matted target x y <-> matchesAt img target x y).
Proof.
  intros Hin. destruct Hinv as (_ & _ & Hrel & _).
  destruct (in_bounds_pixel img x y Hwf Hin) as [Hp _].
  unfold matchesAt, matted. cbn [width data].
  destruct (Hrel x y Hin) as [Heq | Heq]; rewrite Heq, Hp; cbn [option_map].
  - reflexivity.
  - split; intros (p & [= <-] & Hp').
    + exists (colourAt img x y). split; [reflexivity|].
      now apply withinTolerance_zeroAlpha.
    + exists (zeroAlpha (colourAt img x y)). split; [reflexivity|].
      now apply withinTolerance_zeroAlpha.
Qed.

Lemma matted_connected (x y : Z) :
  borderConnected matted target x y <-> borderConnected img target x y.
Proof.
  split.
  - induction 1 as [x y Hin Hb Hm | x y x' y' _ IH Hadj Hin' Hm'].
    + apply bc_border; [exact Hin | exact Hb | now apply matted_matches].
    + apply (bc_step img target x y x' y'); [exact IH | exact Hadj | exact Hin' |].
      now apply matted_matches.
  - induction 1 as [x y Hin Hb Hm | x y x' y' _ IH Hadj Hin' Hm'].
    + apply bc_border; [exact Hin | exact Hb | now apply matted_matches].
    + apply (bc_step matted target x y x' y'); [exact IH | exact Hadj | exact Hin' |].
      now apply matted_matches.
Qed.

Lemma refill_same (visited' : list bool) (out' : list RGBA) :
  fillInvariant matted target noExempt [] visited' out' -> out' = out.
Proof.
  intros Hinv'. pose proof Hwf as (HW & HH & Hlen).
  apply (buffer_ext _ _ (width img) (height img) HW HH).
  - destruct Hinv' as (_ & Hl & _). exact Hl.
  - destruct Hinv as (_ & Hl & _). exact Hl.
  - intros x y Hin.
    destruct (fill_result matted target visited' out' Hinv' x y Hin)
      as (_ & Hremoved' & Hkept').
    destruct (fill_result img target visited out Hinv x y Hin)
      as (Hiff & Hremoved & _).
    cbn [width data matted] in Hremoved', Hkept'.
    destruct (isVisited visited (linearIndex (width img) x y)) eqn:Hv.
    + assert (Hbc : borderConnected img target x y) by now apply Hiff.
      rewrite (Hremoved' (proj2 (matted_connected x y) Hbc)).
      rewrite (Hremoved Hbc). apply zeroAlpha_idem.
    + apply Hkept'. intros Hbc'. apply matted_connected in Hbc'.
      apply Hiff in Hbc'. congruence.
Qed.
End MatteIdempotence.

(** X16. The matte is idempotent.  Running the fill again, with the
    same target colour, on the buffer a first run returned gives that
    buffer back unchanged: the removed pixels still match (only their
    alpha changed) and nothing new becomes reachable. *)
Theorem matte_is_idempotent (img : ImageData) (target : RGBA) (fuel : nat)
    (visited : list bool) (out : list RGBA) :
  wfImage img -> (fillFuel (width img) (height img) <= fuel)%nat ->
  floodFill fuel target (width img) (height img) (data img) = Some (visited, out) ->
  exists visited',
    floodFill fuel target (width img) (height img) out = Some (visited', out).
Proof.
  intros Hwf Hfuel Hfill.
  destruct (floodFill_correct img target Hwf fuel Hfuel) as (v0 & o0 & Hfill0 & Hinv).
  rewrite Hfill in Hfill0. injection Hfill0 as <- <-.
  pose proof (matted_wf img target visited out Hwf Hinv) as Hwf'.
  destruct (floodFill_correct _ target Hwf' fuel Hfuel) as (visited' & out' & Hfill' & Hinv').
  cbn [width height data] in Hfill'.
  exists visited'. rewrite Hfill'.
  now rewrite (refill_same img target visited out Hwf Hinv visited' out' Hinv').
Qed.

Lemma matte_is_idempotent_witness :
  let z := zeroAlpha grey in
  let out := [z; z; z; z; z;
              z; crimson; crimson; crimson; z;
              z; crimson; grey; crimson; z;
              z; crimson; crimson; crimson; z;
              z; z; z; z; z] in
  exists visited',
    floodFill 60 grey (width ringed) (height ringed) out = Some (visited', out).
Proof.
  apply (matte_is_idempotent ringed grey 60
           [true; true; true; true; true;
            true; false; false; false; true;
            true; false; false; false; true;
            true; false; false; false; true;
            true; true; true; true; true]).
  - unfold wfImage, ringed. cbn [width height data length]. lia.
  - vm_compute. lia.
  - vm_compute. reflexivity.
Defined.

(** ** Saved pixel art *)

Section StorageFacts.
Import PixelArtStorage.
Variable accepts : list SavedPixelArt -> bool.

Lemma filter_all {A} (P : A -> Prop) `{forall a, Decision (P a)} (l : list A) :
  (forall a, a ∈ l -> P a) -> filter P l = l.
Proof.
  induction l as [|a l IH]; intros Hall; [reflexivity|].
  rewrite filter_cons. destruct (decide (P a)) as [_|Hn].
  - rewrite IH; [reflexivity|]. intros b Hb. apply Hall. now apply list_elem_of_further.
  - exfalso. apply Hn, Hall, list_elem_of_here.
Qed.

(** X17. What savePixelArt leaves in the storage.  When it returns, the
    stored list is the new item followed by the first 49 of the items
    held before, or, when that write was refused for lack of room, by the
    first 20 of them; either way the newest item is first, the older ones
    keep their order and at most 50 items are stored, however many were
    held before.  When it throws, the storage is as it was. *)
Theorem save_keeps_newest_first (now1 now2 : Z) (defaultName name dataURL : string)
    (transparentDataURL : option string) (width height colorCount : option Z)
    (s : Stored) :
  let existing := getAllSavedPixelArt s in
  match savePixelArt accepts now1 now2 defaultName name dataURL transparentDataURL
          width height colorCount s with
  | (Some savedArt, s') =>
      id savedArt = now1 /\
      (length (getAllSavedPixelArt s') <= 50)%nat /\
      (getAllSavedPixelArt s' = savedArt :: take 49 existing \/
       (accepts (savedArt :: take 49 existing) = false /\
        getAllSavedPixelArt s' = savedArt :: take 20 existing))
  | (None, s') => s' = s
  end.
Proof.
  cbv zeta. unfold savePixelArt. cbv zeta.
  change (take 50 (?a :: ?l)) with (a :: take 49 l).
  unfold setItem.
  destruct (accepts (_ :: take 49 (getAllSavedPixelArt s))) eqn:Hfirst.
  - cbn [getAllSavedPixelArt id]. split; [reflexivity|]. split; [|now left].
    cbn [length]. rewrite length_take. lia.
  - destruct (0 <? length (getAllSavedPixelArt s))%nat; [|reflexivity].
    destruct (accepts (_ :: take 20 (getAllSavedPixelArt s))) eqn:Hsecond; [|reflexivity].
    cbn [getAllSavedPixelArt id]. split; [reflexivity|]. split; [|right; now split].
    cbn [length]. rewrite length_take. lia.
Qed.

(** X18 (round trip). Saving an item and then deleting the id it was
    given restores the list that was stored before, provided fewer than
    50 items were stored, none of them had that id, and the storage takes
    both writes. *)
Theorem save_then_delete_restores (now1 now2 : Z) (defaultName name dataURL : string)
    (transparentDataURL : option string) (width height colorCount : option Z)
    (s : Stored) :
  (forall items, accepts items = true) ->
  (length (getAllSavedPixelArt s) < 50)%nat ->
  (forall art, art ∈ getAllSavedPixelArt s -> id art <> now1) ->
  exists savedArt s' s'',
    savePixelArt accepts now1 now2 defaultName name dataURL transparentDataURL
      width height colorCount s = (Some savedArt, s') /\
    deletePixelArt accepts (id savedArt) s' = Some s'' /\
    getAllSavedPixelArt s'' = getAllSavedPixelArt s.
Proof.
  intros Hroom Hlen Hfresh. unfold savePixelArt. cbv zeta.
  unfold setItem. rewrite Hroom.
  eexists _, _, _. split; [reflexivity|].
  unfold deletePixelArt, setItem. cbv zeta. rewrite Hroom.
  split; [reflexivity|]. cbn [getAllSavedPixelArt id].
  change (take 50 (?a :: ?l)) with (a :: take 49 l).
  rewrite filter_cons. cbn [id].
  destruct (decide (now1 <> now1)) as [Hne|_]; [congruence|].
  rewrite take_ge by lia. now apply filter_all.
Qed.

(** X19. DeletePixelArt removes every item with the given id, keeps the
    others in their order, and is idempotent: deleting the same id again
    changes nothing. *)
Theorem delete_removes_all_with_id (target : Z) (s s' : Stored) :
  deletePixelArt accepts target s = Some s' ->
  getAllSavedPixelArt s' = filter (fun art => id art <> target) (getAllSavedPixelArt s) /\
  (forall art, art ∈ getAllSavedPixelArt s' -> id art <> target) /\
  deletePixelArt accepts target s' = Some s'.
Proof.
  unfold deletePixelArt, setItem. cbv zeta.
  destruct (accepts (filter _ (getAllSavedPixelArt s))) eqn:Hacc; [|discriminate].
  intros [= <-]. cbn [getAllSavedPixelArt]. split; [reflexivity|]. split.
  - intros art Hart. now apply list_elem_of_filter in Hart as [Hid _].
  - rewrite (filter_all (fun art => id art <> target)).
    + now rewrite Hacc.
    + intros art Hart. now apply list_elem_of_filter in Hart as [Hid _].
Qed.
End StorageFacts.

Lemma save_then_delete_restores_witness :
  exists savedArt s' s'',
    PixelArtStorage.savePixelArt (fun _ => true) 7 8 "art" EmptyString "url" None
      None (Some 16) None
      (PixelArtStorage.Items
         [PixelArtStorage.mkSavedPixelArt 3 "old" "u" None 32 32 3 4])
    = (Some savedArt, s') /\
    PixelArtStorage.deletePixelArt (fun _ => true) (PixelArtStorage.id savedArt) s'
    = Some s'' /\
    PixelArtStorage.getAllSavedPixelArt s''
    = PixelArtStorage.getAllSavedPixelArt
        (PixelArtStorage.Items
           [PixelArtStorage.mkSavedPixelArt 3 "old" "u" None 32 32 3 4]).
Proof.
  apply (save_then_delete_restores (fun _ => true) 7 8 "art" EmptyString "url" None
           None (Some 16) None).
  - reflexivity.
  - cbn. lia.
  - intros art Hart. cbn [PixelArtStorage.getAllSavedPixelArt] in Hart.
    apply list_elem_of_singleton in Hart. subst art. cbn. lia.
Defined.

Lemma delete_removes_all_with_id_witness :
  let old := PixelArtStorage.mkSavedPixelArt 3 "old" "u" None 32 32 3 4 in
  let twin := PixelArtStorage.mkSavedPixelArt 5 "a" "u" None 32 32 5 1 in
  let s' := PixelArtStorage.Items [old] in
  PixelArtStorage.getAllSavedPixelArt s'
  = filter (fun art => PixelArtStorage.id art <> 5)
      (PixelArtStorage.getAllSavedPixelArt (PixelArtStorage.Items [twin; old; twin])) /\
  (forall art, art ∈ PixelArtStorage.getAllSavedPixelArt s' ->
               PixelArtStorage.id art <> 5) /\
  PixelArtStorage.deletePixelArt (fun _ => true) 5 s' = Some s'.
Proof.
  apply (delete_removes_all_with_id (fun _ => true) 5
           (PixelArtStorage.Items
              [PixelArtStorage.mkSavedPixelArt 5 "a" "u" None 32 32 5 1;
               PixelArtStorage.mkSavedPixelArt 3 "old" "u" None 32 32 3 4;
               PixelArtStorage.mkSavedPixelArt 5 "a" "u" None 32 32 5 1])).
  reflexivity.
Defined.

(** ** The spinners *)

Section SpinnerFacts.
Local Open Scope Q_scope.

Lemma jsRound_bounds (q : Q) :
  q - (1 # 2) < inject_Z (jsRound q) /\ inject_Z (jsRound q) <= q + (1 # 2).
Proof.
  unfold jsRound.
  pose proof (Qfloor_le (q + (1 # 2))) as Hle.
  pose proof (Qlt_floor (q + (1 # 2))) as Hlt.
  rewrite inject_Z_plus in Hlt. change (inject_Z 1) with 1 in Hlt.
  split; [Lqa.lra | exact Hle].
Qed.

Lemma mathMin_cases (a b : Q) :
  (a <= b /\ mathMin a b = a) \/ (b < a /\ mathMin a b = b).
Proof.
  unfold mathMin. destruct (Qle_bool a b) eqn:Hab.
  - left. split; [now apply Qle_bool_iff | reflexivity].
  - right. split; [|reflexivity]. apply Qnot_le_lt. intros Hle.
    apply Qle_bool_iff in Hle. congruence.
Qed.

Lemma mathMax_cases (a b : Q) :
  (a <= b /\ mathMax a b = b) \/ (b < a /\ mathMax a b = a).
Proof.
  unfold mathMax. destruct (Qle_bool a b) eqn:Hab.
  - left. split; [now apply Qle_bool_iff | reflexivity].
  - right. split; [|reflexivity]. apply Qnot_le_lt. intros Hle.
    apply Qle_bool_iff in Hle. congruence.
Qed.
End SpinnerFacts.

(** Linear arithmetic over [Q] once the divisions by 10 and by 100 are
    written as multiplications. *)
Ltac scaled_arith :=
  unfold Qdiv in *;
  change (/ 100)%Q with (1 # 100)%Q in *; change (/ 10)%Q with (1 # 10)%Q in *;
  Lqa.lra.

Section SpinnerBounds.
Import OffsetStrideSpinner.
Local Open Scope Q_scope.

Lemma incrementOffset_bounds (offset : Q) :
  0 <= offset -> 0 <= incrementOffset offset <= 1 /\
  (offset < 1 -> offset < incrementOffset offset).
Proof.
  intros Ho. unfold incrementOffset.
  destruct (jsRound_bounds ((offset + (5 # 100)) * 100)) as [Hlo Hhi].
  destruct (mathMin_cases 1 (inject_Z (jsRound ((offset + (5 # 100)) * 100)) / 100))
    as [[Hc ->] | [Hc ->]]; (split; [split | intros Hlt]); scaled_arith.
Qed.

Lemma decrementOffset_bounds (offset : Q) :
  offset <= 1 -> 0 <= decrementOffset offset <= 1 /\
  (0 < offset -> decrementOffset offset < offset).
Proof.
  intros Ho. unfold decrementOffset.
  destruct (jsRound_bounds ((offset - (5 # 100)) * 100)) as [Hlo Hhi].
  destruct (mathMax_cases 0 (inject_Z (jsRound ((offset - (5 # 100)) * 100)) / 100))
    as [[Hc ->] | [Hc ->]]; (split; [split | intros Hlt]); scaled_arith.
Qed.

Lemma incrementStride_bounds (stride : Q) :
  stride < incrementStride stride.
Proof.
  unfold incrementStride.
  destruct (jsRound_bounds ((stride + (1 # 10)) * 10)) as [Hlo Hhi]. scaled_arith.
Qed.

Lemma decrementStride_bounds (stride : Q) :
  (1 # 10) <= decrementStride stride /\
  ((1 # 10) < stride -> decrementStride stride < stride).
Proof.
  unfold decrementStride.
  destruct (jsRound_bounds ((stride - (1 # 10)) * 10)) as [Hlo Hhi].
  destruct (mathMax_cases (1 # 10) (inject_Z (jsRound ((stride - (1 # 10)) * 10)) / 10))
    as [[Hc ->] | [Hc ->]]; (split; [| intros Hlt]); scaled_arith.
Qed.

(** X20. No event of the offset and stride controls (typing a value,
    which may fail to parse or be out of range, or pressing a plus or
    minus button) takes the offset out of [[0, 1]] or the stride below
    [0.1]. *)
Theorem spinner_state_stays_valid (e : Event) (s : Q * Q) :
  0 <= fst s <= 1 -> (1 # 10) <= snd s ->
  0 <= fst (step e s) <= 1 /\ (1 # 10) <= snd (step e s).
Proof.
  intros Ho Hs. destruct s as [offset stride]. cbn [fst snd] in *.
  destruct e as [value | value | | | |]; cbn [step fst snd].
  - split; [|exact Hs]. unfold handleOffsetChange.
    destruct value as [v|]; [|exact Ho].
    destruct (Qle_bool 0 v) eqn:H0; [|exact Ho].
    destruct (Qle_bool v 1) eqn:H1; [|exact Ho].
    cbn [andb]. apply Qle_bool_iff in H0, H1. now split.
  - split; [exact Ho|]. unfold handleStrideChange.
    destruct value as [v|]; [|exact Hs].
    destruct (Qle_bool (1 # 10) v) eqn:H0; [|exact Hs].
    now apply Qle_bool_iff in H0.
  - split; [|exact Hs]. apply incrementOffset_bounds. apply Ho.
  - split; [|exact Hs]. apply decrementOffset_bounds. apply Ho.
  - split; [exact Ho|]. pose proof (incrementStride_bounds stride). scaled_arith.
  - split; [exact Ho|]. apply decrementStride_bounds.
Qed.

Lemma spinner_state_stays_valid_witness :
  0 <= fst (step OffsetPlus (98 # 100, 1)) <= 1 /\
  (1 # 10) <= snd (step OffsetPlus (98 # 100, 1)).
Proof.
  apply (spinner_state_stays_valid OffsetPlus (98 # 100, 1)); cbn [fst snd].
  - split; discriminate.
  - discriminate.
Defined.


End SpinnerBounds.

Section TemperatureBounds.
Import TemperatureSpinner.
Local Open Scope Q_scope.

(** X22. The temperature control keeps the temperature in [[0, 2]]:
    a typed value is taken only when it parses and lies in that range,
    and the plus and minus buttons clamp at 2 and at 0. *)
Theorem temperature_stays_in_range (value : option Q) (temperature : Q) :
  0 <= temperature <= 2 ->
  0 <= handleChange value temperature <= 2 /\
  0 <= incrementTemperature temperature <= 2 /\
  0 <= decrementTemperature temperature <= 2.
Proof.
  intros Ht. split; [|split].
  - unfold handleChange. destruct value as [v|]; [|exact Ht].
    destruct (Qle_bool 0 v) eqn:H0; [|exact Ht].
    destruct (Qle_bool v 2) eqn:H1; [|exact Ht].
    cbn [andb]. apply Qle_bool_iff in H0, H1. now split.
  - unfold incrementTemperature.
    destruct (jsRound_bounds ((temperature + (1 # 10)) * 10)) as [Hlo Hhi].
    destruct (mathMin_cases 2 (inject_Z (jsRound ((temperature + (1 # 10)) * 10)) / 10))
      as [[Hc ->] | [Hc ->]]; split; scaled_arith.
  - unfold decrementTemperature.
    destruct (jsRound_bounds ((temperature - (1 # 10)) * 10)) as [Hlo Hhi].
    destruct (mathMax_cases 0 (inject_Z (jsRound ((temperature - (1 # 10)) * 10)) / 10))
      as [[Hc ->] | [Hc ->]]; split; scaled_arith.
Qed.

Lemma temperature_stays_in_range_witness :
  0 <= handleChange (Some 3) (19 # 10) <= 2 /\
  0 <= incrementTemperature (19 # 10) <= 2 /\
  0 <= decrementTemperature (19 # 10) <= 2.
Proof.
  apply (temperature_stays_in_range (Some 3) (19 # 10)). split; discriminate.
Defined.
End TemperatureBounds.

(** ** The histogram chart *)

Section ChartFacts.

Lemma fold_max_bounded (l : list Z) (m : Z) :
  Forall (fun z => z <= m) l -> fold_left Z.max l m = m.
Proof.
  induction 1 as [|z l Hz _ IH]; [reflexivity|]. cbn [fold_left].
  now rewrite Z.max_l by lia.
Qed.

Lemma shown_colours (colors : list ColorCount) :
  Z.to_nat (Z.min 20 (Z.of_nat (length colors))) = Nat.min 20 (length colors).
Proof. lia. Qed.

Lemma maxCount_is_first (h : ColorCount) (t : list ColorCount) (n : nat) :
  descendingCounts (h :: t) -> maxCountOf (take (S n) (h :: t)) = count h.
Proof.
  intros [Hh _]. cbn [take maxCountOf]. apply fold_max_bounded.
  apply Forall_fmap. apply Forall_take. exact Hh.
Qed.

Lemma bar_height_bounds (c m : Z) :
  1 <= c <= m ->
  (0 < inject_Z c / inject_Z m * (300 - 60) <= 240)%Q /\
  (c = m -> inject_Z c / inject_Z m * (300 - 60) == 240)%Q.
Proof.
  intros Hc.
  assert (Hm : (0 < inject_Z m)%Q).
  { change 0%Q with (inject_Z 0). rewrite <- Zlt_Qlt. lia. }
  assert (Hlow : (0 < inject_Z c / inject_Z m)%Q).
  { apply Qlt_shift_div_l; [exact Hm|]. rewrite Qmult_0_l.
    change 0%Q with (inject_Z 0). rewrite <- Zlt_Qlt. lia. }
  assert (Hhigh : (inject_Z c / inject_Z m <= 1)%Q).
  { apply Qle_shift_div_r; [exact Hm|]. rewrite Qmult_1_l.
    rewrite <- Zle_Qle. lia. }
  split; [split; Lqa.lra|].
  intros ->.
  assert (Hone : (inject_Z m / inject_Z m == 1)%Q).
  { apply Qmult_inv_r. intros Hz. rewrite Hz in Hm. discriminate. }
  rewrite Hone. reflexivity.
Qed.

Lemma bars_of_sorted (colors : list ColorCount) :
  descendingCounts colors ->
  (forall e, e ∈ colors -> 1 <= count e) ->
  length (drawColorHistogram colors) = Nat.min 20 (length colors) /\
  forall (i : nat) (bar : Bar),
    drawColorHistogram colors !! i = Some bar ->
    (exists c, colors !! i = Some c /\ barColor bar = color c /\ barCount bar = count c) /\
    barWidth bar = 30%Q /\
    (barX bar == 40 + 35 * inject_Z (Z.of_nat i))%Q /\
    (barX bar + barWidth bar <= 735)%Q /\
    (0 < barHeight bar <= 240)%Q /\
    (30 <= barY bar <= 270)%Q /\
    (mostCommon bar = true <-> i = 0%nat) /\
    (i = 0%nat -> (barHeight bar == 240)%Q).
Proof.
  intros Hdesc Hpos. unfold drawColorHistogram. cbv zeta.
  rewrite shown_colours.
  destruct colors as [|h t]; [split; [reflexivity | intros i bar Hbar; inversion Hbar]|].
  change (Nat.min 20 (length (h :: t))) with (S (Nat.min 19 (length t))).
  set (n := Nat.min 19 (length t)).
  assert (Hlen : length (take (S n) (h :: t)) = S n).
  { rewrite length_take. cbn [length]. unfold n. lia. }
  rewrite Hlen. cbn [Nat.eqb].
  rewrite (maxCount_is_first h t n Hdesc).
  assert (Hwidth : mathMin 30 ((800 - 40) / inject_Z (Z.of_nat (S n))) = 30%Q).
  { unfold mathMin.
    replace (Qle_bool 30 ((800 - 40) / inject_Z (Z.of_nat (S n)))) with true; [reflexivity|].
    symmetry. apply Qle_bool_iff. apply Qle_shift_div_l.
    - change 0%Q with (inject_Z 0). rewrite <- Zlt_Qlt. lia.
    - assert (Hn : (inject_Z (Z.of_nat (S n)) <= 20)%Q).
      { change 20%Q with (inject_Z 20). rewrite <- Zle_Qle. unfold n. lia. }
      Lqa.lra. }
  rewrite Hwidth. split; [now rewrite length_imap|].
  intros i bar Hbar. rewrite list_lookup_imap in Hbar.
  destruct (take (S n) (h :: t) !! i) as [c|] eqn:Hc; [|discriminate].
  cbn [fmap option_fmap option_map] in Hbar. injection Hbar as <-.
  apply lookup_take_Some in Hc as [Hc Hi].
  cbn [barX barY barWidth barHeight barColor barCount mostCommon].
  assert (Hcount : 1 <= count c <= count h).
  { split; [apply Hpos; now apply list_elem_of_lookup_2 in Hc|].
    destruct i as [|i]; cbn in Hc.
    - injection Hc as <-. lia.
    - destruct Hdesc as [Hh _]. apply (Forall_lookup_1 _ _ _ _ Hh Hc). }
  destruct (bar_height_bounds (count c) (count h) Hcount) as [Hheight Hfull].
  assert (Hidx : (inject_Z (Z.of_nat i) <= 19)%Q).
  { change 19%Q with (inject_Z 19). rewrite <- Zle_Qle. unfold n in Hi. lia. }
  split; [exists c; now split|]. split; [reflexivity|].
  split; [ring|]. split; [Lqa.lra|]. split; [exact Hheight|].
  split; [change (300 - 30)%Q with 270%Q; split; Lqa.lra|].
  split.
  - destruct i; cbn [Nat.eqb]; split; congruence.
  - intros ->. apply Hfull. cbn in Hc. now injection Hc as <-.
Qed.

Lemma histogram_counts_positive (pixelArtData : ImageData) (e : ColorCount) :
  e ∈ generateColorHistogram pixelArtData -> 1 <= count e.
Proof.
  unfold generateColorHistogram. rewrite sortByCount_perm. intros He.
  destruct (countColors_invariant (data pixelArtData)) as (_ & Hcount & _).
  apply (Hcount e He).
Qed.

(** X23. The chart drawColorHistogram draws for a histogram shows its
    first 20 entries, in order.  Every bar is exactly 30 wide (the
    division by the number of bars never binds), bar [i] starts at
    [40 + 35 i] and ends at or before 735 on the 800 wide canvas, every
    bar is more than 0 and at most 240 high and its top lies between
    [y = 30] and [y = 270]; the bar labelled Most Common is the first one, and it has
    the full height of 240. *)
Theorem histogram_chart_fits_canvas (pixelArtData : ImageData) :
  let hist := generateColorHistogram pixelArtData in
  length (drawColorHistogram hist) = Nat.min 20 (length hist) /\
  forall (i : nat) (bar : Bar),
    drawColorHistogram hist !! i = Some bar ->
    (exists c, hist !! i = Some c /\ barColor bar = color c /\ barCount bar = count c) /\
    barWidth bar = 30%Q /\
    (barX bar == 40 + 35 * inject_Z (Z.of_nat i))%Q /\
    (barX bar + barWidth bar <= 735)%Q /\
    (0 < barHeight bar <= 240)%Q /\
    (30 <= barY bar <= 270)%Q /\
    (mostCommon bar = true <-> i = 0%nat) /\
    (i = 0%nat -> (barHeight bar == 240)%Q).
Proof.
  cbv zeta. apply bars_of_sorted.
  - unfold generateColorHistogram. apply sortByCount_descending.
  - intros e. apply histogram_counts_positive.
Qed.
End ChartFacts.

(** ** The single-component analyzer *)

Section MonolithFacts.

Lemma combineMagnitudes_nonneg (allMagnitudes : list (list R)) (n : Z) :
  Forall (Forall (fun v => (0 <= v)%R)) allMagnitudes ->
  Forall (fun v => (0 <= v)%R) (combineMagnitudes allMagnitudes n).
Proof.
  intros Hall. unfold combineMagnitudes. apply Forall_forall. intros v Hv.
  apply list_elem_of_fmap in Hv as (i & -> & _).
  unfold combineAt. now apply (combineAt_bounds (fun _ => True)).
Qed.

Lemma lineMagnitudes_nonneg (img : ImageData) (lines : list Z) :
  Forall (Forall (fun v => (0 <= v)%R)) (lineMagnitudes img lines).
Proof.
  unfold lineMagnitudes. apply Forall_forall. intros m Hm.
  apply list_elem_of_fmap in Hm as (x & -> & _). apply magnitudes_nonneg.
Qed.

Lemma maxFreq_analysed (img : ImageData) (lines : list Z) :
  lines <> [] -> 2 <= height img ->
  maxFreqOf (maxLengthOf (lineMagnitudes img lines)) (height img) = height img / 2.
Proof.
  intros Hne Hh. rewrite (maxLengthOf_lines img lines Hne). unfold maxFreqOf.
  assert (1 <= height img / 2) by (apply Z.div_le_lower_bound; lia).
  assert (height img / 2 < height img) by (apply Z.div_lt_upper_bound; lia).
  lia.
Qed.


End MonolithFacts.

(** ** Reconstruction at an arbitrary pitch *)

Section CellCentres.

Lemma cellCentre_mono (g g' : Z) (ps : Q) :
  (0 <= ps)%Q -> g <= g' -> cellCentre g ps <= cellCentre g' ps.
Proof.
  intros Hps Hg. unfold cellCentre. apply Qfloor_resp_le.
  apply Qmult_le_compat_r; [|exact Hps].
  apply Qplus_le_l. rewrite <- Zle_Qle. exact Hg.
Qed.

(** The centre of the last row of cells is always inside the image. *)
Lemma last_row_inside (h f : Z) :
  1 <= h -> 1 <= f -> cellCentre (f - 1) (pixelSpacingOf h f) < h.
Proof.
  intros Hh Hf. unfold cellCentre, pixelSpacingOf.
  rewrite Zlt_Qlt. eapply Qle_lt_trans; [apply Qfloor_le|].
  assert (Hf0 : (0 < inject_Z f)%Q).
  { change 0%Q with (inject_Z 0). rewrite <- Zlt_Qlt. lia. }
  assert (Hh0 : (0 < inject_Z h)%Q).
  { change 0%Q with (inject_Z 0). rewrite <- Zlt_Qlt. lia. }
  unfold Zminus. rewrite inject_Z_plus. change (inject_Z (-1)) with (-1)%Q.
  assert (Heq : ((inject_Z f + -1 + (1 # 2)) * (inject_Z h / inject_Z f)
                 == inject_Z h - (1 # 2) * (inject_Z h / inject_Z f))%Q).
  { field. intros Hz. rewrite Hz in Hf0. discriminate. }
  rewrite Heq.
  assert (Hpos : (0 < inject_Z h / inject_Z f)%Q).
  { apply Qlt_shift_div_l; [exact Hf0|]. now rewrite Qmult_0_l. }
  Lqa.lra.
Qed.

Lemma sampleGrid_centres (img : ImageData) (f : Z) :
  1 <= height img -> 1 <= f ->
  let ps := pixelSpacingOf (height img) f in
  let ew := estimatedSize (width img) ps in
  cellCentre (ew - 1) ps < width img ->
  sampleGrid img ps ew f
  = flat_map (fun y => map (fun x => mkSample (cellCentre x ps) (cellCentre y ps)
                                       (colourAt img (cellCentre x ps) (cellCentre y ps)))
                           (zrange 0 (ew - 1)))
             (zrange 0 (f - 1)).
Proof.
  intros Hh Hf ps ew Hlast. unfold sampleGrid.
  assert (Hps : (0 <= ps)%Q) by (apply spacing_nonneg; lia).
  pose proof (last_row_inside (height img) f Hh Hf) as Hrow. fold ps in Hrow.
  apply flat_map_ext_elem. intros y Hy. apply elem_of_zrange in Hy.
  rewrite <- flat_map_singleton.
  apply flat_map_ext_elem. intros x Hx. apply elem_of_zrange in Hx.
  unfold sampleCell. cbv zeta.
  pose proof (cellCentre_mono x (ew - 1) ps Hps ltac:(lia)).
  pose proof (cellCentre_mono y (f - 1) ps Hps ltac:(lia)).
  destruct (Z.ltb_spec (cellCentre x ps) (width img)) as [_|]; [|lia].
  destruct (Z.ltb_spec (cellCentre y ps) (height img)) as [_|]; [|lia].
  reflexivity.
Qed.


End CellCentres.

(** ** The state performFFT leaves behind *)

Section AnalysedState.

Lemma generatePixelSamples_keeps (f : Z) (imgDataParam : option ImageData)
    (st : HookState) :
  let st' := generatePixelSamples f imgDataParam st in
  imageData st' = imageData st /\ selectedLines st' = selectedLines st /\
  processing st' = processing st /\ fftResults st' = fftResults st.
Proof.
  cbv zeta. unfold generatePixelSamples.
  destruct (orState imgDataParam st); [|repeat split].
  destruct (f <=? 0); repeat split.
Qed.

Lemma performFFTOn_state (lines : list Z) (img : ImageData) (st : HookState) :
  lines <> [] -> 2 <= height img ->
  let st' := performFFTOn lines img st in
  imageData st' = imageData st /\ selectedLines st' = lines /\
  processing st' = false /\ fftResults st' = map (analyseLine img) lines.
Proof.
  intros Hne Hh. cbv zeta. rewrite (performFFTOn_analyses lines img st Hne Hh). cbv zeta.
  destruct (0 <? _).
  - match goal with |- context [generatePixelSamples ?f ?p ?s] =>
      destruct (generatePixelSamples_keeps f p s) as (-> & -> & -> & ->) end.
    repeat split.
  - repeat split.
Qed.

(** X26. The state performFFT leaves when it returns for an image of
    height at least two and positive width.  The image is the one it
    had, [processing] is off again, the selected lines are distinct
    columns of the image, there is one result per selected line, in the
    same order and carrying that line's column, and every result holds
    [height - 1] transform values and as many magnitudes. *)
Theorem performFFT_state_consistent (fuel : nat) (random : nat -> Q)
    (img : ImageData) (st st' : HookState) :
  unitSource random -> 0 < width img -> 2 <= height img ->
  performFFT fuel random (Some img) st = Some st' ->
  imageData st' = imageData st /\
  processing st' = false /\
  Z.of_nat (length (selectedLines st')) = Z.min 30 (width img) /\
  NoDup (selectedLines st') /\
  (forall x, x ∈ selectedLines st' -> 0 <= x < width img) /\
  map fx (fftResults st') = selectedLines st' /\
  (forall r, r ∈ fftResults st' ->
     Z.of_nat (length (fft_out r)) = height img - 1 /\
     Z.of_nat (length (magnitudes r)) = height img - 1).
Proof.
  intros Hunit Hw Hh. unfold performFFT. cbn [orState].
  destruct (selectLines fuel random 0 (width img) [] ∅) as [lines|] eqn:Hsel;
    [|discriminate].
  intros [= <-].
  destruct (selectLines_sound random (width img) fuel 0 [] ∅ lines Hunit Hw
              (linesInvariant_init (width img) ltac:(lia)) Hsel) as (Hlen & Hnd & Hrange).
  assert (Hne : lines <> []).
  { intros ->. unfold lineTarget in Hlen. cbn [length] in Hlen. lia. }
  destruct (performFFTOn_state lines img st Hne Hh) as (-> & -> & -> & ->).
  split; [reflexivity|]. split; [reflexivity|]. split; [exact Hlen|].
  split; [exact Hnd|]. split; [exact Hrange|]. split.
  - rewrite map_map. cbn [fx analyseLine]. apply map_id.
  - intros r Hr. apply list_elem_of_fmap in Hr as (x & -> & _).
    unfold analyseLine. cbn [fft_out magnitudes].
    rewrite length_map, length_fft, length_derivatives, length_lineData. lia.
Qed.

Lemma performFFT_state_consistent_witness :
  let img := mkImageData 1 2 [grey; crimson] in
  let st' := performFFTOn [0] img (freshState img) in
  imageData st' = imageData (freshState img) /\
  processing st' = false /\
  Z.of_nat (length (selectedLines st')) = Z.min 30 (width img) /\
  NoDup (selectedLines st') /\
  (forall x, x ∈ selectedLines st' -> 0 <= x < width img) /\
  map fx (fftResults st') = selectedLines st' /\
  (forall r, r ∈ fftResults st' ->
     Z.of_nat (length (fft_out r)) = height img - 1 /\
     Z.of_nat (length (magnitudes r)) = height img - 1).
Proof.
  apply (performFFT_state_consistent 1 (fun _ => 0%Q) (mkImageData 1 2 [grey; crimson])
           (freshState (mkImageData 1 2 [grey; crimson]))).
  - intros n. split; reflexivity || discriminate.
  - cbn [width]. lia.
  - cbn [height]. lia.
  - reflexivity.
Defined.
End AnalysedState.

(** ** Batch generation *)

Section BatchFacts.
Import GeminiService.
Variable request : nat -> Settled.

(** The images of the fulfilled requests among [n] requests from [from]. *)
Let imagesOf (from n : nat) : list string :=
  flat_map kept (map request (seq from n)).

Lemma imagesOf_app (from n m : nat) :
  imagesOf from (n + m) = imagesOf from n ++ imagesOf (from + n) m.
Proof. unfold imagesOf. now rewrite seq_app, map_app, flat_map_app. Qed.

Lemma batchLoop_returns (count concurrencyLimit : Z) (fuel : nat) :
  1 <= concurrencyLimit ->
  forall (i : Z) (issued : nat) (results : list string),
    0 <= i -> Z.of_nat issued = Z.min i count ->
    (Z.to_nat (count - i) <= fuel)%nat ->
    batchLoop fuel request count concurrencyLimit i issued results
    = Some (results ++ imagesOf issued (Z.to_nat count - issued), Z.to_nat count).
Proof.
  intros Hlimit. induction fuel as [|fuel IH]; intros i issued results Hi Hissued Hfuel.
  - cbn [batchLoop]. destruct (Z.ltb_spec i count) as [Hlt|Hge]; [lia|].
    replace (Z.to_nat count - issued)%nat with 0%nat by lia.
    unfold imagesOf. cbn [seq map flat_map]. rewrite app_nil_r. do 2 f_equal. lia.
  - cbn [batchLoop]. destruct (Z.ltb_spec i count) as [Hlt|Hge].
    + cbv zeta. unfold settleBatch.
      set (batch := Z.to_nat (Z.min concurrencyLimit (count - i))).
      rewrite (IH (i + concurrencyLimit) (issued + batch)%nat) by (unfold batch; lia).
      fold (imagesOf issued batch). rewrite <- app_assoc, <- imagesOf_app.
      replace (batch + (Z.to_nat count - (issued + batch)))%nat
        with (Z.to_nat count - issued)%nat by (unfold batch; lia).
      reflexivity.
    + replace (Z.to_nat count - issued)%nat with 0%nat by lia.
      unfold imagesOf. cbn [seq map flat_map]. rewrite app_nil_r. do 2 f_equal. lia.
Qed.

Lemma batchLoop_spins (count concurrencyLimit : Z) (fuel : nat) :
  concurrencyLimit <= 0 ->
  forall (i : Z) (issued : nat) (results : list string),
    i < count ->
    batchLoop fuel request count concurrencyLimit i issued results = None.
Proof.
  intros Hlimit. induction fuel as [|fuel IH]; intros i issued results Hi;
    cbn [batchLoop]; destruct (Z.ltb_spec i count) as [_|]; try lia; [reflexivity|].
  cbv zeta. apply IH. lia.
Qed.

(** X27. With a concurrency limit of at least 1 the batch loop returns
    after at most [count] rounds, having issued exactly [count] requests,
    and the images of the response are those of the fulfilled requests
    that carry one, in the order in which the requests were issued:
    batching neither drops, repeats nor reorders them. *)
Theorem batch_collects_fulfilled_in_order (count concurrencyLimit : Z) (fuel : nat) :
  1 <= concurrencyLimit -> 0 <= count -> (Z.to_nat count <= fuel)%nat ->
  generatePixelArtBatch fuel request count concurrencyLimit
  = Some (flat_map kept (map request (seq 0 (Z.to_nat count))), Z.to_nat count).
Proof.
  intros Hlimit Hcount Hfuel. unfold generatePixelArtBatch.
  rewrite (batchLoop_returns count concurrencyLimit fuel Hlimit 0 0%nat []); try lia.
  cbn [app]. unfold imagesOf. now rewrite Nat.sub_0_r.
Qed.

(** X28. With a concurrency limit of 0 or less and at least one image
    requested the batch loop never returns: the counter does not advance
    and every round issues an empty batch. *)
Theorem batch_without_limit_never_returns (count concurrencyLimit : Z) (fuel : nat) :
  concurrencyLimit <= 0 -> 1 <= count ->
  generatePixelArtBatch fuel request count concurrencyLimit = None.
Proof.
  intros Hlimit Hcount. unfold generatePixelArtBatch.
  apply batchLoop_spins; lia.
Qed.

(** X29. Whatever is typed into a concurrency input, the limit stored
    lies between 1 and the cap of that input, the limit the seasons and
    orientation batches pass on, [Math.min(limit, 2)], is at least 1, and
    a batch run with the stored limit returns. *)
Theorem typed_limit_lets_batch_return (cap : Z) (parsed : option Z) (count : Z) :
  1 <= cap -> 0 <= count ->
  let limit := clampConcurrency cap parsed in
  1 <= limit <= cap /\ 1 <= Z.min limit 2 /\
  exists images,
    generatePixelArtBatch (Z.to_nat count) request count limit
    = Some (images, Z.to_nat count).
Proof.
  intros Hcap Hcount limit.
  assert (Hlimit : 1 <= limit <= cap).
  { unfold limit, clampConcurrency. destruct parsed as [v|]; [destruct (v =? 0)|]; lia. }
  split; [exact Hlimit|]. split; [lia|].
  eexists. unfold generatePixelArtBatch.
  rewrite (batchLoop_returns count limit (Z.to_nat count) (proj1 Hlimit) 0 0%nat []);
    [reflexivity | lia | lia | lia].
Qed.
End BatchFacts.

Lemma batch_collects_fulfilled_in_order_witness :
  let request := fun k => if Nat.even k then GeminiService.Fulfilled (Some "img"%string)
                          else GeminiService.Rejected in
  GeminiService.generatePixelArtBatch 5 request 5 2
  = Some (flat_map GeminiService.kept (map request (seq 0 (Z.to_nat 5))), Z.to_nat 5).
Proof.
  apply (batch_collects_fulfilled_in_order
           (fun k => if Nat.even k then GeminiService.Fulfilled (Some "img"%string)
                     else GeminiService.Rejected) 5 2 5); lia.
Defined.

Lemma batch_without_limit_never_returns_witness :
  GeminiService.generatePixelArtBatch 100 (fun _ => GeminiService.Rejected) 3 0 = None.
Proof.
  apply (batch_without_limit_never_returns (fun _ => GeminiService.Rejected) 3 0 100); lia.
Defined.

Lemma typed_limit_lets_batch_return_witness :
  let limit := clampConcurrency 5 (Some 0) in
  1 <= limit <= 5 /\ 1 <= Z.min limit 2 /\
  exists images,
    GeminiService.generatePixelArtBatch (Z.to_nat 4) (fun _ => GeminiService.Rejected)
      4 limit
    = Some (images, Z.to_nat 4).
Proof.
  apply (typed_limit_lets_batch_return (fun _ => GeminiService.Rejected) 5 (Some 0) 4); lia.
Defined.
